(** * Dog walker tracker: identity matching, walk sessions, image retention

    A shallow embedding of [tracker.py] (class [WalkerTracker]), of the
    ingestion path of [main.py] (class [DogWalkerTrackerApp]), of the
    analytics of [analytics.py] (class [WalkerAnalytics]) and of the
    statistics of [web_interface.py], together with the properties of the
    walker-identity matcher, the evidence window, the walk-session aggregate,
    the per-walker image retention and the reports read off the tables.

    Modelling conventions.
    - A [datetime] is the integer number of microseconds since the epoch
      (the resolution of [datetime]); [timedelta(seconds=n)] is [n * 10^6].
      [(a - b).total_seconds() > 60] is the comparison
      [60 * 10^6 < a - b] on these integers.
    - [process_detection_at] takes every reading of [datetime.utcnow()] of
      one call as a field of a [Clock.t], in the order in which the call
      reads them.  The other definitions take the one instant [now] at which
      the method runs; [process_detection] is [process_detection_at] for
      readings that coincide.
    - The order in which the process iterates over a set of strings is a
      parameter of [csv_add_by]; [csv_add] is the case of one such order.
    - The SQLAlchemy session is a record of four tables, each the list of its
      rows in rowid order; [query(...).first()] is the first row of the table
      that passes the filter; a new row receives the rowid SQLite gives it,
      one more than the largest rowid in the table.
    - A Python [float] (confidences, quality score) is a rational.
    - A dict whose order shows in the result is the list of its items in
      insertion order; [walker.detections] is the list of the detections whose
      [walker_id] is the walker's; [list(set(...))] is the list without its
      repetitions.
    - The file system is the set of the paths that exist. *)

From Stdlib Require Import ZArith QArith Bool Ascii String.
From stdpp Require Import base decidable option list gmap sets strings sorting relations pretty.

Local Open Scope string_scope.
Local Open Scope list_scope.
Local Open Scope Z_scope.

(** ** Rows of the database ([database.py]) *)

Module Walker.
Record t := mk {
  id : Z;
  first_seen : Z;
  last_seen : Z;
  total_walks : Z
}.
Definition set_last_seen (v : Z) (w : t) : t :=
  mk (id w) (first_seen w) v (total_walks w).
End Walker.

Module Detection.
Record t := mk {
  id : Z;
  walker_id : Z;
  camera : string;
  zone : string;
  path_name : string;
  timestamp : Z;
  event_type : string;
  has_dog : bool;
  person_confidence : option Q;
  dog_confidence : option Q
}.
End Detection.

Module WalkerImage.
Record t := mk {
  id : Z;
  walker_id : Z;
  image_path : string;
  image_type : string;
  timestamp : Z;
  camera : string;
  quality_score : Q
}.
End WalkerImage.

Module WalkSession.
Record t := mk {
  id : Z;
  walker_id : Z;
  start_time : Z;
  end_time : option Z;
  cameras_visited : string;
  paths_taken : string;
  has_dog : bool
}.
Definition set_end_time (v : option Z) (s : t) : t :=
  mk (id s) (walker_id s) (start_time s) v
     (cameras_visited s) (paths_taken s) (has_dog s).
End WalkSession.

(** An entry of [WalkerTracker.recent_detections]: the dict with the keys
    ['walker_id'], ['camera'], ['timestamp'] and ['has_dog']. *)
Module Recent.
Record t := mk {
  walker_id : Z;
  camera : string;
  timestamp : Z;
  has_dog : bool
}.
End Recent.

(** The dict [get_walker_stats] returns for a walker that has a row. *)
Module WalkerStats.
Record t := mk {
  walker_id : Z;
  first_seen : Z;
  last_seen : Z;
  total_walks : Z;
  total_detections : Z;
  cameras : list string;
  paths : list string;
  has_dog : bool
}.
End WalkerStats.

(** ** Configuration (the parsed [config.yaml])

    The fields are the entries the code reads: [cameras],
    [tracking.cross_camera_window], [tracking.min_person_confidence],
    [images.max_images_per_walker] and [images.storage_path]. *)

Module CameraConfig.
Record t := mk {
  zone : string;
  path_name : string
}.
End CameraConfig.

Record Config := {
  cameras : gmap string CameraConfig.t;
  cross_camera_window : Z;
  min_person_confidence : Q;
  max_images_per_walker : Z;
  storage_path : string
}.

(** ** The tracker: the database session, the evidence window, the files *)

Record Tracker := mkTracker {
  walkers : list Walker.t;
  detections : list Detection.t;
  walk_sessions : list WalkSession.t;
  walker_images : list WalkerImage.t;
  recent_detections : list Recent.t;
  files : gset string
}.

(** [WalkerTracker.__init__] over an empty database. *)
Definition empty_tracker : Tracker := mkTracker [] [] [] [] [] ∅.

Definition set_walkers (v : list Walker.t) (st : Tracker) : Tracker :=
  mkTracker v (detections st) (walk_sessions st) (walker_images st)
            (recent_detections st) (files st).
Definition set_detections (v : list Detection.t) (st : Tracker) : Tracker :=
  mkTracker (walkers st) v (walk_sessions st) (walker_images st)
            (recent_detections st) (files st).
Definition set_walk_sessions (v : list WalkSession.t) (st : Tracker) : Tracker :=
  mkTracker (walkers st) (detections st) v (walker_images st)
            (recent_detections st) (files st).
Definition set_walker_images (v : list WalkerImage.t) (st : Tracker) : Tracker :=
  mkTracker (walkers st) (detections st) (walk_sessions st) v
            (recent_detections st) (files st).
Definition set_recent_detections (v : list Recent.t) (st : Tracker) : Tracker :=
  mkTracker (walkers st) (detections st) (walk_sessions st) (walker_images st)
            v (files st).
Definition set_files (v : gset string) (st : Tracker) : Tracker :=
  mkTracker (walkers st) (detections st) (walk_sessions st) (walker_images st)
            (recent_detections st) v.

(** ** Time *)

Definition usec_per_second : Z := 1000000.
(** [timedelta(seconds=n)] *)
Definition seconds (n : Z) : Z := n * usec_per_second.

(** The readings of [datetime.utcnow()] of one call of
    [process_detection], in the order in which the call makes them: in
    [_match_to_walker], for [first_seen] and [last_seen] of a new walker (for
    [last_seen] alone of a matched one), for the timestamp of the detection
    row, for the entry of the evidence window, in
    [_clean_recent_detections], and for the start of a new session. *)
Module Clock.
Record t := mk {
  matching : Z;
  first_seen : Z;
  last_seen : Z;
  detection : Z;
  evidence : Z;
  cleaning : Z;
  session : Z
}.
Definition constant (now : Z) : t := mk now now now now now now now.
End Clock.

(** ** Exceptions *)

Inductive exn := AttributeError.

Inductive result (A : Type) :=
| Ok (a : A)
| Raise (e : exn).
Arguments Ok {A} a.
Arguments Raise {A} e.

(** The rowid of the next row of a table whose rows have the rowids [ids]. *)
Definition next_rowid (ids : list Z) : Z := 1 + foldr Z.max 0 ids.

(** ** Comma-separated sets of a walk session *)

(** [s.split(sep)] for a separator of one character. *)
Fixpoint split_aux (sep : ascii) (cur : string) (s : string) : list string :=
  match s with
  | EmptyString => [cur]
  | String c s' =>
      if Ascii.eqb c sep then cur :: split_aux sep "" s'
      else split_aux sep (cur +:+ String c "") s'
  end.
Definition split (sep : ascii) (s : string) : list string := split_aux sep "" s.

(** [x = set(s.split(',') if s else []); x.add(item); ','.join(x)].  The
    order in which Python iterates over a set is not specified: it depends
    on the hash seed of the process and on the insertions.  [order names
    item] is the order in which the process iterates over the set built from
    the list [names] after [item] was added to it. *)
Definition csv_add_by (order : list string → string → list string)
    (s item : string) : string :=
  String.concat "," (order (if decide (s = "") then [] else split "," s) item).

(** One such order: each element once, where it occurs last in the list, and
    a new element at the end. *)
Definition kept_order (names : list string) (item : string) : list string :=
  let xs := remove_dups names in
  if decide (item ∈ xs) then xs else xs ++ [item].

(** [csv_add_by kept_order], written out. *)
Definition csv_add (s item : string) : string :=
  let xs := remove_dups (if decide (s = "") then [] else split "," s) in
  let xs := if decide (item ∈ xs) then xs else xs ++ [item] in
  String.concat "," xs.

Module WalkerTracker.

(** The loop of [_match_to_walker] over [reversed(self.recent_detections)]. *)
Fixpoint scan_recent (cutoff_time now : Z) (camera : string) (has_dog : bool)
    (ds : list Recent.t) : option Z :=
  match ds with
  | [] => None
  | detection :: rest =>
      if decide (Recent.timestamp detection < cutoff_time) then
        scan_recent cutoff_time now camera has_dog rest
      else
        let time_diff := now - Recent.timestamp detection in
        if decide (Recent.has_dog detection = has_dog) then
          if decide (Recent.camera detection ≠ camera) then
            Some (Recent.walker_id detection)
          else if decide (seconds 60 < time_diff) then
            Some (Recent.walker_id detection)
          else scan_recent cutoff_time now camera has_dog rest
        else scan_recent cutoff_time now camera has_dog rest
  end.

Definition _match_to_walker (cfg : Config) (now : Z)
    (camera zone : string) (has_dog : bool) (st : Tracker) : option Z :=
  let window := cross_camera_window cfg in
  let cutoff_time := now - seconds window in
  scan_recent cutoff_time now camera has_dog (reverse (recent_detections st)).

Definition _clean_recent_detections (cfg : Config) (now : Z) (st : Tracker)
    : Tracker :=
  let window := cross_camera_window cfg in
  let cutoff_time := now - seconds window in
  set_recent_detections
    (filter (λ d, cutoff_time ≤ Recent.timestamp d) (recent_detections st)) st.

(** The filter of the two session queries: this walker, [end_time == None]. *)
Definition is_active (walker_id : Z) (s : WalkSession.t) : Prop :=
  WalkSession.walker_id s = walker_id ∧ WalkSession.end_time s = None.

#[global] Instance is_active_dec walker_id s : Decision (is_active walker_id s).
Proof. unfold is_active. apply _. Defined.

(** [_update_walk_session], the sets read in [kept_order];
    [_update_walk_session_by] below has the order as a parameter. *)
Definition _update_walk_session (now : Z) (walker_id : Z)
    (camera path_name : string) (has_dog : bool) (st : Tracker) : Tracker :=
  match list_find (is_active walker_id) (walk_sessions st) with
  | Some (i, active) =>
      let active' :=
        WalkSession.mk (WalkSession.id active) (WalkSession.walker_id active)
          (WalkSession.start_time active) (WalkSession.end_time active)
          (csv_add (WalkSession.cameras_visited active) camera)
          (csv_add (WalkSession.paths_taken active) path_name)
          (WalkSession.has_dog active || has_dog) in
      set_walk_sessions (<[i := active']> (walk_sessions st)) st
  | None =>
      let session :=
        WalkSession.mk (next_rowid (WalkSession.id <$> walk_sessions st))
          walker_id now None camera path_name has_dog in
      set_walk_sessions (walk_sessions st ++ [session]) st
  end.

Definition close_session (now : Z) (walker_id : Z) (st : Tracker) : Tracker :=
  match list_find (is_active walker_id) (walk_sessions st) with
  | Some (i, session) =>
      set_walk_sessions
        (<[i := WalkSession.set_end_time (Some now) session]> (walk_sessions st)) st
  | None => st
  end.

(** The parameter [event_id] of the source is not used by its body and is
    left out.  Every reading of the clock is the one instant [now];
    [process_detection_at] below has the readings apart. *)
Definition process_detection (cfg : Config) (now : Z)
    (camera zone path_name : string) (has_person has_dog : bool)
    (person_confidence dog_confidence : Q) (st : Tracker)
    : result (option Z * Tracker) :=
  if negb has_person then Ok (None, st)
  else
    let matched :=
      match _match_to_walker cfg now camera zone has_dog st with
      | None =>
          let walker :=
            Walker.mk (next_rowid (Walker.id <$> walkers st)) now now 1 in
          Ok (Walker.id walker, set_walkers (walkers st ++ [walker]) st)
      | Some walker_id =>
          match list_find (λ w, Walker.id w = walker_id) (walkers st) with
          | Some (i, walker) =>
              Ok (walker_id,
                  set_walkers
                    (<[i := Walker.set_last_seen now walker]> (walkers st)) st)
          | None => Raise AttributeError
          end
      end in
    match matched with
    | Raise e => Raise e
    | Ok (walker_id, st) =>
        let detection :=
          Detection.mk (next_rowid (Detection.id <$> detections st))
            walker_id camera zone path_name now "enter" has_dog
            (Some person_confidence)
            (if has_dog then Some dog_confidence else None) in
        let st := set_detections (detections st ++ [detection]) st in
        let st :=
          set_recent_detections
            (recent_detections st ++ [Recent.mk walker_id camera now has_dog])
            st in
        let st := _clean_recent_detections cfg now st in
        let st := _update_walk_session now walker_id camera path_name has_dog st in
        Ok (Some walker_id, st)
    end.

(** [_update_walk_session], for any order of the sets. *)
Definition _update_walk_session_by (order : list string → string → list string)
    (now : Z) (walker_id : Z) (camera path_name : string) (has_dog : bool)
    (st : Tracker) : Tracker :=
  match list_find (is_active walker_id) (walk_sessions st) with
  | Some (i, active) =>
      let active' :=
        WalkSession.mk (WalkSession.id active) (WalkSession.walker_id active)
          (WalkSession.start_time active) (WalkSession.end_time active)
          (csv_add_by order (WalkSession.cameras_visited active) camera)
          (csv_add_by order (WalkSession.paths_taken active) path_name)
          (WalkSession.has_dog active || has_dog) in
      set_walk_sessions (<[i := active']> (walk_sessions st)) st
  | None =>
      let session :=
        WalkSession.mk (next_rowid (WalkSession.id <$> walk_sessions st))
          walker_id now None camera path_name has_dog in
      set_walk_sessions (walk_sessions st ++ [session]) st
  end.

(** [process_detection], for any order of the sets and with each reading of
    the clock where the source makes it. *)
Definition process_detection_at (cfg : Config)
    (order : list string → string → list string) (clock : Clock.t)
    (camera zone path_name : string) (has_person has_dog : bool)
    (person_confidence dog_confidence : Q) (st : Tracker)
    : result (option Z * Tracker) :=
  if negb has_person then Ok (None, st)
  else
    let matched :=
      match _match_to_walker cfg (Clock.matching clock) camera zone has_dog st with
      | None =>
          let walker :=
            Walker.mk (next_rowid (Walker.id <$> walkers st))
              (Clock.first_seen clock) (Clock.last_seen clock) 1 in
          Ok (Walker.id walker, set_walkers (walkers st ++ [walker]) st)
      | Some walker_id =>
          match list_find (λ w, Walker.id w = walker_id) (walkers st) with
          | Some (i, walker) =>
              Ok (walker_id,
                  set_walkers
                    (<[i := Walker.set_last_seen (Clock.last_seen clock) walker]>
                       (walkers st)) st)
          | None => Raise AttributeError
          end
      end in
    match matched with
    | Raise e => Raise e
    | Ok (walker_id, st) =>
        let detection :=
          Detection.mk (next_rowid (Detection.id <$> detections st))
            walker_id camera zone path_name (Clock.detection clock) "enter"
            has_dog (Some person_confidence)
            (if has_dog then Some dog_confidence else None) in
        let st := set_detections (detections st ++ [detection]) st in
        let st :=
          set_recent_detections
            (recent_detections st
               ++ [Recent.mk walker_id camera (Clock.evidence clock) has_dog])
            st in
        let st := _clean_recent_detections cfg (Clock.cleaning clock) st in
        let st :=
          _update_walk_session_by order (Clock.session clock) walker_id camera
            path_name has_dog st in
        Ok (Some walker_id, st)
    end.

Definition record_exit (now : Z) (walker_id : Z)
    (camera zone path_name : string) (st : Tracker) : Tracker :=
  let detection :=
    Detection.mk (next_rowid (Detection.id <$> detections st))
      walker_id camera zone path_name now "leave" false None None in
  set_detections (detections st ++ [detection]) st.

(** [ORDER BY quality_score DESC, timestamp DESC]: [a] is not placed after
    [b].  Rows that agree on both keys come out in an order SQLite leaves
    open; the model sorts with a merge sort. *)
Definition ranks_before (a b : WalkerImage.t) : Prop :=
  match (WalkerImage.quality_score a ?= WalkerImage.quality_score b)%Q with
  | Gt => True
  | Lt => False
  | Eq => WalkerImage.timestamp b ≤ WalkerImage.timestamp a
  end.

#[global] Instance ranks_before_dec a b : Decision (ranks_before a b).
Proof. unfold ranks_before. destruct (_ ?= _)%Q; apply _. Defined.

(** [l[k:]] *)
Definition slice_from {A} (k : Z) (l : list A) : list A :=
  if decide (0 ≤ k) then drop (Z.to_nat k) l
  else drop (Z.to_nat (Z.of_nat (length l) + k)) l.

(** One turn of the loop of [_cleanup_old_images]: the file goes if it
    exists, then the row goes (by primary key). *)
Definition evict (st : Tracker) (img : WalkerImage.t) : Tracker :=
  let st :=
    if decide (WalkerImage.image_path img ∈ files st) then
      set_files (files st ∖ {[WalkerImage.image_path img]}) st
    else st in
  set_walker_images
    (filter (λ r, WalkerImage.id r ≠ WalkerImage.id img) (walker_images st)) st.

Definition images_of (walker_id : Z) (st : Tracker) : list WalkerImage.t :=
  filter (λ r, WalkerImage.walker_id r = walker_id) (walker_images st).

Definition _cleanup_old_images (walker_id : Z) (max_images : Z) (st : Tracker)
    : Tracker :=
  let images := merge_sort ranks_before (images_of walker_id st) in
  if decide (max_images < Z.of_nat (length images)) then
    foldl evict st (slice_from max_images images)
  else st.

Definition save_walker_image (cfg : Config) (now : Z) (walker_id : Z)
    (image_path image_type camera : string) (quality_score : Q) (st : Tracker)
    : Tracker :=
  let walker_image :=
    WalkerImage.mk (next_rowid (WalkerImage.id <$> walker_images st))
      walker_id image_path image_type now camera quality_score in
  let st := set_walker_images (walker_images st ++ [walker_image]) st in
  let max_images := max_images_per_walker cfg in
  _cleanup_old_images walker_id max_images st.

(** [None] is the empty dict of a walker without a row.  [list(set(...))]
    lists each element once, in the order of the last occurrences; Python
    leaves the order open. *)
Definition get_walker_stats (walker_id : Z) (st : Tracker)
    : option WalkerStats.t :=
  match list_find (λ w, Walker.id w = walker_id) (walkers st) with
  | None => None
  | Some (_, walker) =>
      let detections :=
        filter (λ d, Detection.walker_id d = walker_id) (detections st) in
      let sessions :=
        filter (λ s, WalkSession.walker_id s = walker_id) (walk_sessions st) in
      let cameras_used := remove_dups (Detection.camera <$> detections) in
      let paths_taken := remove_dups (Detection.path_name <$> detections) in
      Some (WalkerStats.mk walker_id (Walker.first_seen walker)
              (Walker.last_seen walker) (Z.of_nat (length sessions))
              (Z.of_nat (length detections)) cameras_used paths_taken
              (existsb Detection.has_dog detections))
  end.

Definition get_all_walkers (st : Tracker) : list (option WalkerStats.t) :=
  (λ w, get_walker_stats (Walker.id w) st) <$> walkers st.

End WalkerTracker.

(** ** The ingestion path of [main.py] *)

Module DogWalkerTrackerApp.
Import WalkerTracker.

(** The decoded JSON payload of an MQTT message: a number, a boolean, the
    dict of a lifecycle event (the keys the code reads, ['after'] being a
    dict when present), or anything else. *)
Record EventData := {
  ev_type : option string;
  after_camera : option string;
  after_label : option string;
  after_id : option string;
  after_has_snapshot : bool
}.

Inductive Payload :=
| PInt (n : Z)
| PBool (b : bool)
| PEvent (e : EventData)
| POther.

(** What the outside answers during one event: the local time formatted by
    [strftime('%Y%m%d_%H%M%S')] and whether Frigate delivered the image. *)
Record World := {
  stamp : string;
  download_ok : bool
}.

(** [os.path.join(a, b)] on POSIX. *)
Definition path_join (a b : string) : string :=
  if String.prefix "/" b then b
  else if decide (a = "") then b
  else if Ascii.eqb (default "/"%char (last (list_ascii_of_string a))) "/"%char
       then a +:+ b
       else a +:+ "/" +:+ b.

(** [str(x)] of an optional string inside an f-string. *)
Definition fmt (o : option string) : string := default "None" o.

(** [frigate.get_event_snapshot] and [frigate.get_latest_frame]: on
    success the image is written at [save_path]. *)
Definition download (w : World) (save_path : string) (st : Tracker)
    : bool * Tracker :=
  if download_ok w then (true, set_files ({[save_path]} ∪ files st) st)
  else (false, st).

Definition _capture_event_snapshot (cfg : Config) (w : World)
    (event_id camera label : string) (st : Tracker) : Tracker :=
  let img_dir := storage_path cfg in
  let filename :=
    camera +:+ "_" +:+ label +:+ "_" +:+ stamp w +:+ "_" +:+ event_id +:+ ".jpg" in
  let save_path := path_join img_dir filename in
  snd (download w save_path st).

Definition _capture_latest_frame (cfg : Config) (now : Z) (w : World)
    (walker_id : Z) (camera image_type : string) (st : Tracker) : Tracker :=
  let img_dir := storage_path cfg in
  let filename :=
    "walker_" +:+ pretty walker_id +:+ "_" +:+ camera +:+ "_" +:+ image_type
      +:+ "_" +:+ stamp w +:+ ".jpg" in
  let save_path := path_join img_dir filename in
  let '(success, st) := download w save_path st in
  if success then
    save_walker_image cfg now walker_id save_path image_type camera (7 # 10) st
  else st.

Definition _process_event (cfg : Config) (w : World) (event_data : Payload)
    (st : Tracker) : result Tracker :=
  match event_data with
  | PEvent e =>
      if decide (ev_type e = Some "new") then Ok st
      else if decide (ev_type e = Some "end") then
        if after_has_snapshot e
           && bool_decide (after_label e ∈ [Some "person"; Some "dog"]) then
          Ok (_capture_event_snapshot cfg w (fmt (after_id e))
                (fmt (after_camera e)) (fmt (after_label e)) st)
        else Ok st
      else Ok st
  | _ => Raise AttributeError
  end.

(** [payload if isinstance(payload, int) else 0]; a [bool] is an [int]. *)
Definition count_of (payload : Payload) : Z :=
  match payload with
  | PInt n => n
  | PBool b => if b then 1 else 0
  | _ => 0
  end.

(** The configuration of a camera is a record here, so it is never the
    empty dict that [if not camera_config] would also turn away. *)
Definition _process_detection (cfg : Config) (now : Z) (w : World)
    (camera object_type : string) (payload : Payload) (st : Tracker)
    : result Tracker :=
  match cameras cfg !! camera with
  | None => Ok st
  | Some camera_config =>
      let zone := CameraConfig.zone camera_config in
      let path_name := CameraConfig.path_name camera_config in
      let count := count_of payload in
      if decide (object_type = "person" ∧ 0 < count) then
        let min_conf := min_person_confidence cfg in
        match process_detection cfg now camera zone path_name true false
                min_conf 0 st with
        | Raise e => Raise e
        | Ok (Some walker_id, st) =>
            if decide (walker_id ≠ 0) then
              Ok (_capture_latest_frame cfg now w walker_id camera "person" st)
            else Ok st
        | Ok (None, st) => Ok st
        end
      else Ok st
  end.

(** [try: ... except Exception: logger.error(...)]: the tracker stays as
    it was when the exception was raised, which in this model is before
    any write. *)
Definition _handle_frigate_event (cfg : Config) (now : Z) (w : World)
    (topic : string) (payload : Payload) (st : Tracker) : Tracker :=
  let parts := split "/" topic in
  let outcome :=
    if decide (topic = "frigate/events") then _process_event cfg w payload st
    else
      match parts with
      | [p0; camera; object_type] =>
          if decide (p0 = "frigate") then
            _process_detection cfg now w camera object_type payload st
          else Ok st
      | _ => Ok st
      end in
  match outcome with
  | Ok st' => st'
  | Raise _ => st
  end.

End DogWalkerTrackerApp.

(** ** The analytics of [analytics.py] and the statistics of [web_interface.py] *)

(** An entry of the list [get_regular_walkers] returns. *)
Module RegularWalker.
Record t := mk {
  walker_id : Z;
  sessions_count : Z;
  unique_days : Z;
  first_seen : Z;
  last_seen : Z;
  has_dog : bool
}.
End RegularWalker.

(** An entry of the list [get_suspicious_walkers] returns. *)
Module SuspiciousWalker.
Record t := mk {
  walker_id : Z;
  dog_walks : Z;
  total_walks : Z;
  first_seen : Z;
  last_seen : Z
}.
End SuspiciousWalker.

(** The dict [generate_report] returns for a stored walker. *)
Module Report.
Record t := mk {
  walker_id : Z;
  first_seen : Z;
  last_seen : Z;
  total_sessions : Z;
  total_detections : Z;
  has_dog : bool;
  schedule : list (string * list string);
  path_patterns : list (string * Z);
  cameras_used : list string
}.
End Report.

(** The dict [get_stats] returns. *)
Module Stats.
Record t := mk {
  total_walkers : Z;
  total_detections : Z;
  total_sessions : Z;
  walkers_with_dogs : Z;
  walkers_without_dogs : Z
}.
End Stats.

(** The entries of the configuration the analytics read:
    [tracking.regular_walker_days] and [analytics.suspicious_threshold]. *)
Record AnalyticsConfig := {
  regular_walker_days : Z;
  suspicious_threshold : Z
}.

(** [sorted(l, key=key, reverse=True)]: by key descending, elements with
    equal keys in the order they had. *)
Fixpoint insert_desc {A} (key : A → Z) (x : A) (l : list A) : list A :=
  match l with
  | [] => [x]
  | y :: l' =>
      if decide (key x < key y) then y :: insert_desc key x l' else x :: y :: l'
  end.

Definition sorted_desc {A} (key : A → Z) (l : list A) : list A :=
  foldr (insert_desc key) [] l.

Module WalkerAnalytics.

Definition usec_per_day : Z := 86400 * usec_per_second.
(** [timedelta(days=n)] *)
Definition days (n : Z) : Z := n * usec_per_day.
(** [t.date()], as the number of the day since the epoch. *)
Definition date (t : Z) : Z := t `div` usec_per_day.

(** The sessions of a walker that start at the cutoff or later. *)
Definition sessions_since (cutoff_date : Z) (walker_id : Z) (st : Tracker)
    : list WalkSession.t :=
  filter (λ s, WalkSession.walker_id s = walker_id ∧
               cutoff_date ≤ WalkSession.start_time s) (walk_sessions st).

Definition get_regular_walkers (acfg : AnalyticsConfig) (now : Z)
    (days_arg : option Z) (st : Tracker) : list RegularWalker.t :=
  let days_ := default (regular_walker_days acfg) days_arg in
  let cutoff_date := now - days days_ in
  let walkers_ := filter (λ w, cutoff_date ≤ Walker.first_seen w) (walkers st) in
  let regular :=
    omap (λ walker,
            let sessions := sessions_since cutoff_date (Walker.id walker) st in
            if decide (3 ≤ Z.of_nat (length sessions)) then
              let unique_days :=
                Z.of_nat (length (remove_dups
                                    ((λ s, date (WalkSession.start_time s))
                                       <$> sessions))) in
              Some (RegularWalker.mk (Walker.id walker)
                      (Z.of_nat (length sessions)) unique_days
                      (Walker.first_seen walker) (Walker.last_seen walker)
                      (existsb WalkSession.has_dog sessions))
            else None) walkers_ in
  sorted_desc RegularWalker.sessions_count regular.

(** [walker.detections]: the detections whose [walker_id] is the walker's. *)
Definition get_walkers_with_dogs (st : Tracker) : list Z :=
  omap (λ walker,
          let has_dog :=
            existsb Detection.has_dog
              (filter (λ d, Detection.walker_id d = Walker.id walker)
                 (detections st)) in
          if has_dog then Some (Walker.id walker) else None) (walkers st).

Definition get_suspicious_walkers (acfg : AnalyticsConfig) (now : Z)
    (threshold_arg : option Z) (st : Tracker) : list SuspiciousWalker.t :=
  let threshold := default (suspicious_threshold acfg) threshold_arg in
  let dog_walkers := get_walkers_with_dogs st in
  let regular := get_regular_walkers acfg now None st in
  omap (λ walker_info,
          let walker_id := RegularWalker.walker_id walker_info in
          if decide (walker_id ∈ dog_walkers ∧
                     threshold ≤ RegularWalker.sessions_count walker_info) then
            let sessions :=
              filter (λ s, WalkSession.walker_id s = walker_id ∧
                           WalkSession.has_dog s = true) (walk_sessions st) in
            Some (SuspiciousWalker.mk walker_id (Z.of_nat (length sessions))
                    (RegularWalker.sessions_count walker_info)
                    (RegularWalker.first_seen walker_info)
                    (RegularWalker.last_seen walker_info))
          else None) regular.

(** [paths[path] = paths.get(path, 0) + 1] on a dict, which keeps its keys
    in the order of their first insertion. *)
Fixpoint count_path (path : string) (paths : list (string * Z))
    : list (string * Z) :=
  match paths with
  | [] => [(path, 1)]
  | (k, n) :: paths' =>
      if decide (k = path) then (k, n + 1) :: paths'
      else (k, n) :: count_path path paths'
  end.

Definition get_path_patterns (walker_id : Z) (st : Tracker)
    : list (string * Z) :=
  let detections_ :=
    filter (λ d, Detection.walker_id d = walker_id) (detections st) in
  let paths :=
    foldl (λ paths detection, count_path (Detection.path_name detection) paths)
      [] detections_ in
  sorted_desc snd paths.

(** [t.weekday()]: Monday is 0; the first day of the epoch was a Thursday. *)
Definition weekday (t : Z) : Z := (date t + 3) `mod` 7.

Definition day_names : list string :=
  ["Monday"; "Tuesday"; "Wednesday"; "Thursday"; "Friday"; "Saturday"; "Sunday"].

(** [t.strftime('%A')] *)
Definition strftime_A (t : Z) : string :=
  default "" (day_names !! Z.to_nat (weekday t)).

(** [t.hour] and [t.minute] *)
Definition hour (t : Z) : Z := (t `mod` usec_per_day) `div` seconds 3600.
Definition minute (t : Z) : Z := (t `mod` seconds 3600) `div` seconds 60.

(** [%H] and [%M]: two digits. *)
Definition two_digits (n : Z) : string :=
  if decide (n < 10) then "0" +:+ pretty n else pretty n.

(** [t.strftime('%H:%M')] *)
Definition strftime_HM (t : Z) : string :=
  two_digits (hour t) +:+ ":" +:+ two_digits (minute t).

(** The dict of [get_walker_schedule] has the seven day names as keys, in
    this order; [schedule[day_name].append(time_str)] finds its key, as
    [strftime('%A')] gives one of the seven names. *)
Definition get_walker_schedule (walker_id : Z) (st : Tracker)
    : list (string * list string) :=
  let sessions :=
    filter (λ s, WalkSession.walker_id s = walker_id) (walk_sessions st) in
  let schedule := (λ day, (day, [])) <$> day_names in
  foldl (λ (schedule : list (string * list string)) session,
           let day_name := strftime_A (WalkSession.start_time session) in
           let time_str := strftime_HM (WalkSession.start_time session) in
           (λ kv, if decide (kv.1 = day_name) then (kv.1, kv.2 ++ [time_str])
                  else kv) <$> schedule)
    schedule sessions.

(** [generate_report]; [None] is the empty dict. *)
Definition generate_report (walker_id : Z) (st : Tracker) : option Report.t :=
  match list_find (λ w, Walker.id w = walker_id) (walkers st) with
  | None => None
  | Some (_, walker) =>
      let sessions :=
        filter (λ s, WalkSession.walker_id s = walker_id) (walk_sessions st) in
      let detections_ :=
        filter (λ d, Detection.walker_id d = walker_id) (detections st) in
      Some (Report.mk walker_id (Walker.first_seen walker)
              (Walker.last_seen walker) (Z.of_nat (length sessions))
              (Z.of_nat (length detections_))
              (existsb WalkSession.has_dog sessions)
              (get_walker_schedule walker_id st)
              (get_path_patterns walker_id st)
              (remove_dups (Detection.camera <$> detections_)))
  end.

End WalkerAnalytics.

(** [get_stats] of [web_interface.py]. *)
Definition get_stats (st : Tracker) : Stats.t :=
  let walkers_with_dogs :=
    Z.of_nat (length (filter (λ w,
                 existsb Detection.has_dog
                   (filter (λ d, Detection.walker_id d = Walker.id w)
                      (detections st)) = true) (walkers st))) in
  Stats.mk (Z.of_nat (length (walkers st))) (Z.of_nat (length (detections st)))
    (Z.of_nat (length (walk_sessions st))) walkers_with_dogs
    (Z.of_nat (length (walkers st)) - walkers_with_dogs).

(** * Vocabulary of the statements *)

Import WalkerTracker.
Import DogWalkerTrackerApp.

(** An entry stops the scan of [_match_to_walker]: it is inside the window,
    agrees on the dog, and is on another camera or more than 60 s old. *)
Definition accepts (cutoff_time now : Z) (camera : string) (has_dog : bool)
    (d : Recent.t) : Prop :=
  cutoff_time ≤ Recent.timestamp d ∧ Recent.has_dog d = has_dog ∧
  (Recent.camera d ≠ camera ∨ seconds 60 < now - Recent.timestamp d).

(** What [process_detection] does once the walker id is known: the detection
    row, the evidence entry, the pruning and the session. *)
Definition finish_detection (cfg : Config) (now : Z)
    (camera zone path_name : string) (has_dog : bool)
    (person_confidence dog_confidence : Q) (walker_id : Z) (st : Tracker)
    : Tracker :=
  let detection :=
    Detection.mk (next_rowid (Detection.id <$> detections st))
      walker_id camera zone path_name now "enter" has_dog
      (Some person_confidence)
      (if has_dog then Some dog_confidence else None) in
  let st := set_detections (detections st ++ [detection]) st in
  let st :=
    set_recent_detections
      (recent_detections st ++ [Recent.mk walker_id camera now has_dog]) st in
  let st := _clean_recent_detections cfg now st in
  _update_walk_session now walker_id camera path_name has_dog st.

(** How the [walkers] table moves when a detection resolves to [w]. *)
Inductive resolved (cfg : Config) (now : Z) (camera zone : string)
    (has_dog : bool) (st : Tracker) (w : Z) (ws : list Walker.t) : Prop :=
| resolved_new :
    _match_to_walker cfg now camera zone has_dog st = None →
    w = next_rowid (Walker.id <$> walkers st) →
    ws = walkers st ++ [Walker.mk w now now 1] →
    resolved cfg now camera zone has_dog st w ws
| resolved_match i walker :
    _match_to_walker cfg now camera zone has_dog st = Some w →
    walkers st !! i = Some walker →
    Walker.id walker = w →
    (∀ j y, walkers st !! j = Some y → (j < i)%nat → Walker.id y ≠ w) →
    ws = <[i := Walker.set_last_seen now walker]> (walkers st) →
    resolved cfg now camera zone has_dog st w ws.

(** Every walker id of the evidence window is a row of [walkers]. *)
Definition ids_known (st : Tracker) : Prop :=
  ∀ d, d ∈ recent_detections st → Recent.walker_id d ∈ Walker.id <$> walkers st.

(** The entries of one walker id agree on the dog. *)
Definition dog_consistent (st : Tracker) : Prop :=
  ∀ d d', d ∈ recent_detections st → d' ∈ recent_detections st →
    Recent.walker_id d = Recent.walker_id d' → Recent.has_dog d = Recent.has_dog d'.

Definition tracker_inv (st : Tracker) : Prop := ids_known st ∧ dog_consistent st.

(** The primary key of [walker_images]. *)
Definition image_ids_unique (st : Tracker) : Prop :=
  NoDup (WalkerImage.id <$> walker_images st).

(** The sessions the two session queries range over. *)
Definition open_sessions (walker_id : Z) (st : Tracker) : list WalkSession.t :=
  filter (is_active walker_id) (walk_sessions st).

(** At most one session of a walker has no end time. *)
Definition one_open (st : Tracker) : Prop :=
  ∀ w, (length (open_sessions w st) ≤ 1)%nat.

(** A well-formed tracker. *)
Definition well_formed (st : Tracker) : Prop :=
  tracker_inv st ∧ one_open st ∧ image_ids_unique st.

(** The session [_update_walk_session] writes over an open session. *)
Definition updated_session (camera path_name : string) (has_dog : bool)
    (active : WalkSession.t) : WalkSession.t :=
  WalkSession.mk (WalkSession.id active) (WalkSession.walker_id active)
    (WalkSession.start_time active) (WalkSession.end_time active)
    (csv_add (WalkSession.cameras_visited active) camera)
    (csv_add (WalkSession.paths_taken active) path_name)
    (WalkSession.has_dog active || has_dog).

(** ... and [_update_walk_session_by]. *)
Definition updated_session_by (order : list string → string → list string)
    (camera path_name : string) (has_dog : bool) (active : WalkSession.t)
    : WalkSession.t :=
  WalkSession.mk (WalkSession.id active) (WalkSession.walker_id active)
    (WalkSession.start_time active) (WalkSession.end_time active)
    (csv_add_by order (WalkSession.cameras_visited active) camera)
    (csv_add_by order (WalkSession.paths_taken active) path_name)
    (WalkSession.has_dog active || has_dog).

(** The calls that move a tracker: the four methods of [WalkerTracker] that
    write. *)
Inductive tracker_step (cfg : Config) (st : Tracker) : Tracker → Prop :=
| step_process_detection now camera zone path_name has_person has_dog pc dc r st' :
    process_detection cfg now camera zone path_name has_person has_dog pc dc st
      = Ok (r, st') →
    tracker_step cfg st st'
| step_close_session now walker_id :
    tracker_step cfg st (close_session now walker_id st)
| step_record_exit now walker_id camera zone path_name :
    tracker_step cfg st (record_exit now walker_id camera zone path_name st)
| step_save_walker_image now walker_id image_path image_type camera quality_score :
    tracker_step cfg st
      (save_walker_image cfg now walker_id image_path image_type camera
         quality_score st).

(** No detection row and no evidence entry carries a dog. *)
Definition no_dog (st : Tracker) : Prop :=
  Forall (λ d, Detection.has_dog d = false) (detections st) ∧
  Forall (λ d, Recent.has_dog d = false) (recent_detections st).

(** The events of the MQTT feed, handled one after the other. *)
Definition handle_all (cfg : Config)
    (events : list (Z * World * string * Payload)) (st : Tracker) : Tracker :=
  foldl (λ st '(now, world, topic, payload),
           _handle_frigate_event cfg now world topic payload st) st events.

(** The names a comma-separated column holds, as [_update_walk_session]
    reads it back. *)
Definition names_of (s : string) : list string :=
  if decide (s = "") then [] else split "," s.

(** A string without the character [c]. *)
Definition free_of (c : ascii) (s : string) : Prop :=
  c ∉ list_ascii_of_string s.

(** What Python grants of the order of a set: each element once. *)
Definition set_order_ok (order : list string → string → list string) : Prop :=
  ∀ names item, order names item ≡ₚ remove_dups (names ++ [item]).

(** Two session rows that differ at most in the order of the names of their
    two columns. *)
Definition same_visits (s s' : WalkSession.t) : Prop :=
  WalkSession.id s' = WalkSession.id s ∧
  WalkSession.walker_id s' = WalkSession.walker_id s ∧
  WalkSession.start_time s' = WalkSession.start_time s ∧
  WalkSession.end_time s' = WalkSession.end_time s ∧
  WalkSession.has_dog s' = WalkSession.has_dog s ∧
  names_of (WalkSession.cameras_visited s')
    ≡ₚ names_of (WalkSession.cameras_visited s) ∧
  names_of (WalkSession.paths_taken s') ≡ₚ names_of (WalkSession.paths_taken s).

(** The list [_update_walk_session] joins back into the column. *)
Definition with_name (item : string) (s : string) : list string :=
  let xs := remove_dups (names_of s) in
  if decide (item ∈ xs) then xs else xs ++ [item].

(** A session row as a later tracker may hold it: same id, walker and start,
    a dog flag that was not taken back, and no change at all once closed. *)
Definition session_kept (s s' : WalkSession.t) : Prop :=
  WalkSession.id s' = WalkSession.id s ∧
  WalkSession.walker_id s' = WalkSession.walker_id s ∧
  WalkSession.start_time s' = WalkSession.start_time s ∧
  (WalkSession.has_dog s = true → WalkSession.has_dog s' = true) ∧
  (WalkSession.end_time s ≠ None → s' = s).

Definition sessions_kept (l l' : list WalkSession.t) : Prop :=
  ∀ i s, l !! i = Some s → ∃ s', l' !! i = Some s' ∧ session_kept s s'.

(** A walker row as a later tracker may hold it: only last-seen moves. *)
Definition walker_kept (w w' : Walker.t) : Prop :=
  Walker.id w' = Walker.id w ∧
  Walker.first_seen w' = Walker.first_seen w ∧
  Walker.total_walks w' = Walker.total_walks w.

Definition walkers_kept (l l' : list Walker.t) : Prop :=
  ∀ i w, l !! i = Some w → ∃ w', l' !! i = Some w' ∧ walker_kept w w'.

(** The walker ids are 1, 2, ..., in the order of the rows, and every walk
    count is 1. *)
Definition walkers_numbered (st : Tracker) : Prop :=
  Walker.id <$> walkers st = seqZ 1 (Z.of_nat (length (walkers st))) ∧
  Forall (λ w, Walker.total_walks w = 1) (walkers st).

(** The sessions and the detections of one walker. *)
Definition sessions_of (w : Z) (st : Tracker) : list WalkSession.t :=
  filter (λ s, WalkSession.walker_id s = w) (walk_sessions st).

Definition detections_of (w : Z) (st : Tracker) : list Detection.t :=
  filter (λ d, Detection.walker_id d = w) (detections st).

(** Every walker has a session; a walker has no more sessions than
    detections; a walker has a detection with a dog exactly when it has a
    session with a dog. *)
Definition consistent_history (st : Tracker) : Prop :=
  (∀ x, x ∈ Walker.id <$> walkers st → sessions_of x st ≠ []) ∧
  (∀ w, (length (sessions_of w st) ≤ length (detections_of w st))%nat) ∧
  (∀ w, existsb Detection.has_dog (detections_of w st)
        = existsb WalkSession.has_dog (sessions_of w st)).

(** The tracker between the insertion of [save_walker_image] and its
    clean-up. *)
Definition with_image (now w : Z) (image_path image_type camera : string)
    (quality_score : Q) (st : Tracker) : Tracker :=
  set_walker_images
    (walker_images st ++
       [WalkerImage.mk (next_rowid (WalkerImage.id <$> walker_images st))
          w image_path image_type now camera quality_score]) st.

(** The images [_cleanup_old_images] evicts. *)
Definition evicted_by (w max_images : Z) (st : Tracker) : list WalkerImage.t :=
  let images := merge_sort ranks_before (images_of w st) in
  if decide (max_images < Z.of_nat (length images)) then
    slice_from max_images images
  else [].

(** The four tables and the evidence window are the same. *)
Definition same_database (st st' : Tracker) : Prop :=
  walkers st' = walkers st ∧ detections st' = detections st ∧
  walk_sessions st' = walk_sessions st ∧ walker_images st' = walker_images st ∧
  recent_detections st' = recent_detections st.

(** The history is consistent, at most one session per walker is open, and
    no session is closed. *)
Definition never_closed (st : Tracker) : Prop :=
  consistent_history st ∧ one_open st ∧
  Forall (λ s, WalkSession.end_time s = None) (walk_sessions st).

(** The sum of the counts of a frequency table. *)
Definition total_count (paths : list (string * Z)) : Z :=
  foldr (λ kv acc, kv.2 + acc) 0 paths.

Definition sumZ (l : list Z) : Z := foldr Z.add 0 l.

(** Every detection and every session refers to a stored walker. *)
Definition refs_known (st : Tracker) : Prop :=
  Forall (λ d, Detection.walker_id d ∈ Walker.id <$> walkers st) (detections st) ∧
  Forall (λ s, WalkSession.walker_id s ∈ Walker.id <$> walkers st)
    (walk_sessions st).

(** The totals of a list of per-walker statistics. *)
Definition sum_stats (f : WalkerStats.t → Z) (l : list (option WalkerStats.t)) : Z :=
  sumZ (from_option f 0 <$> l).

(** ** Concrete trackers *)

(** A configuration with two cameras and the given cross-camera window. *)
Definition two_cameras (window : Z) : Config :=
  {| cameras := {[ "front" := CameraConfig.mk "street" "north";
                   "back" := CameraConfig.mk "alley" "south" ]};
     cross_camera_window := window;
     min_person_confidence := 1 # 2;
     max_images_per_walker := 2;
     storage_path := "images" |}.

Definition tracker_of (r : result (option Z * Tracker)) : Tracker :=
  match r with
  | Ok (_, st) => st
  | Raise _ => empty_tracker
  end.

(** The tracker after a first detection, at the front camera at time 0. *)
Definition seen_at_front (window : Z) : Tracker :=
  tracker_of (process_detection (two_cameras window) 0 "front" "street" "north"
                true false (1 # 2) 0 empty_tracker).

(** ... and after a second one, at the back camera 5 s later. *)
Definition seen_front_then_back : Tracker :=
  tracker_of (process_detection (two_cameras 30) (seconds 5) "back" "alley" "south"
                true false (1 # 2) 0 (seen_at_front 30)).

(** A tracker whose two evidence entries are 50 s and 40 s old at 50 s. *)
Definition stale_window : Tracker :=
  set_recent_detections [Recent.mk 1 "front" 0 false; Recent.mk 1 "back" (seconds 10) false]
    (set_walkers [Walker.mk 1 0 (seconds 10) 1] empty_tracker).

(** Walker 7 holds two images, the limit of [two_cameras], and their files
    exist. *)
Definition two_images : Tracker :=
  set_files {[ "a.jpg"; "b.jpg"; "c.jpg" ]}
    (set_walker_images
       [WalkerImage.mk 1 7 "a.jpg" "person" 1 "front" (1 # 2);
        WalkerImage.mk 2 7 "b.jpg" "person" 2 "front" (3 # 4)]
       empty_tracker).


(** Another order of the sets: [kept_order] backwards. *)
Definition flip_order (names : list string) (item : string) : list string :=
  reverse (kept_order names item).

(** Seven readings of the clock, one microsecond apart. *)
Definition ticking (now : Z) : Clock.t :=
  Clock.mk now (now + 1) (now + 2) (now + 3) (now + 4) (now + 5) (now + 6).

(** The front session closed at 9 s, and a detection at the back at 12 s. *)
Definition closed_front : Tracker := close_session (seconds 9) 1 (seen_at_front 30).

Definition back_after_close : Tracker :=
  tracker_of (process_detection (two_cameras 30) (seconds 12) "back" "alley"
                "south" true false (1 # 2) 0 closed_front).

(** Two person counts at the front camera, 90 s apart. *)
Definition two_front_counts : list (Z * World * string * Payload) :=
  [(0, Build_World "20260101_120000" true, "frigate/front/person", PInt 1);
   (seconds 90, Build_World "20260101_120130" true, "frigate/front/person",
    PInt 1)].

(** A person seen by a camera of [two_cameras 30]. *)
Definition walk (now : Z) (camera zone path_name : string) (has_dog : bool)
    (st : Tracker) : Tracker :=
  tracker_of (process_detection (two_cameras 30) now camera zone path_name
                true has_dog (1 # 2) (1 # 2) st).

(** One walker seen at the front, at the back and at the front again, its
    session closed in between: three sessions in all. *)
Definition three_walks (has_dog : bool) : Tracker :=
  walk (seconds 25) "front" "street" "north" has_dog
    (close_session (seconds 20) 1
       (walk (seconds 12) "back" "alley" "south" has_dog
          (close_session (seconds 9) 1
             (walk 0 "front" "street" "north" has_dog empty_tracker)))).

(** * Properties *)

(** ** The scan of the evidence window *)

Section scan.
Context (cutoff_time now : Z) (camera : string) (has_dog : bool).

Local Abbreviation scan := (scan_recent cutoff_time now camera has_dog).
Local Abbreviation acc := (accepts cutoff_time now camera has_dog).

Lemma scan_recent_hit d ds : acc d → scan (d :: ds) = Some (Recent.walker_id d).
Proof.
  intros (Hc & Hd & Hk). cbn [scan_recent].
  destruct (decide (Recent.timestamp d < cutoff_time)); [lia|].
  destruct (decide (Recent.has_dog d = has_dog)); [|done].
  destruct (decide (Recent.camera d ≠ camera)); [done|].
  destruct (decide (seconds 60 < now - Recent.timestamp d)); [done|].
  by destruct Hk.
Qed.

Lemma scan_recent_skip d ds : ¬ acc d → scan (d :: ds) = scan ds.
Proof.
  intros Hn. cbn [scan_recent].
  destruct (decide (Recent.timestamp d < cutoff_time)); [done|].
  destruct (decide (Recent.has_dog d = has_dog)); [|done].
  destruct (decide (Recent.camera d ≠ camera)).
  { destruct Hn. repeat split; [lia|done|by left]. }
  destruct (decide (seconds 60 < now - Recent.timestamp d)); [|done].
  destruct Hn. repeat split; [lia|done|by right].
Qed.

Lemma accepts_dec d : acc d ∨ ¬ acc d.
Proof.
  unfold accepts.
  destruct (decide (cutoff_time ≤ Recent.timestamp d)); [|tauto].
  destruct (decide (Recent.has_dog d = has_dog)); [|tauto].
  destruct (decide (Recent.camera d ≠ camera)); [tauto|].
  destruct (decide (seconds 60 < now - Recent.timestamp d)); tauto.
Qed.

Lemma scan_recent_None ds : scan ds = None ↔ Forall (λ d, ¬ acc d) ds.
Proof.
  induction ds as [|d ds IH].
  - split; [constructor|done].
  - destruct (accepts_dec d) as [Ha|Hn].
    + rewrite scan_recent_hit by done. split; [done|].
      intros H. by apply Forall_cons in H as [? _].
    + rewrite scan_recent_skip by done. rewrite IH, Forall_cons. tauto.
Qed.

Lemma scan_recent_Some ds w :
  scan ds = Some w →
  ∃ older d newer, ds = newer ++ d :: older ∧ Forall (λ d, ¬ acc d) newer ∧
                   acc d ∧ Recent.walker_id d = w.
Proof.
  induction ds as [|d ds IH]; [done|].
  destruct (accepts_dec d) as [Ha|Hn].
  - rewrite scan_recent_hit by done. intros [= <-].
    exists ds, d, []. split; [done|]. split; [constructor|]. by split.
  - rewrite scan_recent_skip by done. intros H.
    destruct (IH H) as (older & d' & newer & -> & Hf & Ha & Hw).
    exists older, d', (d :: newer). split; [done|].
    split; [by constructor|]. by split.
Qed.

Lemma scan_recent_app newer ds :
  Forall (λ d, ¬ acc d) newer → scan (newer ++ ds) = scan ds.
Proof.
  induction 1 as [|d newer Hn _ IH]; [done|].
  simpl app. by rewrite scan_recent_skip.
Qed.

(** Entries whose dog flag differs from the detection's are passed over:
    the scan gives the same answer with or without them. *)
Lemma scan_recent_same_dog ds :
  scan ds = scan (filter (λ d, Recent.has_dog d = has_dog) ds).
Proof.
  induction ds as [|d ds IH]; [done|].
  rewrite filter_cons. destruct (decide (Recent.has_dog d = has_dog)) as [Hd|Hd].
  - destruct (accepts_dec d) as [Ha|Hn].
    + by rewrite !scan_recent_hit.
    + by rewrite !scan_recent_skip.
  - rewrite scan_recent_skip; [done|]. by intros (_ & ? & _).
Qed.

(** A sub-window of a window without a match has no match. *)
Lemma scan_recent_None_filter (P : Recent.t → Prop) `{∀ d, Decision (P d)} ds :
  scan ds = None → scan (filter P ds) = None.
Proof.
  rewrite !scan_recent_None, !Forall_forall.
  intros Hall d Hd. apply Hall. by apply list_elem_of_filter in Hd as [_ ?].
Qed.
End scan.

(** ** [process_detection], step by step *)

Lemma process_detection_eq cfg now camera zone path_name has_dog pc dc st :
  process_detection cfg now camera zone path_name true has_dog pc dc st =
  match _match_to_walker cfg now camera zone has_dog st with
  | None =>
      let w := next_rowid (Walker.id <$> walkers st) in
      Ok (Some w,
          finish_detection cfg now camera zone path_name has_dog pc dc w
            (set_walkers (walkers st ++ [Walker.mk w now now 1]) st))
  | Some w =>
      match list_find (λ r, Walker.id r = w) (walkers st) with
      | Some (i, walker) =>
          Ok (Some w,
              finish_detection cfg now camera zone path_name has_dog pc dc w
                (set_walkers
                   (<[i := Walker.set_last_seen now walker]> (walkers st)) st))
      | None => Raise AttributeError
      end
  end.
Proof.
  unfold process_detection, finish_detection. cbn [negb].
  destruct (_match_to_walker _ _ _ _ _ _) as [w|]; [|done].
  by destruct (list_find _ _) as [[i walker]|].
Qed.

Section update_frame.
Context (now w : Z) (camera path_name : string) (has_dog : bool) (st : Tracker).

Local Abbreviation upd := (_update_walk_session now w camera path_name has_dog st).

Lemma update_walk_session_walkers : walkers upd = walkers st.
Proof. unfold _update_walk_session. by destruct (list_find _ _) as [[i s]|]. Qed.
Lemma update_walk_session_detections : detections upd = detections st.
Proof. unfold _update_walk_session. by destruct (list_find _ _) as [[i s]|]. Qed.
Lemma update_walk_session_images : walker_images upd = walker_images st.
Proof. unfold _update_walk_session. by destruct (list_find _ _) as [[i s]|]. Qed.
Lemma update_walk_session_recent : recent_detections upd = recent_detections st.
Proof. unfold _update_walk_session. by destruct (list_find _ _) as [[i s]|]. Qed.
Lemma update_walk_session_files : files upd = files st.
Proof. unfold _update_walk_session. by destruct (list_find _ _) as [[i s]|]. Qed.
End update_frame.

Section finish.
Context (cfg : Config) (now : Z) (camera zone path_name : string)
        (has_dog : bool) (pc dc : Q) (w : Z) (st : Tracker).

Local Abbreviation fin :=
  (finish_detection cfg now camera zone path_name has_dog pc dc w st).

Lemma finish_detection_walkers : walkers fin = walkers st.
Proof. unfold finish_detection. by rewrite update_walk_session_walkers. Qed.

Lemma finish_detection_recent :
  recent_detections fin =
  filter (λ d, now - seconds (cross_camera_window cfg) ≤ Recent.timestamp d)
         (recent_detections st ++ [Recent.mk w camera now has_dog]).
Proof. unfold finish_detection. by rewrite update_walk_session_recent. Qed.

Lemma finish_detection_detections :
  detections fin =
  detections st ++
    [Detection.mk (next_rowid (Detection.id <$> detections st))
       w camera zone path_name now "enter" has_dog (Some pc)
       (if has_dog then Some dc else None)].
Proof. unfold finish_detection. by rewrite update_walk_session_detections. Qed.

Lemma finish_detection_walk_sessions :
  walk_sessions fin =
  walk_sessions (_update_walk_session now w camera path_name has_dog st).
Proof.
  unfold finish_detection, _update_walk_session. cbn.
  by destruct (list_find _ _) as [[i s]|].
Qed.

Lemma finish_detection_images : walker_images fin = walker_images st.
Proof. unfold finish_detection. by rewrite update_walk_session_images. Qed.

Lemma finish_detection_files : files fin = files st.
Proof. unfold finish_detection. by rewrite update_walk_session_files. Qed.
End finish.

(** The evidence entry of a detection survives its own pruning when the
    window is not negative. *)
Lemma finish_detection_recent_last cfg now camera zone path_name has_dog pc dc w st :
  0 ≤ cross_camera_window cfg →
  recent_detections
    (finish_detection cfg now camera zone path_name has_dog pc dc w st) =
  filter (λ d, now - seconds (cross_camera_window cfg) ≤ Recent.timestamp d)
         (recent_detections st) ++ [Recent.mk w camera now has_dog].
Proof.
  intros Hw. rewrite finish_detection_recent, filter_app. f_equal.
  rewrite filter_cons, decide_True; [done|].
  cbn. unfold seconds, usec_per_second. lia.
Qed.

(** ** Row ids *)

Lemma next_rowid_bound ids x : x ∈ ids → x < next_rowid ids.
Proof.
  unfold next_rowid. induction ids as [|y ids IH]; [by intros ?%elem_of_nil|].
  intros [->|Hx]%elem_of_cons; cbn [foldr]; [lia|].
  specialize (IH Hx). lia.
Qed.

Lemma next_rowid_fresh ids : next_rowid ids ∉ ids.
Proof. intros H%next_rowid_bound. lia. Qed.

Lemma walker_ids_touch (ws : list Walker.t) i walker now :
  ws !! i = Some walker →
  Walker.id <$> <[i := Walker.set_last_seen now walker]> ws = Walker.id <$> ws.
Proof.
  intros Hi. rewrite list_fmap_insert. apply list_insert_id.
  by rewrite list_lookup_fmap, Hi.
Qed.

(** ** The two outcomes of a processed detection *)

Lemma resolved_id_known cfg now camera zone has_dog st w ws :
  resolved cfg now camera zone has_dog st w ws → w ∈ Walker.id <$> ws.
Proof.
  intros [_ _ ->|i walker _ Hi Hw _ ->].
  - rewrite fmap_app. apply elem_of_app. right. cbn. apply list_elem_of_singleton.
    done.
  - rewrite walker_ids_touch by done.
    apply list_elem_of_fmap. exists walker. split; [done|].
    by eapply list_elem_of_lookup_2.
Qed.

Lemma resolved_ids_mono cfg now camera zone has_dog st w ws x :
  resolved cfg now camera zone has_dog st w ws →
  x ∈ Walker.id <$> walkers st → x ∈ Walker.id <$> ws.
Proof.
  intros [_ _ ->|i walker _ Hi Hw _ ->] Hx.
  - rewrite fmap_app. apply elem_of_app. by left.
  - by rewrite walker_ids_touch.
Qed.

Lemma process_detection_Ok_inv cfg now camera zone path_name has_dog pc dc st r st' :
  process_detection cfg now camera zone path_name true has_dog pc dc st
    = Ok (r, st') →
  ∃ w ws, r = Some w ∧ resolved cfg now camera zone has_dog st w ws ∧
    st' = finish_detection cfg now camera zone path_name has_dog pc dc w
            (set_walkers ws st).
Proof.
  rewrite process_detection_eq.
  destruct (_match_to_walker _ _ _ _ _ _) as [w|] eqn:Hm.
  - destruct (list_find _ _) as [[i walker]|] eqn:Hf; [|done].
    intros [= <- <-]. apply list_find_Some in Hf as (Hi & Hw & Hfirst).
    eexists w, _. split; [done|]. split; [|done].
    by eapply resolved_match.
  - cbn zeta. intros [= <- <-]. eexists _, _. split; [done|]. split; [|done].
    by apply resolved_new.
Qed.

(** ** Invariants of the evidence window *)

Lemma empty_tracker_inv : tracker_inv empty_tracker.
Proof. split; [intros d|intros d d']; by intros ?%elem_of_nil. Qed.

Lemma match_to_walker_Some cfg now camera zone has_dog st w :
  _match_to_walker cfg now camera zone has_dog st = Some w →
  ∃ d, d ∈ recent_detections st ∧ Recent.walker_id d = w ∧
       accepts (now - seconds (cross_camera_window cfg)) now camera has_dog d.
Proof.
  unfold _match_to_walker. cbn zeta.
  intros (older & d & newer & Hr & _ & Ha & Hw)%scan_recent_Some.
  exists d. split; [|done].
  apply elem_of_reverse. rewrite Hr. apply elem_of_app. right. by left.
Qed.

(** With the ids of the window known, a detection of a person is always
    resolved: the row of a matched walker exists. *)
Lemma process_detection_total cfg now camera zone path_name has_dog pc dc st :
  ids_known st →
  ∃ w st', process_detection cfg now camera zone path_name true has_dog pc dc st
           = Ok (Some w, st').
Proof.
  intros Hk. rewrite process_detection_eq.
  destruct (_match_to_walker _ _ _ _ _ _) as [w|] eqn:Hm; [|by eexists _, _].
  apply match_to_walker_Some in Hm as (d & Hd & Hw & _).
  apply Hk in Hd. rewrite Hw in Hd.
  apply list_elem_of_fmap in Hd as (row & Hrow & Hin).
  destruct (list_find_elem_of (λ r, Walker.id r = w) (walkers st) row)
    as [[i walker] ->]; [done..|].
  by eexists _, _.
Qed.

Lemma process_detection_inv cfg now camera zone path_name has_dog pc dc st r st' :
  tracker_inv st →
  process_detection cfg now camera zone path_name true has_dog pc dc st
    = Ok (r, st') →
  tracker_inv st'.
Proof.
  intros [Hk Hc] (w & ws & -> & Hres & ->)%process_detection_Ok_inv.
  assert (∀ d, d ∈ recent_detections
                 (finish_detection cfg now camera zone path_name has_dog pc dc w
                    (set_walkers ws st)) →
               d ∈ recent_detections st ∨ d = Recent.mk w camera now has_dog)
    as Hin.
  { intros d. rewrite finish_detection_recent.
    intros [_ Hd]%list_elem_of_filter. cbn in Hd.
    apply elem_of_app in Hd as [?|Hd]; [by left|right].
    by apply list_elem_of_singleton in Hd. }
  assert (∀ d, d ∈ recent_detections st → Recent.walker_id d = w →
               Recent.has_dog d = has_dog) as Hdog.
  { intros d Hd Hw. destruct Hres as [_ -> _|i walker Hm _ _ _ _].
    - apply Hk in Hd. rewrite Hw in Hd. by apply next_rowid_fresh in Hd.
    - apply match_to_walker_Some in Hm as (d' & Hd' & Hw' & _ & Hg & _).
      rewrite <- Hg. apply Hc; [done..|]. by rewrite Hw, Hw'. }
  split.
  - intros d [Hd| ->]%Hin; rewrite finish_detection_walkers; cbn.
    + eapply resolved_ids_mono; [done|]. by apply Hk.
    + by eapply resolved_id_known.
  - intros d d' [Hd| ->]%Hin [Hd'| ->]%Hin; cbn.
    + by apply Hc.
    + intros Hw. by apply Hdog.
    + intros Hw. symmetry. by apply Hdog.
    + done.
Qed.

(** ** Two detections in a row *)

(** After a processed detection the newest entry of the window is its own
    (the window not being negative), and its walker has a row. *)
Lemma process_detection_newest cfg now camera zone path_name has_dog pc dc st w st' :
  process_detection cfg now camera zone path_name true has_dog pc dc st
    = Ok (Some w, st') →
  w ∈ Walker.id <$> walkers st' ∧
  (0 ≤ cross_camera_window cfg →
   reverse (recent_detections st') =
   Recent.mk w camera now has_dog ::
   reverse (filter (λ d, now - seconds (cross_camera_window cfg) ≤ Recent.timestamp d)
              (recent_detections st))).
Proof.
  intros (w' & ws & [= <-] & Hres & ->)%process_detection_Ok_inv. split.
  - rewrite finish_detection_walkers. by eapply resolved_id_known.
  - intros Hw. rewrite finish_detection_recent_last by done.
    by rewrite reverse_snoc.
Qed.

Lemma seconds_nonneg n : 0 ≤ seconds n → 0 ≤ n.
Proof. unfold seconds, usec_per_second. lia. Qed.








(** A detection for which no entry of the window is accepted is given the
    next walker id, and the row of the new walker is written. *)
Lemma process_detection_miss cfg now camera zone path_name has_dog pc dc st :
  Forall (λ d, ¬ accepts (now - seconds (cross_camera_window cfg)) now camera
                   has_dog d) (recent_detections st) →
  let w := next_rowid (Walker.id <$> walkers st) in
  _match_to_walker cfg now camera zone has_dog st = None ∧
  ∃ st', process_detection cfg now camera zone path_name true has_dog pc dc st
         = Ok (Some w, st') ∧
         (w ∉ Walker.id <$> walkers st) ∧
         walkers st' = walkers st ++ [Walker.mk w now now 1].
Proof.
  intros Hall w.
  assert (_match_to_walker cfg now camera zone has_dog st = None) as Hm.
  { unfold _match_to_walker. cbn zeta. apply scan_recent_None.
    by apply Forall_reverse. }
  split; [done|]. rewrite process_detection_eq, Hm. cbn zeta.
  eexists. split; [done|]. split; [apply next_rowid_fresh|].
  by rewrite finish_detection_walkers.
Qed.




(** C7 (dog-status override).  From a tracker whose window is consistent, a
    detection is processed and the next detection arrives inside the
    window with the opposite dog flag, on the same or on another camera: it
    resolves to a different walker id.  The matcher passes over every entry
    whose dog flag differs: it answers as it does on the window without
    those entries. *)
Theorem dog_status_override cfg t1 t2 camera1 camera2 zone1 zone2 path1 path2
    has_dog pc1 dc1 pc2 dc2 st w1 st1 :
  tracker_inv st →
  process_detection cfg t1 camera1 zone1 path1 true has_dog pc1 dc1 st
    = Ok (Some w1, st1) →
  t1 ≤ t2 →
  t2 - seconds (cross_camera_window cfg) ≤ t1 →
  (∃ w2 st2,
     process_detection cfg t2 camera2 zone2 path2 true (negb has_dog) pc2 dc2 st1
       = Ok (Some w2, st2) ∧ w2 ≠ w1) ∧
  (∀ now camera zone flag st0,
     _match_to_walker cfg now camera zone flag st0 =
     _match_to_walker cfg now camera zone flag
       (set_recent_detections
          (filter (λ d, Recent.has_dog d = flag) (recent_detections st0)) st0)).
Proof.
  intros Hinv H1 Hord Hwin. split.
  - assert (0 ≤ cross_camera_window cfg) as Hw by (apply seconds_nonneg; lia).
    pose proof (process_detection_inv _ _ _ _ _ _ _ _ _ _ _ Hinv H1) as [Hk1 Hc1].
    apply process_detection_newest in H1 as [Hid Hr]. specialize (Hr Hw).
    assert (Recent.mk w1 camera1 t1 has_dog ∈ recent_detections st1) as He1.
    { apply elem_of_reverse. rewrite Hr. by left. }
    destruct (process_detection_total cfg t2 camera2 zone2 path2 (negb has_dog)
                pc2 dc2 st1 Hk1) as (w2 & st2 & H2).
    exists w2, st2. split; [done|].
    apply process_detection_Ok_inv in H2 as (w & ws & [= <-] & Hres & _).
    destruct Hres as [_ -> _|i walker Hm _ _ _ _].
    + intros <-. by apply next_rowid_fresh in Hid.
    + apply match_to_walker_Some in Hm as (d & Hd & Hwd & _ & Hg & _).
      intros Heq. rewrite Heq in Hwd.
      specialize (Hc1 _ _ Hd He1 Hwd). cbn in Hc1.
      rewrite Hg in Hc1. by destruct has_dog.
  - intros now camera zone flag st0. unfold _match_to_walker.
    cbn [recent_detections set_recent_detections cross_camera_window].
    rewrite <- filter_reverse. apply scan_recent_same_dog.
Qed.

Lemma dog_status_override_witness :
  (∃ w2 st2,
     process_detection (two_cameras 30) (seconds 2) "front" "street" "north"
       true true (1 # 2) (3 # 4) (seen_at_front 30) = Ok (Some w2, st2) ∧ w2 ≠ 1) ∧
  (∀ now camera zone flag st0,
     _match_to_walker (two_cameras 30) now camera zone flag st0 =
     _match_to_walker (two_cameras 30) now camera zone flag
       (set_recent_detections
          (filter (λ d, Recent.has_dog d = flag) (recent_detections st0)) st0)).
Proof.
  apply (dog_status_override (two_cameras 30) 0 (seconds 2) "front" "front"
           "street" "street" "north" "north" false (1 # 2) 0 (1 # 2) (3 # 4)
           empty_tracker 1 (seen_at_front 30)).
  - apply empty_tracker_inv.
  - vm_compute. reflexivity.
  - vm_compute. discriminate.
  - vm_compute. discriminate.
Defined.

(** ** Expiry of the window *)

Lemma filter_none {A} (P : A → Prop) `{∀ x, Decision (P x)} (l : list A) :
  Forall (λ x, ¬ P x) l → filter P l = [].
Proof.
  induction 1 as [|x l Hx _ IH]; [done|].
  by rewrite filter_cons, decide_False.
Qed.

(** C8 (window expiry and pruning).  When every entry of the window is older
    than [now] minus the cross-camera window, a detection is given a fresh
    walker id, whose row is written, and none of the old entries is left.
    Whatever the window holds, a processed detection leaves exactly the
    entries, its own included, that are not older than [now] minus the
    window. *)
Theorem window_expiry cfg now camera zone path_name has_dog pc dc st :
  Forall (λ d, Recent.timestamp d < now - seconds (cross_camera_window cfg))
         (recent_detections st) →
  let cutoff_time := now - seconds (cross_camera_window cfg) in
  let w := next_rowid (Walker.id <$> walkers st) in
  (∃ st',
     process_detection cfg now camera zone path_name true has_dog pc dc st
       = Ok (Some w, st') ∧
     (w ∉ Walker.id <$> walkers st) ∧
     walkers st' = walkers st ++ [Walker.mk w now now 1] ∧
     recent_detections st' =
       filter (λ d, cutoff_time ≤ Recent.timestamp d)
              [Recent.mk w camera now has_dog]) ∧
  (∀ st0 r st1,
     process_detection cfg now camera zone path_name true has_dog pc dc st0
       = Ok (r, st1) →
     ∃ w0, r = Some w0 ∧
       recent_detections st1 =
         filter (λ d, cutoff_time ≤ Recent.timestamp d)
                (recent_detections st0 ++ [Recent.mk w0 camera now has_dog]) ∧
       Forall (λ d, cutoff_time ≤ Recent.timestamp d) (recent_detections st1)).
Proof.
  intros Hstale cutoff_time w. split.
  - destruct (process_detection_miss cfg now camera zone path_name has_dog pc dc st)
      as (_ & st' & H1 & Hfresh & Hws).
    { eapply Forall_impl; [exact Hstale|]. intros d Hd (Hc & _). cbn in Hd. lia. }
    exists st'. split; [done|]. split; [done|]. split; [done|].
    apply process_detection_Ok_inv in H1 as (w' & ws & [= <-] & _ & ->).
    rewrite finish_detection_recent. cbn [recent_detections set_walkers].
    rewrite filter_app, filter_none; [done|].
    eapply Forall_impl; [exact Hstale|]. intros d Hd. cbn in Hd. lia.
  - intros st0 r st1 (w0 & ws & -> & _ & ->)%process_detection_Ok_inv.
    exists w0. split; [done|].
    rewrite finish_detection_recent. cbn [recent_detections set_walkers].
    split; [done|]. apply Forall_forall.
    by intros d [? _]%list_elem_of_filter.
Qed.

Lemma window_expiry_witness :
  (∃ st',
     process_detection (two_cameras 30) (seconds 50) "front" "street" "north"
       true false (1 # 2) 0 stale_window = Ok (Some 2, st') ∧
     (2 ∉ Walker.id <$> walkers stale_window) ∧
     walkers st' = walkers stale_window ++ [Walker.mk 2 (seconds 50) (seconds 50) 1] ∧
     recent_detections st' =
       filter (λ d, seconds 50 - seconds 30 ≤ Recent.timestamp d)
              [Recent.mk 2 "front" (seconds 50) false]) ∧
  (∀ st0 r st1,
     process_detection (two_cameras 30) (seconds 50) "front" "street" "north"
       true false (1 # 2) 0 st0 = Ok (r, st1) →
     ∃ w0, r = Some w0 ∧
       recent_detections st1 =
         filter (λ d, seconds 50 - seconds 30 ≤ Recent.timestamp d)
                (recent_detections st0 ++ [Recent.mk w0 "front" (seconds 50) false]) ∧
       Forall (λ d, seconds 50 - seconds 30 ≤ Recent.timestamp d)
              (recent_detections st1)).
Proof.
  apply (window_expiry (two_cameras 30) (seconds 50) "front" "street" "north"
           false (1 # 2) 0 stale_window).
  repeat constructor.
Defined.

(** ** The walker row *)

Lemma csv_add_by_kept s item : csv_add_by kept_order s item = csv_add s item.
Proof. reflexivity. Qed.

Lemma update_walk_session_by_kept now w camera path_name has_dog st :
  _update_walk_session_by kept_order now w camera path_name has_dog st
  = _update_walk_session now w camera path_name has_dog st.
Proof. reflexivity. Qed.

(** [process_detection] is [process_detection_at] when the readings of the
    clock coincide and the sets are read in [kept_order]. *)
Lemma process_detection_at_constant cfg now camera zone path_name has_person
    has_dog pc dc st :
  process_detection_at cfg kept_order (Clock.constant now) camera zone path_name
    has_person has_dog pc dc st
  = process_detection cfg now camera zone path_name has_person has_dog pc dc st.
Proof. reflexivity. Qed.

Lemma update_walk_session_by_walkers order now w camera path_name has_dog st :
  walkers (_update_walk_session_by order now w camera path_name has_dog st)
  = walkers st.
Proof. unfold _update_walk_session_by. by destruct (list_find _ _) as [[i s]|]. Qed.

(** C5 (the walker row, as the code has it).  A detection of a person, in a
    tracker whose window only names walkers that have a row, is resolved,
    whatever the readings of the clock and the order of the sets.  When no
    entry matches, a row is added with a fresh id and a walk count of 1; its
    first-seen and its last-seen are two readings of the clock, one after
    the other.  When an entry matches, the row of that walker receives a
    reading of the clock as last-seen and keeps its first-seen and its walk
    count; no other row changes. *)
Theorem walker_row_on_resolve cfg order clock camera zone path_name has_dog pc dc
    st :
  ids_known st →
  ∃ w st',
    process_detection_at cfg order clock camera zone path_name true has_dog pc dc
      st = Ok (Some w, st') ∧
    ((_match_to_walker cfg (Clock.matching clock) camera zone has_dog st = None ∧
      (w ∉ Walker.id <$> walkers st) ∧
      walkers st' =
        walkers st
          ++ [Walker.mk w (Clock.first_seen clock) (Clock.last_seen clock) 1])
     ∨
     (_match_to_walker cfg (Clock.matching clock) camera zone has_dog st = Some w ∧
      ∃ i walker,
        walkers st !! i = Some walker ∧ Walker.id walker = w ∧
        walkers st' =
          <[i := Walker.mk w (Walker.first_seen walker) (Clock.last_seen clock)
                   (Walker.total_walks walker)]> (walkers st))).
Proof.
  intros Hk. unfold process_detection_at. cbn [negb].
  destruct (_match_to_walker _ _ _ _ _ _) as [w|] eqn:Hm.
  - pose proof Hm as (d & Hd & Hw & _)%match_to_walker_Some.
    apply Hk in Hd. rewrite Hw in Hd.
    apply list_elem_of_fmap in Hd as (row & Hrow & Hin).
    destruct (list_find_elem_of (λ r, Walker.id r = w) (walkers st) row)
      as [[i walker] Hf]; [done..|].
    rewrite Hf. eexists w, _. split; [reflexivity|]. right. split; [done|].
    apply list_find_Some in Hf as (Hi & Hid & _).
    exists i, walker. split; [done|]. split; [done|].
    rewrite update_walk_session_by_walkers. cbn.
    unfold Walker.set_last_seen. by rewrite Hid.
  - eexists _, _. split; [reflexivity|]. left. split; [done|].
    split; [apply next_rowid_fresh|].
    by rewrite update_walk_session_by_walkers.
Qed.

Lemma walker_row_on_resolve_witness :
  ∃ w st',
    process_detection_at (two_cameras 30) flip_order (ticking (seconds 5))
      "front" "street" "north" true false (1 # 2) 0 (seen_at_front 30)
      = Ok (Some w, st') ∧
    ((_match_to_walker (two_cameras 30) (Clock.matching (ticking (seconds 5)))
        "front" "street" false (seen_at_front 30) = None ∧
      (w ∉ Walker.id <$> walkers (seen_at_front 30)) ∧
      walkers st' =
        walkers (seen_at_front 30)
          ++ [Walker.mk w (Clock.first_seen (ticking (seconds 5)))
                (Clock.last_seen (ticking (seconds 5))) 1])
     ∨
     (_match_to_walker (two_cameras 30) (Clock.matching (ticking (seconds 5)))
        "front" "street" false (seen_at_front 30) = Some w ∧
      ∃ i walker,
        walkers (seen_at_front 30) !! i = Some walker ∧ Walker.id walker = w ∧
        walkers st' =
          <[i := Walker.mk w (Walker.first_seen walker)
                   (Clock.last_seen (ticking (seconds 5)))
                   (Walker.total_walks walker)]> (walkers (seen_at_front 30)))).
Proof.
  apply (walker_row_on_resolve (two_cameras 30) flip_order (ticking (seconds 5))
           "front" "street" "north" false (1 # 2) 0 (seen_at_front 30)).
  intros d Hd. vm_compute in Hd.
  apply list_elem_of_singleton in Hd as ->. vm_compute. by left.
Defined.

(** C5 as stated fails on the walk count: the second detection matches
    walker 1; its row has the new last-seen and the walk count it had. *)
Lemma walk_count_not_touched_on_match :
  walkers (seen_at_front 30) = [Walker.mk 1 0 0 1] ∧
  process_detection (two_cameras 30) (seconds 5) "back" "alley" "south"
    true false (1 # 2) 0 (seen_at_front 30) = Ok (Some 1, seen_front_then_back) ∧
  walkers seen_front_then_back = [Walker.mk 1 0 (seconds 5) 1].
Proof. by vm_compute. Qed.

(** ** Walk sessions *)

Section first_match.
Context {A : Type} (P : A → Prop) `{!∀ x, Decision (P x)}.

Lemma list_find_split (l : list A) i x :
  list_find P l = Some (i, x) →
  ∃ l1 l2, l = l1 ++ x :: l2 ∧ length l1 = i ∧ Forall (λ y, ¬ P y) l1 ∧ P x.
Proof.
  intros (Hi & HP & Hfirst)%list_find_Some.
  exists (take i l), (drop (S i) l). split; [by rewrite take_drop_middle|].
  pose proof (lookup_lt_Some _ _ _ Hi) as Hlt.
  split; [rewrite length_take; lia|]. split; [|done].
  apply Forall_lookup. intros j y Hj.
  destruct (decide (j < i)%nat) as [Hji|Hji].
  - rewrite lookup_take_lt in Hj by done. by eapply Hfirst.
  - rewrite lookup_take_ge in Hj by lia. done.
Qed.

Lemma list_find_None_filter (l : list A) :
  list_find P l = None ↔ filter P l = [].
Proof.
  rewrite list_find_None. split.
  - apply filter_none; apply _.
  - intros Hf. apply Forall_forall. intros x Hx HP.
    by eapply filter_nil_not_elem_of.
Qed.

Lemma filter_first_match (l1 l2 : list A) x :
  Forall (λ y, ¬ P y) l1 → P x →
  filter P (l1 ++ x :: l2) = x :: filter P l2.
Proof.
  intros Hl1 Hx. rewrite filter_app, filter_none by done.
  by rewrite filter_cons, decide_True.
Qed.

Lemma filter_first_match_replaced (l1 l2 : list A) y :
  Forall (λ y, ¬ P y) l1 →
  filter P (l1 ++ y :: l2) = filter P [y] ++ filter P l2.
Proof.
  intros Hl1. rewrite filter_app, filter_none by done.
  by rewrite (filter_app P [y] l2).
Qed.

Lemma insert_first_match (l1 l2 : list A) x y :
  <[length l1 := y]> (l1 ++ x :: l2) = l1 ++ y :: l2.
Proof. by rewrite <- (Nat.add_0_r (length l1)), insert_app_r. Qed.
End first_match.

Lemma filter_replace_length {A} (Q : A → Prop) `{!∀ x, Decision (Q x)}
    (l1 l2 : list A) x y :
  (Q y → Q x) →
  (length (filter Q (l1 ++ y :: l2)) ≤ length (filter Q (l1 ++ x :: l2)))%nat.
Proof.
  intros Hyx. rewrite !filter_app, !filter_cons, !length_app.
  destruct (decide (Q y)), (decide (Q x)); cbn [length]; first [lia|tauto].
Qed.

(** The two cases of [_update_walk_session]. *)
Lemma update_walk_session_cases now w camera path_name has_dog st :
  let upd := _update_walk_session now w camera path_name has_dog st in
  (open_sessions w st = [] ∧
   walk_sessions upd =
     walk_sessions st ++
       [WalkSession.mk (next_rowid (WalkSession.id <$> walk_sessions st))
          w now None camera path_name has_dog])
  ∨
  (∃ l1 active l2,
     walk_sessions st = l1 ++ active :: l2 ∧
     Forall (λ s, ¬ is_active w s) l1 ∧ is_active w active ∧
     walk_sessions upd =
       <[length l1 := updated_session camera path_name has_dog active]>
         (walk_sessions st) ∧
     walk_sessions upd =
       l1 ++ updated_session camera path_name has_dog active :: l2).
Proof.
  unfold _update_walk_session, open_sessions.
  destruct (list_find _ _) as [[i active]|] eqn:Hf; cbn zeta.
  - right. apply list_find_split in Hf as (l1 & l2 & Hl & <- & Hl1 & Ha).
    exists l1, active, l2. split; [done|]. split; [done|]. split; [done|].
    cbn [walk_sessions set_walk_sessions]. split; [done|].
    rewrite Hl. apply insert_first_match.
  - left. split; [|done]. by apply list_find_None_filter.
Qed.

Lemma close_session_cases now w st :
  (open_sessions w st = [] ∧ close_session now w st = st)
  ∨
  (∃ l1 session l2,
     walk_sessions st = l1 ++ session :: l2 ∧
     Forall (λ s, ¬ is_active w s) l1 ∧ is_active w session ∧
     close_session now w st =
       set_walk_sessions
         (l1 ++ WalkSession.set_end_time (Some now) session :: l2) st).
Proof.
  unfold close_session, open_sessions.
  destruct (list_find _ _) as [[i session]|] eqn:Hf.
  - right. apply list_find_split in Hf as (l1 & l2 & Hl & <- & Hl1 & Ha).
    exists l1, session, l2. split; [done|]. split; [done|]. split; [done|].
    f_equal. rewrite Hl. apply insert_first_match.
  - left. split; [|done]. by apply list_find_None_filter.
Qed.

Lemma update_walk_session_one_open now w camera path_name has_dog st :
  one_open st → one_open (_update_walk_session now w camera path_name has_dog st).
Proof.
  intros Hone w'. unfold open_sessions.
  destruct (update_walk_session_cases now w camera path_name has_dog st)
    as [[Hnone ->]|(l1 & active & l2 & Hl & _ & _ & _ & ->)].
  - rewrite filter_app, length_app, filter_cons, filter_nil.
    destruct (decide (is_active w' _)) as [[Hw' _]|_]; cbn [length].
    + cbn in Hw'. subst w'. unfold open_sessions in Hnone. rewrite Hnone. cbn. lia.
    + specialize (Hone w'). unfold open_sessions in Hone. lia.
  - etransitivity; [apply (filter_replace_length _ _ _ active)|].
    + by intros [? ?].
    + rewrite <- Hl. apply Hone.
Qed.

Lemma close_session_one_open now w st :
  one_open st → one_open (close_session now w st).
Proof.
  intros Hone w'. unfold open_sessions.
  destruct (close_session_cases now w st)
    as [[_ ->]|(l1 & session & l2 & Hl & _ & _ & ->)]; [apply Hone|].
  cbn [walk_sessions set_walk_sessions].
  etransitivity; [apply (filter_replace_length _ _ _ session)|].
  - by intros [_ ?].
  - rewrite <- Hl. apply Hone.
Qed.

Lemma evict_walk_sessions imgs st :
  walk_sessions (foldl evict st imgs) = walk_sessions st.
Proof.
  revert st. induction imgs as [|img imgs IH]; intros st; [done|].
  cbn [foldl]. rewrite IH. unfold evict. by case_decide.
Qed.

Lemma save_walker_image_walk_sessions cfg now w path type camera q st :
  walk_sessions (save_walker_image cfg now w path type camera q st)
  = walk_sessions st.
Proof.
  unfold save_walker_image, _cleanup_old_images. cbn zeta.
  case_decide; [|done]. by rewrite evict_walk_sessions.
Qed.

Lemma tracker_step_one_open cfg st st' :
  tracker_step cfg st st' → one_open st → one_open st'.
Proof.
  intros [now camera zone path_name [] has_dog pc dc r st1 H1| | |] Hone.
  - apply process_detection_Ok_inv in H1 as (w & ws & _ & _ & ->).
    intros w'. unfold open_sessions. rewrite finish_detection_walk_sessions.
    by apply (update_walk_session_one_open _ _ _ _ _ (set_walkers ws st)).
  - cbn in H1. by injection H1 as _ <-.
  - by apply close_session_one_open.
  - done.
  - intros w'. unfold open_sessions. rewrite save_walker_image_walk_sessions.
    apply Hone.
Qed.

(** C2 (session invariant).  From a tracker with at most one open session
    per walker, every tracker reached by calls of [process_detection],
    [close_session] (and [record_exit], [save_walker_image]) has at most one
    open session per walker.  There [_update_walk_session] appends a new
    open session when the walker has none open, and otherwise writes over the
    open one, which stays open, and adds no row. *)
Theorem session_invariant cfg st st' :
  one_open st →
  rtc (tracker_step cfg) st st' →
  one_open st' ∧
  ∀ now w camera path_name has_dog,
    let upd := _update_walk_session now w camera path_name has_dog st' in
    one_open upd ∧
    match open_sessions w st' with
    | [] =>
        walk_sessions upd =
          walk_sessions st' ++
            [WalkSession.mk (next_rowid (WalkSession.id <$> walk_sessions st'))
               w now None camera path_name has_dog]
    | active :: others =>
        others = [] ∧
        ∃ i, walk_sessions st' !! i = Some active ∧
             walk_sessions upd =
               <[i := updated_session camera path_name has_dog active]>
                 (walk_sessions st') ∧
             open_sessions w upd =
               [updated_session camera path_name has_dog active]
    end.
Proof.
  intros Hone Hrtc.
  assert (one_open st') as Hone'.
  { induction Hrtc as [|st0 st1 st2 Hstep _ IH]; [done|].
    apply IH. by eapply tracker_step_one_open. }
  split; [done|]. intros now w camera path_name has_dog upd. subst upd.
  split; [by apply update_walk_session_one_open|].
  destruct (update_walk_session_cases now w camera path_name has_dog st')
    as [[Hnone Hupd]|(l1 & active & l2 & Hl & Hl1 & Ha & Hupd & Hupd')].
  - by rewrite Hnone.
  - pose proof (Hone' w) as Hlen. unfold open_sessions in Hlen |- *.
    rewrite Hl, filter_first_match in Hlen by done.
    assert (filter (is_active w) l2 = []) as Hl2.
    { destruct (filter _ l2); [done|]. cbn in Hlen. lia. }
    assert (filter (is_active w) (walk_sessions st') = [active]) as Hopen.
    { by rewrite Hl, filter_first_match, Hl2. }
    rewrite Hopen. split; [done|]. exists (length l1).
    split; [by rewrite Hl, lookup_app_r, Nat.sub_diag by lia|].
    split; [done|]. rewrite Hupd'.
    rewrite filter_first_match, Hl2; [done..|]. by destruct Ha.
Qed.

Lemma session_invariant_witness :
  one_open (seen_at_front 30) ∧
  ∀ now w camera path_name has_dog,
    let upd := _update_walk_session now w camera path_name has_dog (seen_at_front 30) in
    one_open upd ∧
    match open_sessions w (seen_at_front 30) with
    | [] =>
        walk_sessions upd =
          walk_sessions (seen_at_front 30) ++
            [WalkSession.mk
               (next_rowid (WalkSession.id <$> walk_sessions (seen_at_front 30)))
               w now None camera path_name has_dog]
    | active :: others =>
        others = [] ∧
        ∃ i, walk_sessions (seen_at_front 30) !! i = Some active ∧
             walk_sessions upd =
               <[i := updated_session camera path_name has_dog active]>
                 (walk_sessions (seen_at_front 30)) ∧
             open_sessions w upd =
               [updated_session camera path_name has_dog active]
    end.
Proof.
  apply (session_invariant (two_cameras 30) empty_tracker (seen_at_front 30)).
  - intros w. vm_compute. lia.
  - apply rtc_once.
    apply (step_process_detection (two_cameras 30) empty_tracker 0 "front"
             "street" "north" true false (1 # 2) 0 (Some 1) (seen_at_front 30)).
    vm_compute. reflexivity.
Defined.

(** C9 (closing a session).  With no open session for the walker,
    [close_session] leaves the tracker as it is.  Otherwise it writes [now]
    as the end time of the first open session of the walker and touches
    nothing else.  On a tracker with at most one open session per walker a
    second close changes nothing. *)
Theorem close_session_spec now w st :
  match open_sessions w st with
  | [] => close_session now w st = st
  | session :: others =>
      ∃ i, walk_sessions st !! i = Some session ∧
           close_session now w st =
             set_walk_sessions
               (<[i := WalkSession.set_end_time (Some now) session]>
                  (walk_sessions st)) st ∧
           open_sessions w (close_session now w st) = others
  end ∧
  (one_open st →
   ∀ now', close_session now' w (close_session now w st) = close_session now w st).
Proof.
  assert (match open_sessions w st with
          | [] => close_session now w st = st
          | session :: others =>
              ∃ i, walk_sessions st !! i = Some session ∧
                   close_session now w st =
                     set_walk_sessions
                       (<[i := WalkSession.set_end_time (Some now) session]>
                          (walk_sessions st)) st ∧
                   open_sessions w (close_session now w st) = others
          end) as Hfirst.
  { destruct (close_session_cases now w st)
      as [[Hnone Hc]|(l1 & session & l2 & Hl & Hl1 & Ha & Hc)].
    - by rewrite Hnone.
    - unfold open_sessions at 1. rewrite Hl, filter_first_match by done.
      exists (length l1). split; [by rewrite lookup_app_r, Nat.sub_diag by lia|].
      split; [by rewrite Hc, insert_first_match|].
      rewrite Hc. unfold open_sessions. cbn [walk_sessions set_walk_sessions].
      rewrite filter_first_match_replaced by done.
      rewrite filter_cons, decide_False; [done|]. by intros [_ ?]. }
  split; [done|]. intros Hone now'.
  pose proof (Hone w) as Hlen.
  destruct (open_sessions w st) as [|session others] eqn:Hopen.
  - rewrite Hfirst.
    destruct (close_session_cases now' w st) as [[_ ->]|(l1 & s & l2 & Hl & Hl1 & Ha & _)];
      [done|].
    unfold open_sessions in Hopen. by rewrite Hl, filter_first_match in Hopen.
  - destruct Hfirst as (i & _ & _ & Hothers).
    destruct others; [|cbn in Hlen; lia].
    destruct (close_session_cases now' w (close_session now w st))
      as [[_ ->]|(l1 & s & l2 & Hl & Hl1 & Ha & _)]; [done|].
    unfold open_sessions in Hothers. by rewrite Hl, filter_first_match in Hothers.
Qed.

Lemma close_session_spec_witness :
  (∃ i, walk_sessions (seen_at_front 30) !! i
          = Some (WalkSession.mk 1 1 0 None "front" "north" false) ∧
        close_session (seconds 9) 1 (seen_at_front 30) =
          set_walk_sessions
            (<[i := WalkSession.mk 1 1 0 (Some (seconds 9)) "front" "north" false]>
               (walk_sessions (seen_at_front 30))) (seen_at_front 30) ∧
        open_sessions 1 (close_session (seconds 9) 1 (seen_at_front 30)) = []) ∧
  close_session (seconds 12) 1 (close_session (seconds 9) 1 (seen_at_front 30))
    = close_session (seconds 9) 1 (seen_at_front 30).
Proof.
  destruct (close_session_spec (seconds 9) 1 (seen_at_front 30)) as [Hfirst Htwice].
  split; [exact Hfirst|]. apply Htwice.
  intros w. etransitivity; [apply length_filter|]. vm_compute. constructor.
Defined.

(** ** Retention of images *)

Lemma ranks_before_alt a b :
  ranks_before a b ↔
  (WalkerImage.quality_score b < WalkerImage.quality_score a)%Q ∨
  ((WalkerImage.quality_score a == WalkerImage.quality_score b)%Q ∧
   WalkerImage.timestamp b ≤ WalkerImage.timestamp a).
Proof.
  unfold ranks_before.
  destruct (WalkerImage.quality_score a ?= WalkerImage.quality_score b)%Q eqn:Hc.
  - apply Qeq_alt in Hc. split; [by right|].
    intros [Hlt|[_ ?]]; [|done]. rewrite Hc in Hlt. by apply Qlt_irrefl in Hlt.
  - apply Qlt_alt in Hc. split; [done|].
    intros [Hlt|[Heq _]].
    + apply (Qlt_irrefl (WalkerImage.quality_score a)).
      eapply Qlt_trans; eassumption.
    + rewrite Heq in Hc. by apply Qlt_irrefl in Hc.
  - apply Qgt_alt in Hc. split; [by left|done].
Qed.

#[global] Instance ranks_before_total : Total ranks_before.
Proof.
  intros a b. rewrite !ranks_before_alt.
  destruct (Q_dec (WalkerImage.quality_score a) (WalkerImage.quality_score b))
    as [[Hlt|Hgt]|Heq].
  - right. by left.
  - left. by left.
  - destruct (decide (WalkerImage.timestamp b ≤ WalkerImage.timestamp a)).
    + left. by right.
    + right. right. split; [by symmetry|lia].
Qed.

#[global] Instance ranks_before_trans : Transitive ranks_before.
Proof.
  intros a b c. rewrite !ranks_before_alt.
  intros [Hab|[Hab Tab]] [Hbc|[Hbc Tbc]].
  - left. eapply Qlt_trans; eassumption.
  - left. by rewrite <- Hbc.
  - left. by rewrite Hab.
  - right. split; [by rewrite Hab|lia].
Qed.

Lemma NoDup_fmap_eq {A B} (f : A → B) (l : list A) x y :
  NoDup (f <$> l) → x ∈ l → y ∈ l → f x = f y → x = y.
Proof.
  induction l as [|z l IH]; [by intros _ ?%elem_of_nil|].
  rewrite fmap_cons, NoDup_cons.
  intros [Hz Hnd] [->|Hx]%elem_of_cons [->|Hy]%elem_of_cons Hf; [done| | |by apply IH].
  - destruct Hz. rewrite Hf. by apply list_elem_of_fmap_2.
  - destruct Hz. rewrite <- Hf. by apply list_elem_of_fmap_2.
Qed.

(** The loop of [_cleanup_old_images] as a whole: the rows whose id is the
    id of an evicted image are gone, and so are the files of the evicted
    images. *)
Lemma evict_all_images evicted st :
  walker_images (foldl evict st evicted) =
  filter (λ r, WalkerImage.id r ∉ WalkerImage.id <$> evicted) (walker_images st).
Proof.
  revert st. induction evicted as [|e evicted IH]; intros st.
  - cbn [foldl fmap list_fmap]. symmetry. induction (walker_images st) as [|r l IHl]; [done|].
    rewrite filter_cons, decide_True; [by f_equal|]. by intros ?%elem_of_nil.
  - cbn [foldl]. rewrite IH.
    assert (walker_images (evict st e) =
            filter (λ r, WalkerImage.id r ≠ WalkerImage.id e) (walker_images st))
      as -> by (unfold evict; by case_decide).
    rewrite list_filter_filter. apply list_filter_iff.
    intros r. rewrite fmap_cons, not_elem_of_cons. tauto.
Qed.

Lemma evict_all_files evicted st p :
  p ∈ files (foldl evict st evicted) ↔
  p ∈ files st ∧ p ∉ WalkerImage.image_path <$> evicted.
Proof.
  revert st. induction evicted as [|e evicted IH]; intros st.
  - cbn [foldl fmap list_fmap]. rewrite elem_of_nil. tauto.
  - cbn [foldl]. rewrite IH, fmap_cons, not_elem_of_cons.
    assert (p ∈ files (evict st e) ↔ p ∈ files st ∧ p ≠ WalkerImage.image_path e)
      as ->.
    { unfold evict. case_decide; cbn [files set_files set_walker_images].
      - rewrite elem_of_difference, elem_of_singleton. tauto.
      - split; [|tauto]. intros Hp. split; [done|]. by intros ->. }
    tauto.
Qed.

Lemma evict_all_frame evicted st :
  walkers (foldl evict st evicted) = walkers st ∧
  detections (foldl evict st evicted) = detections st ∧
  recent_detections (foldl evict st evicted) = recent_detections st.
Proof.
  revert st. induction evicted as [|e evicted IH]; intros st; [done|].
  cbn [foldl]. destruct (IH (evict st e)) as (-> & -> & ->).
  unfold evict. by case_decide.
Qed.

Lemma filter_all {A} (P : A → Prop) `{∀ x, Decision (P x)} (l : list A) :
  Forall P l → filter P l = l.
Proof.
  induction 1 as [|x l Hx _ IH]; [done|].
  by rewrite filter_cons, decide_True, IH.
Qed.

Lemma filter_iff_in {A} (P Q : A → Prop)
    `{∀ x, Decision (P x), ∀ x, Decision (Q x)} (l : list A) :
  (∀ x, x ∈ l → (P x ↔ Q x)) → filter P l = filter Q l.
Proof.
  induction l as [|x l IH]; [done|]. intros Hiff.
  rewrite !filter_cons, IH by (intros y Hy; apply Hiff; by right).
  pose proof (Hiff x (list_elem_of_here x l)) as Hx.
  destruct (decide (P x)), (decide (Q x)); tauto || done.
Qed.

Lemma slice_from_drop {A} (k : Z) (l : list A) :
  0 ≤ k → slice_from k l = drop (Z.to_nat k) l.
Proof. intros Hk. unfold slice_from. by rewrite decide_True. Qed.

(** With a limit that is not negative, [_cleanup_old_images] evicts the
    images after the first [max_images] of the ranking, in both of its
    branches. *)
Lemma cleanup_old_images_drop w max_images st :
  0 ≤ max_images →
  _cleanup_old_images w max_images st =
  foldl evict st
    (drop (Z.to_nat max_images) (merge_sort ranks_before (images_of w st))).
Proof.
  intros Hmax. unfold _cleanup_old_images. cbn zeta. case_decide as Hlen.
  - by rewrite slice_from_drop.
  - rewrite drop_ge; [done|]. lia.
Qed.

Section cleanup.
Context (w max_images : Z) (st : Tracker).
Hypothesis max_nonneg : 0 ≤ max_images.
Hypothesis ids_unique : NoDup (WalkerImage.id <$> walker_images st).

Local Abbreviation ranked := (merge_sort ranks_before (images_of w st)).
Local Abbreviation kept := (take (Z.to_nat max_images) ranked).
Local Abbreviation evicted := (drop (Z.to_nat max_images) ranked).
Local Abbreviation cleaned := (_cleanup_old_images w max_images st).

Lemma ranked_in_table r : r ∈ ranked → r ∈ walker_images st ∧ WalkerImage.walker_id r = w.
Proof.
  rewrite merge_sort_Permutation. unfold images_of.
  intros [? ?]%list_elem_of_filter. done.
Qed.

Lemma ranked_ids_unique : NoDup (WalkerImage.id <$> ranked).
Proof.
  rewrite merge_sort_Permutation. unfold images_of.
  eapply sublist_NoDup; [exact ids_unique|].
  apply fmap_sublist, sublist_filter.
Qed.

Lemma kept_not_evicted k :
  k ∈ kept → WalkerImage.id k ∉ WalkerImage.id <$> evicted.
Proof.
  intros Hk. pose proof ranked_ids_unique as Hnd.
  rewrite <- (take_drop (Z.to_nat max_images) ranked), fmap_app in Hnd.
  apply NoDup_app in Hnd as (_ & Hdisj & _). apply Hdisj.
  by apply list_elem_of_fmap_2.
Qed.

Lemma cleaned_images :
  walker_images cleaned =
  filter (λ r, WalkerImage.id r ∉ WalkerImage.id <$> evicted) (walker_images st).
Proof. by rewrite cleanup_old_images_drop, evict_all_images. Qed.

Lemma cleaned_images_of_walker : images_of w cleaned ≡ₚ kept.
Proof.
  unfold images_of at 1. rewrite cleaned_images, list_filter_filter.
  rewrite (list_filter_iff _
             (λ r, (WalkerImage.id r ∉ WalkerImage.id <$> evicted) ∧
                   WalkerImage.walker_id r = w)) by (intros r; tauto).
  rewrite <- list_filter_filter.
  change (filter (λ r, WalkerImage.walker_id r = w) (walker_images st))
    with (images_of w st).
  transitivity
    (filter (λ r, WalkerImage.id r ∉ WalkerImage.id <$> evicted) ranked).
  { f_equiv. symmetry. apply merge_sort_Permutation. }
  rewrite <- (take_drop (Z.to_nat max_images) ranked) at 1.
  rewrite filter_app, filter_all, filter_none, app_nil_r; [done| |].
  - apply Forall_forall. intros e He Hn. apply Hn. by apply list_elem_of_fmap_2.
  - apply Forall_forall. intros k Hk. by apply kept_not_evicted.
Qed.

Lemma cleaned_evicted e :
  e ∈ evicted →
  (e ∉ walker_images cleaned) ∧ (WalkerImage.image_path e ∉ files cleaned).
Proof.
  intros He. split.
  - rewrite cleaned_images. intros [Hn _]%list_elem_of_filter.
    apply Hn. by apply list_elem_of_fmap_2.
  - rewrite cleanup_old_images_drop by done. intros [_ Hn]%evict_all_files.
    apply Hn. by apply list_elem_of_fmap_2.
Qed.

Lemma cleaned_other_walker w' : w' ≠ w → images_of w' cleaned = images_of w' st.
Proof.
  intros Hw. unfold images_of. rewrite cleaned_images, list_filter_filter.
  apply filter_iff_in. intros r Hr. split; [tauto|]. intros Hr'. split; [done|].
  intros (e & Hid & He)%list_elem_of_fmap.
  apply subseteq_drop, ranked_in_table in He as [He Hew].
  apply Hw. rewrite <- Hr', <- Hew. f_equal.
  by eapply (NoDup_fmap_eq WalkerImage.id).
Qed.

Lemma cleaned_ids_unique : NoDup (WalkerImage.id <$> walker_images cleaned).
Proof.
  rewrite cleaned_images. eapply sublist_NoDup; [exact ids_unique|].
  apply fmap_sublist, sublist_filter.
Qed.

Lemma kept_before_evicted k e : k ∈ kept → e ∈ evicted → ranks_before k e.
Proof.
  pose proof (StronglySorted_merge_sort ranks_before (images_of w st)) as Hs.
  rewrite <- (take_drop (Z.to_nat max_images) ranked) in Hs.
  apply StronglySorted_app in Hs as (Hord & _ & _). apply Hord.
Qed.

Lemma kept_length : (length kept ≤ Z.to_nat max_images)%nat.
Proof. rewrite length_take. lia. Qed.

End cleanup.

(** C6 (retention bound).  With a limit that is not negative and a table
    of images whose ids are distinct, after [save_walker_image] for walker
    [w]: the walker has at most the limit of images; they are the first
    [max] of the ranking of the walker's images, the new one included, by
    quality score descending, then timestamp descending, and each of them
    ranks before each evicted image; an evicted image has no row and no
    file left; the images of the other walkers are the same as before. *)
Theorem retention_bound cfg now w image_path image_type camera quality_score st :
  0 ≤ max_images_per_walker cfg →
  image_ids_unique st →
  let walker_image :=
    WalkerImage.mk (next_rowid (WalkerImage.id <$> walker_images st))
      w image_path image_type now camera quality_score in
  let st' :=
    save_walker_image cfg now w image_path image_type camera quality_score st in
  let ranked := merge_sort ranks_before (images_of w st ++ [walker_image]) in
  let kept := take (Z.to_nat (max_images_per_walker cfg)) ranked in
  let evicted := drop (Z.to_nat (max_images_per_walker cfg)) ranked in
  Z.of_nat (length (images_of w st')) ≤ max_images_per_walker cfg ∧
  images_of w st' ≡ₚ kept ∧
  kept ++ evicted ≡ₚ images_of w st ++ [walker_image] ∧
  (∀ k e, k ∈ kept → e ∈ evicted → ranks_before k e) ∧
  (∀ e, e ∈ evicted →
        (e ∉ walker_images st') ∧ (WalkerImage.image_path e ∉ files st')) ∧
  (∀ w', w' ≠ w → images_of w' st' = images_of w' st) ∧
  image_ids_unique st'.
Proof.
  intros Hmax Hnd walker_image st' ranked kept evicted.
  unfold image_ids_unique in Hnd |- *.
  set (st_ins := set_walker_images (walker_images st ++ [walker_image]) st).
  assert (st' = _cleanup_old_images w (max_images_per_walker cfg) st_ins)
    as Hst' by done.
  assert (NoDup (WalkerImage.id <$> walker_images st_ins)) as Hnd'.
  { cbn [st_ins walker_images set_walker_images]. rewrite fmap_app.
    apply NoDup_app. split; [done|]. split; [|apply NoDup_singleton].
    intros x Hx ->%list_elem_of_singleton. by apply next_rowid_fresh in Hx. }
  assert (images_of w st_ins = images_of w st ++ [walker_image]) as Hins.
  { unfold images_of. cbn [st_ins walker_images set_walker_images].
    by rewrite filter_app, (filter_cons _ walker_image), decide_True. }
  pose proof (cleaned_images_of_walker w _ st_ins Hmax Hnd') as Hkept.
  rewrite Hins in Hkept. fold ranked kept in Hkept. rewrite <- Hst' in Hkept.
  split.
  { rewrite Hkept. pose proof (kept_length w (max_images_per_walker cfg) st_ins) as Hl.
    rewrite Hins in Hl. fold ranked kept in Hl. lia. }
  split; [done|]. split.
  { unfold kept, evicted. rewrite take_drop. apply merge_sort_Permutation. }
  split.
  { intros k e Hk He.
    apply (kept_before_evicted w (max_images_per_walker cfg) st_ins);
      by rewrite Hins. }
  split.
  { intros e He. rewrite Hst'.
    apply (cleaned_evicted w _ st_ins Hmax). by rewrite Hins. }
  split.
  { intros w' Hw'. rewrite Hst', (cleaned_other_walker w _ st_ins) by done.
    unfold images_of. cbn [st_ins walker_images set_walker_images].
    rewrite filter_app, (filter_cons _ walker_image), decide_False, app_nil_r;
      [done|]. cbn. congruence. }
  rewrite Hst'. by apply cleaned_ids_unique.
Qed.

Lemma retention_bound_witness :
  let walker_image := WalkerImage.mk 3 7 "c.jpg" "person" 3 "back" (7 # 10) in
  let st' :=
    save_walker_image (two_cameras 30) 3 7 "c.jpg" "person" "back" (7 # 10)
      two_images in
  let ranked :=
    merge_sort ranks_before (images_of 7 two_images ++ [walker_image]) in
  let kept := take 2 ranked in
  let evicted := drop 2 ranked in
  Z.of_nat (length (images_of 7 st')) ≤ 2 ∧
  images_of 7 st' ≡ₚ kept ∧
  kept ++ evicted ≡ₚ images_of 7 two_images ++ [walker_image] ∧
  (∀ k e, k ∈ kept → e ∈ evicted → ranks_before k e) ∧
  (∀ e, e ∈ evicted →
        (e ∉ walker_images st') ∧ (WalkerImage.image_path e ∉ files st')) ∧
  (∀ w', w' ≠ 7 → images_of w' st' = images_of w' two_images) ∧
  image_ids_unique st'.
Proof.
  apply (retention_bound (two_cameras 30) 3 7 "c.jpg" "person" "back" (7 # 10)
           two_images).
  - vm_compute. discriminate.
  - apply (bool_decide_unpack _). vm_compute. exact I.
Defined.

(** ** The live path *)

Lemma save_walker_image_frame cfg now w path type camera q st :
  let st' := save_walker_image cfg now w path type camera q st in
  detections st' = detections st ∧ recent_detections st' = recent_detections st.
Proof.
  unfold save_walker_image, _cleanup_old_images. cbn zeta.
  case_decide; [|done].
  by destruct (evict_all_frame
                 (slice_from (max_images_per_walker cfg)
                    (merge_sort ranks_before
                       (images_of w
                          (set_walker_images
                             (walker_images st ++
                                [WalkerImage.mk
                                   (next_rowid (WalkerImage.id <$> walker_images st))
                                   w path type now camera q]) st))))
                 (set_walker_images
                    (walker_images st ++
                       [WalkerImage.mk
                          (next_rowid (WalkerImage.id <$> walker_images st))
                          w path type now camera q]) st))
    as (_ & -> & ->).
Qed.

Lemma capture_latest_frame_frame cfg now world w camera type st :
  let st' := _capture_latest_frame cfg now world w camera type st in
  detections st' = detections st ∧ recent_detections st' = recent_detections st.
Proof.
  unfold _capture_latest_frame, download. cbn zeta.
  destruct (download_ok world); [|done].
  apply (save_walker_image_frame cfg now w _ type camera (7 # 10)
           (set_files _ st)).
Qed.

Lemma process_detection_keeps_no_dog cfg now world camera object_type payload st st' :
  _process_detection cfg now world camera object_type payload st = Ok st' →
  no_dog st → no_dog st'.
Proof.
  unfold _process_detection.
  destruct (cameras cfg !! camera) as [camera_config|]; [|by intros [= <-]].
  cbn zeta. case_decide; [|by intros [= <-]].
  destruct (process_detection _ _ _ _ _ _ _ _ _ _) as [[r st1]|] eqn:H1; [|done].
  apply process_detection_Ok_inv in H1 as (w & ws & -> & _ & ->).
  intros Hst' [Hd Hr].
  assert (no_dog (finish_detection cfg now camera (CameraConfig.zone camera_config)
                    (CameraConfig.path_name camera_config) false
                    (min_person_confidence cfg) 0 w (set_walkers ws st))) as Hfin.
  { split.
    - rewrite finish_detection_detections. apply Forall_app. split; [done|].
      by repeat constructor.
    - rewrite finish_detection_recent. apply Forall_forall.
      intros d [_ [Hin| ->%list_elem_of_singleton]%elem_of_app]%list_elem_of_filter;
        [|done].
      by eapply Forall_forall in Hr. }
  case_decide; injection Hst' as <-; [|done].
  unfold no_dog.
  by destruct (capture_latest_frame_frame cfg now world w camera "person"
                 (finish_detection cfg now camera (CameraConfig.zone camera_config)
                    (CameraConfig.path_name camera_config) false
                    (min_person_confidence cfg) 0 w (set_walkers ws st)))
    as [-> ->].
Qed.

Lemma handle_frigate_event_keeps_no_dog cfg now world topic payload st :
  no_dog st → no_dog (_handle_frigate_event cfg now world topic payload st).
Proof.
  intros Hst. unfold _handle_frigate_event. cbn zeta.
  case_decide.
  - unfold _process_event. destruct payload as [| |e|]; try done.
    repeat case_decide; try done;
      (destruct (_ && _); [|done]);
      unfold _capture_event_snapshot, download; cbn zeta;
      by destruct (download_ok world).
  - destruct (split "/" topic) as [|p0 [|camera [|object_type [|? ?]]]]; try done.
    case_decide; [|done].
    destruct (_process_detection _ _ _ _ _ _ _) as [st'|] eqn:H1; [|done].
    by eapply process_detection_keeps_no_dog.
Qed.

Lemma handle_all_keeps_no_dog cfg events st :
  no_dog st → no_dog (handle_all cfg events st).
Proof.
  unfold handle_all. revert st.
  induction events as [|[[[now world] topic] payload] events IH]; intros st Hst;
    [done|].
  cbn [foldl]. apply IH. by apply handle_frigate_event_keeps_no_dog.
Qed.

(** C10 (the live path carries no dog).  For a person count above zero on
    a configured camera, [_process_detection] calls the tracker's
    [process_detection] with [has_person=True], [has_dog=False] and the
    configured minimum confidence as person confidence.  The detection row
    it leaves says so, and the call succeeds when the window names only
    known walkers.  Hence, whatever events the feed delivers, a tracker
    without dog detections stays without dog detections. *)
Theorem live_path_without_dog cfg now world camera camera_config payload st :
  cameras cfg !! camera = Some camera_config →
  0 < count_of payload →
  let zone := CameraConfig.zone camera_config in
  let path_name := CameraConfig.path_name camera_config in
  let min_conf := min_person_confidence cfg in
  _process_detection cfg now world camera "person" payload st =
    match process_detection cfg now camera zone path_name true false min_conf 0 st with
    | Raise e => Raise e
    | Ok (Some walker_id, st1) =>
        if decide (walker_id ≠ 0) then
          Ok (_capture_latest_frame cfg now world walker_id camera "person" st1)
        else Ok st1
    | Ok (None, st1) => Ok st1
    end ∧
  (∀ st',
     _process_detection cfg now world camera "person" payload st = Ok st' →
     ∃ walker_id,
       detections st' =
         detections st ++
           [Detection.mk (next_rowid (Detection.id <$> detections st))
              walker_id camera zone path_name now "enter" false
              (Some min_conf) None]) ∧
  (ids_known st →
   ∃ st', _process_detection cfg now world camera "person" payload st = Ok st') ∧
  (∀ events st0, no_dog st0 → no_dog (handle_all cfg events st0)).
Proof.
  intros Hcam Hcount zone path_name min_conf.
  assert (_process_detection cfg now world camera "person" payload st =
          match process_detection cfg now camera zone path_name true false
                  min_conf 0 st with
          | Raise e => Raise e
          | Ok (Some walker_id, st1) =>
              if decide (walker_id ≠ 0) then
                Ok (_capture_latest_frame cfg now world walker_id camera "person" st1)
              else Ok st1
          | Ok (None, st1) => Ok st1
          end) as Heq.
  { unfold _process_detection. rewrite Hcam. cbn zeta.
    rewrite decide_True by done.
    destruct (process_detection _ _ _ _ _ _ _ _ _ _) as [[[w|] st1]|]; [|done..].
    by case_decide. }
  split; [done|]. split; [|split].
  - intros st'. rewrite Heq.
    destruct (process_detection _ _ _ _ _ _ _ _ _ _) as [[r st1]|] eqn:H1; [|done].
    apply process_detection_Ok_inv in H1 as (w & ws & -> & _ & ->).
    intros Hst'. exists w.
    assert (detections st' =
            detections (finish_detection cfg now camera zone path_name false
                          min_conf 0 w (set_walkers ws st))) as ->.
    { case_decide; injection Hst' as <-; [|done].
      apply capture_latest_frame_frame. }
    by rewrite finish_detection_detections.
  - intros Hk. rewrite Heq.
    destruct (process_detection_total cfg now camera zone path_name false
                min_conf 0 st Hk) as (w & st1 & ->).
    case_decide; by eexists.
  - intros events st0. apply handle_all_keeps_no_dog.
Qed.

Lemma live_path_without_dog_witness :
  _process_detection (two_cameras 30) 0 (Build_World "20260101_120000" true)
    "front" "person" (PInt 1) empty_tracker =
    match process_detection (two_cameras 30) 0 "front" "street" "north"
            true false (1 # 2) 0 empty_tracker with
    | Raise e => Raise e
    | Ok (Some walker_id, st1) =>
        if decide (walker_id ≠ 0) then
          Ok (_capture_latest_frame (two_cameras 30) 0
                (Build_World "20260101_120000" true) walker_id "front" "person" st1)
        else Ok st1
    | Ok (None, st1) => Ok st1
    end ∧
  (∀ st',
     _process_detection (two_cameras 30) 0 (Build_World "20260101_120000" true)
       "front" "person" (PInt 1) empty_tracker = Ok st' →
     ∃ walker_id,
       detections st' =
         [Detection.mk 1 walker_id "front" "street" "north" 0 "enter" false
            (Some (1 # 2)) None]) ∧
  (ids_known empty_tracker →
   ∃ st',
     _process_detection (two_cameras 30) 0 (Build_World "20260101_120000" true)
       "front" "person" (PInt 1) empty_tracker = Ok st') ∧
  (∀ events st0, no_dog st0 → no_dog (handle_all (two_cameras 30) events st0)).
Proof.
  apply (live_path_without_dog (two_cameras 30) 0
           (Build_World "20260101_120000" true) "front"
           (CameraConfig.mk "street" "north") (PInt 1)
           empty_tracker).
  - vm_compute. reflexivity.
  - vm_compute. reflexivity.
Defined.

(** ** Every tracker reached from the empty one is well formed *)

Lemma save_walker_image_walkers cfg now w path type camera q st :
  walkers (save_walker_image cfg now w path type camera q st) = walkers st.
Proof.
  unfold save_walker_image, _cleanup_old_images. cbn zeta.
  case_decide; [|done]. by rewrite (proj1 (evict_all_frame _ _)).
Qed.

Lemma save_walker_image_ids_unique cfg now w path type camera q st :
  image_ids_unique st →
  image_ids_unique (save_walker_image cfg now w path type camera q st).
Proof.
  unfold image_ids_unique. intros Hnd.
  assert (NoDup (WalkerImage.id <$>
                   (walker_images st ++
                      [WalkerImage.mk (next_rowid (WalkerImage.id <$> walker_images st))
                         w path type now camera q]))) as Hnd'.
  { rewrite fmap_app. apply NoDup_app. split; [done|].
    split; [|apply NoDup_singleton].
    intros x Hx ->%list_elem_of_singleton. by apply next_rowid_fresh in Hx. }
  unfold save_walker_image, _cleanup_old_images. cbn zeta.
  case_decide; [|done]. rewrite evict_all_images.
  eapply sublist_NoDup; [exact Hnd'|]. apply fmap_sublist, sublist_filter.
Qed.

Lemma close_session_frame now w st :
  walkers (close_session now w st) = walkers st ∧
  recent_detections (close_session now w st) = recent_detections st ∧
  walker_images (close_session now w st) = walker_images st.
Proof. unfold close_session. by destruct (list_find _ _) as [[i s]|]. Qed.

Lemma tracker_step_well_formed cfg st st' :
  tracker_step cfg st st' → well_formed st → well_formed st'.
Proof.
  intros Hstep (Hinv & Hone & Himg).
  split; [|split; [by eapply tracker_step_one_open|]].
  - destruct Hstep as [now camera zone path_name [] has_dog pc dc r st1 H1|now w| |].
    + by eapply process_detection_inv.
    + cbn in H1. by injection H1 as _ <-.
    + destruct (close_session_frame now w st) as (Hw & Hr & _).
      unfold tracker_inv, ids_known, dog_consistent. rewrite Hw, Hr.
      exact Hinv.
    + done.
    + unfold tracker_inv, ids_known, dog_consistent.
      rewrite save_walker_image_walkers.
      rewrite (proj2 (save_walker_image_frame _ _ _ _ _ _ _ _)). exact Hinv.
  - destruct Hstep as [now camera zone path_name [] has_dog pc dc r st1 H1|now w| |].
    + apply process_detection_Ok_inv in H1 as (w & ws & _ & _ & ->).
      unfold image_ids_unique. by rewrite finish_detection_images.
    + cbn in H1. by injection H1 as _ <-.
    + unfold image_ids_unique.
      by rewrite (proj2 (proj2 (close_session_frame now w st))).
    + done.
    + by apply save_walker_image_ids_unique.
Qed.

(** Every tracker that calls of the writing methods reach from the empty
    one is well formed. *)
Lemma reachable_well_formed cfg st :
  rtc (tracker_step cfg) empty_tracker st → well_formed st.
Proof.
  assert (well_formed empty_tracker) as H0.
  { split; [apply empty_tracker_inv|]. split; [intros w; cbn; lia|constructor]. }
  revert H0. generalize empty_tracker.
  induction 2 as [|st0 st1 st2 Hstep _ IH]; [done|].
  apply IH. by eapply tracker_step_well_formed.
Qed.

(** * Further properties *)

(** ** Splitting and joining *)

Lemma string_app_cons x (a b : string) : String x a +:+ b = String x (a +:+ b).
Proof. reflexivity. Qed.

Lemma string_app_nil_l (b : string) : "" +:+ b = b.
Proof. reflexivity. Qed.

Lemma string_app_assoc (a b c : string) : (a +:+ b) +:+ c = a +:+ (b +:+ c).
Proof.
  induction a as [|x a IH]; [done|]. rewrite !string_app_cons. by f_equal.
Qed.

Lemma string_app_nil_r (a : string) : a +:+ "" = a.
Proof. induction a as [|x a IH]; [done|]. rewrite string_app_cons. by f_equal. Qed.

Lemma free_of_cons c x s : free_of c (String x s) ↔ c ≠ x ∧ free_of c s.
Proof. unfold free_of. cbn. rewrite not_elem_of_cons. tauto. Qed.

Lemma free_of_nil c : free_of c "".
Proof. unfold free_of. cbn. by intros ?%elem_of_nil. Qed.

Lemma free_of_app c a b : free_of c (a +:+ b) ↔ free_of c a ∧ free_of c b.
Proof.
  induction a as [|x a IH].
  - rewrite string_app_nil_l. pose proof (free_of_nil c). tauto.
  - rewrite string_app_cons, !free_of_cons, IH. tauto.
Qed.

Section split.
Context (sep : ascii).

Lemma split_aux_free cur s :
  free_of sep s → split_aux sep cur s = [cur +:+ s].
Proof.
  revert cur. induction s as [|c s IH]; intros cur Hs.
  - cbn [split_aux]. by rewrite string_app_nil_r.
  - apply free_of_cons in Hs as [Hc Hs]. cbn [split_aux].
    rewrite (proj2 (Ascii.eqb_neq c sep)) by done.
    rewrite IH by done. by rewrite string_app_assoc.
Qed.

Lemma split_aux_sep cur a rest :
  free_of sep a →
  split_aux sep cur (a +:+ String sep rest) = (cur +:+ a) :: split_aux sep "" rest.
Proof.
  revert cur. induction a as [|c a IH]; intros cur Ha.
  - rewrite string_app_nil_l. cbn [split_aux].
    by rewrite Ascii.eqb_refl, string_app_nil_r.
  - apply free_of_cons in Ha as [Hc Ha]. rewrite string_app_cons.
    cbn [split_aux]. rewrite (proj2 (Ascii.eqb_neq c sep)) by done.
    rewrite IH by done. by rewrite string_app_assoc.
Qed.

(** [sep.join(xs).split(sep) == xs] for a list that is not empty and whose
    strings are free of the separator. *)
Lemma split_concat (xs : list string) :
  xs ≠ [] → Forall (free_of sep) xs →
  split sep (String.concat (String sep "") xs) = xs.
Proof.
  unfold split. induction xs as [|x xs IH]; [done|]. intros _ Hall.
  apply Forall_cons in Hall as [Hx Hxs]. destruct xs as [|y xs].
  - cbn [String.concat]. by rewrite split_aux_free.
  - cbn [String.concat]. rewrite string_app_cons, string_app_nil_l.
    rewrite split_aux_sep by done. rewrite string_app_nil_l. f_equal.
    by apply IH.
Qed.

Lemma concat_cons (x : string) (xs : list string) :
  xs ≠ [] →
  String.concat (String sep "") (x :: xs)
  = x +:+ String sep (String.concat (String sep "") xs).
Proof. by destruct xs. Qed.

Lemma split_aux_not_nil cur s : split_aux sep cur s ≠ [].
Proof.
  revert cur. induction s as [|c s IH]; intros cur; [done|].
  cbn [split_aux]. by destruct (Ascii.eqb c sep).
Qed.

(** [sep.join(s.split(sep)) == s], for every string. *)
Lemma concat_split_aux cur s :
  String.concat (String sep "") (split_aux sep cur s) = cur +:+ s.
Proof.
  revert cur. induction s as [|c s IH]; intros cur.
  - cbn [split_aux String.concat]. by rewrite string_app_nil_r.
  - cbn [split_aux]. destruct (Ascii.eqb_spec c sep) as [->|Hc].
    + rewrite concat_cons by apply split_aux_not_nil.
      by rewrite IH, string_app_nil_l.
    + rewrite IH. by rewrite string_app_assoc.
Qed.

Lemma split_aux_parts_free cur s :
  free_of sep cur → Forall (free_of sep) (split_aux sep cur s).
Proof.
  revert cur. induction s as [|c s IH]; intros cur Hcur.
  - by repeat constructor.
  - cbn [split_aux]. destruct (Ascii.eqb_spec c sep) as [->|Hc].
    + constructor; [done|]. apply IH, free_of_nil.
    + apply IH. apply free_of_app. split; [done|].
      apply free_of_cons. split; [done|apply free_of_nil].
Qed.
End split.

(** ** The comma-separated columns of a session *)

Lemma remove_dups_NoDup {A} `{EqDecision A} (l : list A) :
  NoDup l → remove_dups l = l.
Proof.
  induction 1 as [|x l Hx _ IH]; [done|].
  cbn [remove_dups]. destruct (decide_rel elem_of x l); [done|by f_equal].
Qed.

Lemma names_of_free s : Forall (free_of ",") (names_of s).
Proof.
  unfold names_of. case_decide; [constructor|].
  apply split_aux_parts_free, free_of_nil.
Qed.

Lemma names_of_concat (xs : list string) :
  xs ≠ [] → xs ≠ [""] → Forall (free_of ",") xs →
  names_of (String.concat "," xs) = xs.
Proof.
  intros Hnil Hempty Hfree. unfold names_of.
  pose proof (split_concat "," xs Hnil Hfree) as Hsplit.
  case_decide as Hc; [|done].
  destruct Hempty. rewrite <- Hsplit.
  change (String "," "") with ","%string. by rewrite Hc.
Qed.

Lemma csv_add_with_name s item :
  csv_add s item = String.concat "," (with_name item s).
Proof. done. Qed.

Lemma with_name_spec item s :
  item ∈ with_name item s ∧ NoDup (with_name item s) ∧
  (free_of "," item → Forall (free_of ",") (with_name item s)) ∧
  (∀ x, x ∈ with_name item s ↔ x ∈ names_of s ∨ x = item).
Proof.
  unfold with_name. cbn zeta.
  pose proof (NoDup_remove_dups (names_of s)) as Hnd.
  assert (Forall (free_of ",") (remove_dups (names_of s))) as Hfree.
  { apply Forall_forall. intros x Hx. rewrite elem_of_remove_dups in Hx.
    pose proof (names_of_free s) as Hall. rewrite Forall_forall in Hall.
    by apply Hall. }
  case_decide as Hin.
  - split; [done|]. split; [done|]. split; [done|].
    intros x. rewrite elem_of_remove_dups. split; [tauto|].
    intros [?| ->]; [done|]. by apply elem_of_remove_dups.
  - split; [apply elem_of_app; right; by left|]. split.
    { apply NoDup_app. split; [done|]. split; [|apply NoDup_singleton].
      by intros x Hx ->%list_elem_of_singleton. }
    split.
    { intros Hitem. apply Forall_app. split; [done|]. by repeat constructor. }
    intros x. by rewrite elem_of_app, elem_of_remove_dups, list_elem_of_singleton.
Qed.

(** Reading the column back gives the joined list, when the added name is
    not empty and has no comma. *)
Lemma names_of_csv_add s item :
  free_of "," item → item ≠ "" →
  names_of (csv_add s item) = with_name item s.
Proof.
  intros Hfree Hne. rewrite csv_add_with_name.
  destruct (with_name_spec item s) as (Hin & _ & Hall & _).
  apply names_of_concat; [| |by apply Hall].
  - intros Heq. rewrite Heq in Hin. by apply elem_of_nil in Hin.
  - intros Heq. rewrite Heq in Hin. by apply list_elem_of_singleton in Hin.
Qed.

Lemma list_find_first {A} (P : A → Prop) `{!∀ x, Decision (P x)} (l1 l2 : list A) x :
  Forall (λ y, ¬ P y) l1 → P x →
  list_find P (l1 ++ x :: l2) = Some (length l1, x).
Proof.
  intros Hl1 Hx. apply list_find_Some. split; [|split; [done|]].
  - by rewrite lookup_app_r, Nat.sub_diag by lia.
  - intros j y Hj Hlt. rewrite lookup_app_l in Hj by done.
    rewrite Forall_forall in Hl1. apply Hl1. by eapply list_elem_of_lookup_2.
Qed.

Lemma update_walk_session_eq now w camera path_name has_dog st :
  _update_walk_session now w camera path_name has_dog st =
  set_walk_sessions
    (walk_sessions (_update_walk_session now w camera path_name has_dog st)) st.
Proof.
  unfold _update_walk_session. by destruct (list_find _ _) as [[i s]|].
Qed.

Lemma names_of_single x : free_of "," x → x ≠ "" → names_of x = [x].
Proof.
  intros Hfree Hne. unfold names_of. rewrite decide_False by done.
  unfold split. by rewrite split_aux_free, string_app_nil_l.
Qed.

(** ** A repeated sighting, for any order of the sets *)

Lemma names_of_not_blank s : names_of s ≠ [""].
Proof.
  unfold names_of. case_decide as Hs; [done|]. intros Heq. apply Hs.
  pose proof (concat_split_aux "," "" s) as Hc. fold (split "," s) in Hc.
  rewrite Heq, string_app_nil_l in Hc. by rewrite <- Hc.
Qed.

Lemma kept_order_ok : set_order_ok kept_order.
Proof.
  intros names item. unfold kept_order. cbn zeta.
  pose proof (NoDup_remove_dups names) as Hnd.
  apply NoDup_Permutation; [|apply NoDup_remove_dups|].
  - case_decide as Hin; [done|]. apply NoDup_app. split; [done|].
    split; [|apply NoDup_singleton]. by intros x Hx ->%list_elem_of_singleton.
  - intros x. case_decide as Hin.
    + rewrite !elem_of_remove_dups, elem_of_app, list_elem_of_singleton.
      rewrite elem_of_remove_dups in Hin. split; [tauto|]. by intros [?| ->].
    + by rewrite elem_of_remove_dups, !elem_of_app, elem_of_remove_dups.
Qed.

Lemma flip_order_ok : set_order_ok flip_order.
Proof.
  intros names item. unfold flip_order.
  by rewrite reverse_Permutation, (kept_order_ok names item).
Qed.

Section set_order.
Context (order : list string → string → list string).
Hypothesis order_ok : set_order_ok order.

Lemma set_order_elem_of names item x :
  x ∈ order names item ↔ x ∈ names ∨ x = item.
Proof.
  by rewrite (order_ok names item), elem_of_remove_dups, elem_of_app,
    list_elem_of_singleton.
Qed.

Lemma set_order_NoDup names item : NoDup (order names item).
Proof. rewrite (order_ok names item). apply NoDup_remove_dups. Qed.

(** A name is held by a column: it is one of its names, each listed once; or
    the name and the column are empty. *)
Lemma csv_add_by_holds s item :
  free_of "," item →
  let s' := csv_add_by order s item in
  (item = "" ∧ names_of s' = []) ∨ (item ∈ names_of s' ∧ NoDup (names_of s')).
Proof.
  intros Hfree. cbn zeta. unfold csv_add_by. fold (names_of s).
  set (l := order (names_of s) item).
  assert (item ∈ l) as Hin by (apply set_order_elem_of; by right).
  destruct (decide (l = [""])) as [Heq|Hne].
  - left. rewrite Heq in Hin |- *. apply list_elem_of_singleton in Hin.
    split; [done|]. by vm_compute.
  - right. rewrite names_of_concat; [by split; [|apply set_order_NoDup]| |done|].
    + intros Heq. rewrite Heq in Hin. by apply elem_of_nil in Hin.
    + apply Forall_forall. intros x [Hx| ->]%set_order_elem_of; [|done].
      pose proof (names_of_free s) as Hall. rewrite Forall_forall in Hall.
      by apply Hall.
Qed.

Lemma name_holds item :
  free_of "," item →
  (item = "" ∧ names_of item = []) ∨ (item ∈ names_of item ∧ NoDup (names_of item)).
Proof.
  intros Hfree. destruct (decide (item = "")) as [->|Hne]; [by left|].
  right. rewrite names_of_single by done. split; [by left|apply NoDup_singleton].
Qed.

(** Adding a name that the column holds changes at most the order. *)
Lemma csv_add_by_again s item :
  free_of "," item →
  (item = "" ∧ names_of s = []) ∨ (item ∈ names_of s ∧ NoDup (names_of s)) →
  names_of (csv_add_by order s item) ≡ₚ names_of s.
Proof.
  intros Hfree Hholds. unfold csv_add_by. fold (names_of s).
  set (l := order (names_of s) item).
  destruct Hholds as [[-> Hnil]|[Hin Hnd]].
  - assert (l = [""]) as ->.
    { apply Permutation_singleton_r. unfold l. by rewrite (order_ok _ _), Hnil. }
    rewrite Hnil. by vm_compute.
  - assert (l ≡ₚ names_of s) as Hl.
    { apply NoDup_Permutation; [apply set_order_NoDup|done|].
      intros x. unfold l. rewrite set_order_elem_of. split; [|tauto].
      by intros [?| ->]. }
    rewrite names_of_concat; [done| | |].
    + intros Heq. rewrite Heq in Hl. apply Permutation_nil_l in Hl.
      rewrite <- Hl in Hin. by apply elem_of_nil in Hin.
    + intros Heq. rewrite Heq in Hl. apply Permutation_singleton_l in Hl.
      by apply (names_of_not_blank s).
    + rewrite Hl. apply names_of_free.
Qed.

Lemma update_walk_session_by_sessions now w camera path_name has_dog st :
  walk_sessions (_update_walk_session_by order now w camera path_name has_dog st)
  = match list_find (is_active w) (walk_sessions st) with
    | Some (i, active) =>
        <[i := updated_session_by order camera path_name has_dog active]>
          (walk_sessions st)
    | None =>
        walk_sessions st ++
          [WalkSession.mk (next_rowid (WalkSession.id <$> walk_sessions st))
             w now None camera path_name has_dog]
    end.
Proof.
  unfold _update_walk_session_by. by destruct (list_find _ _) as [[i s]|].
Qed.

Lemma update_walk_session_by_frame now w camera path_name has_dog st :
  let upd := _update_walk_session_by order now w camera path_name has_dog st in
  walkers upd = walkers st ∧ detections upd = detections st ∧
  walker_images upd = walker_images st ∧
  recent_detections upd = recent_detections st ∧ files upd = files st.
Proof.
  unfold _update_walk_session_by. by destruct (list_find _ _) as [[i s]|].
Qed.

Lemma same_visits_refl s : same_visits s s.
Proof. by repeat split. Qed.

Lemma same_visits_middle l1 l2 a a' :
  same_visits a a' → Forall2 same_visits (l1 ++ a :: l2) (l1 ++ a' :: l2).
Proof.
  intros Ha. apply Forall2_app; [|constructor; [done|]];
    apply Forall_Forall2_diag, Forall_forall; intros s _; apply same_visits_refl.
Qed.

End set_order.

(** X1 (a repeated sighting changes at most the order of the names).  For a
    camera name and a path name without a comma, and whatever the order in
    which the process iterates over a set, [_update_walk_session] called a
    second time with the same walker, camera, path and dog flag leaves every
    table but the sessions as the first call left it, and every session row
    as it was up to the order of the names in its two columns. *)
Theorem update_walk_session_repeated order now now' w camera path_name has_dog
    st :
  set_order_ok order → free_of "," camera → free_of "," path_name →
  let st1 := _update_walk_session_by order now w camera path_name has_dog st in
  let st2 := _update_walk_session_by order now' w camera path_name has_dog st1 in
  walkers st2 = walkers st1 ∧ detections st2 = detections st1 ∧
  walker_images st2 = walker_images st1 ∧
  recent_detections st2 = recent_detections st1 ∧ files st2 = files st1 ∧
  Forall2 same_visits (walk_sessions st1) (walk_sessions st2).
Proof.
  intros Hok Hc Hp st1 st2.
  destruct (update_walk_session_by_frame order now' w camera path_name has_dog st1)
    as (? & ? & ? & ? & ?).
  do 5 (split; [done|]). unfold st2.
  rewrite update_walk_session_by_sessions. unfold st1.
  rewrite update_walk_session_by_sessions.
  destruct (list_find (is_active w) (walk_sessions st)) as [[i active]|] eqn:Hf.
  - apply list_find_split in Hf as (l1 & l2 & Hl & <- & Hl1 & Ha).
    rewrite Hl, insert_first_match.
    rewrite list_find_first; [|done|by destruct Ha].
    rewrite insert_first_match. apply same_visits_middle.
    unfold updated_session_by.
    cbn [WalkSession.id WalkSession.walker_id WalkSession.start_time
         WalkSession.end_time WalkSession.cameras_visited
         WalkSession.paths_taken WalkSession.has_dog].
    do 4 (split; [done|]).
    split; [by destruct (WalkSession.has_dog active), has_dog|].
    split; apply csv_add_by_again; try done; by apply csv_add_by_holds.
  - apply list_find_None in Hf.
    rewrite list_find_first; [|done|by split].
    rewrite insert_first_match. apply same_visits_middle.
    unfold updated_session_by.
    cbn [WalkSession.id WalkSession.walker_id WalkSession.start_time
         WalkSession.end_time WalkSession.cameras_visited
         WalkSession.paths_taken WalkSession.has_dog].
    do 4 (split; [done|]). split; [by destruct has_dog|].
    split; apply csv_add_by_again; try done; by apply name_holds.
Qed.

Lemma update_walk_session_repeated_witness :
  let st1 :=
    _update_walk_session_by flip_order (seconds 5) 1 "back" "south" true
      (seen_at_front 30) in
  let st2 :=
    _update_walk_session_by flip_order (seconds 9) 1 "back" "south" true st1 in
  WalkSession.cameras_visited <$> walk_sessions st1 = ["back,front"] ∧
  WalkSession.cameras_visited <$> walk_sessions st2 = ["front,back"] ∧
  Forall2 same_visits (walk_sessions st1) (walk_sessions st2).
Proof.
  split; [by vm_compute|]. split; [by vm_compute|].
  apply (update_walk_session_repeated flip_order (seconds 5) (seconds 9) 1
           "back" "south" true (seen_at_front 30)).
  - exact flip_order_ok.
  - unfold free_of. apply (bool_decide_unpack _). by vm_compute.
  - unfold free_of. apply (bool_decide_unpack _). by vm_compute.
Defined.

(** X2 (the visited sets are unions).  For a camera name and a path name
    that are not empty and have no comma, after [_update_walk_session] the
    first open session of the walker lists, without repetition, the camera
    together with the cameras its open session listed before, and the path
    together with the paths listed before; its dog flag is the old one or
    the new one. *)
Theorem update_walk_session_visits now w camera path_name has_dog st :
  free_of "," camera → camera ≠ "" →
  free_of "," path_name → path_name ≠ "" →
  let upd := _update_walk_session now w camera path_name has_dog st in
  ∃ s',
    head (open_sessions w upd) = Some s' ∧
    NoDup (names_of (WalkSession.cameras_visited s')) ∧
    NoDup (names_of (WalkSession.paths_taken s')) ∧
    (∀ x, x ∈ names_of (WalkSession.cameras_visited s') ↔
          x = camera ∨
          ∃ active, head (open_sessions w st) = Some active ∧
                    x ∈ names_of (WalkSession.cameras_visited active)) ∧
    (∀ x, x ∈ names_of (WalkSession.paths_taken s') ↔
          x = path_name ∨
          ∃ active, head (open_sessions w st) = Some active ∧
                    x ∈ names_of (WalkSession.paths_taken active)) ∧
    (WalkSession.has_dog s' = true ↔
          has_dog = true ∨
          ∃ active, head (open_sessions w st) = Some active ∧
                    WalkSession.has_dog active = true).
Proof.
  intros Hc Hcne Hp Hpne upd. subst upd. unfold open_sessions.
  destruct (update_walk_session_cases now w camera path_name has_dog st)
    as [[Hnone ->]|(l1 & active & l2 & Hl & Hl1 & Ha & _ & ->)].
  - unfold open_sessions in Hnone. rewrite filter_app, Hnone.
    rewrite filter_cons, decide_True by done. eexists. split; [done|].
    cbn [WalkSession.cameras_visited WalkSession.paths_taken WalkSession.has_dog
         head].
    rewrite !names_of_single by done.
    split; [apply NoDup_singleton|]. split; [apply NoDup_singleton|].
    split; [|split].
    + intros x. rewrite list_elem_of_singleton. split; [tauto|].
      by intros [?|(? & [=] & _)].
    + intros x. rewrite list_elem_of_singleton. split; [tauto|].
      by intros [?|(? & [=] & _)].
    + split; [tauto|]. by intros [?|(? & [=] & _)].
  - rewrite Hl, !filter_first_match by (done || by destruct Ha).
    eexists. split; [done|].
    cbn [updated_session WalkSession.cameras_visited WalkSession.paths_taken
         WalkSession.has_dog head].
    rewrite !names_of_csv_add by done.
    destruct (with_name_spec camera (WalkSession.cameras_visited active))
      as (_ & Hnd1 & _ & Hin1).
    destruct (with_name_spec path_name (WalkSession.paths_taken active))
      as (_ & Hnd2 & _ & Hin2).
    split; [done|]. split; [done|]. split; [|split].
    + intros x. rewrite Hin1. split.
      * intros [?|?]; [right; by eexists|by left].
      * intros [?|(? & [= <-] & ?)]; [by right|by left].
    + intros x. rewrite Hin2. split.
      * intros [?|?]; [right; by eexists|by left].
      * intros [?|(? & [= <-] & ?)]; [by right|by left].
    + rewrite orb_true_iff. split.
      * intros [?|?]; [right; by eexists|by left].
      * intros [?|(? & [= <-] & ?)]; [by right|by left].
Qed.

Lemma update_walk_session_visits_witness :
  ∃ s',
    head (open_sessions 1
            (_update_walk_session (seconds 5) 1 "back" "south" true
               (seen_at_front 30))) = Some s' ∧
    NoDup (names_of (WalkSession.cameras_visited s')) ∧
    NoDup (names_of (WalkSession.paths_taken s')) ∧
    (∀ x, x ∈ names_of (WalkSession.cameras_visited s') ↔
          x = "back" ∨
          ∃ active, head (open_sessions 1 (seen_at_front 30)) = Some active ∧
                    x ∈ names_of (WalkSession.cameras_visited active)) ∧
    (∀ x, x ∈ names_of (WalkSession.paths_taken s') ↔
          x = "south" ∨
          ∃ active, head (open_sessions 1 (seen_at_front 30)) = Some active ∧
                    x ∈ names_of (WalkSession.paths_taken active)) ∧
    (WalkSession.has_dog s' = true ↔
          true = true ∨
          ∃ active, head (open_sessions 1 (seen_at_front 30)) = Some active ∧
                    WalkSession.has_dog active = true).
Proof.
  apply (update_walk_session_visits (seconds 5) 1 "back" "south" true
           (seen_at_front 30)).
  - unfold free_of. apply (bool_decide_unpack _). by vm_compute.
  - discriminate.
  - unfold free_of. apply (bool_decide_unpack _). by vm_compute.
  - discriminate.
Defined.

(** ** What a call never undoes *)

Lemma session_kept_refl s : session_kept s s.
Proof. by repeat split. Qed.

Lemma sessions_kept_refl l : sessions_kept l l.
Proof. intros i s Hi. exists s. split; [done|apply session_kept_refl]. Qed.

Lemma sessions_kept_trans l1 l2 l3 :
  sessions_kept l1 l2 → sessions_kept l2 l3 → sessions_kept l1 l3.
Proof.
  intros H12 H23 i s Hi.
  destruct (H12 i s Hi) as (s2 & Hi2 & Hid2 & Hw2 & Hs2 & Hd2 & He2).
  destruct (H23 i s2 Hi2) as (s3 & Hi3 & Hid3 & Hw3 & Hs3 & Hd3 & He3).
  exists s3. split; [done|]. split; [congruence|]. split; [congruence|].
  split; [congruence|]. split; [tauto|].
  intros He. specialize (He2 He). subst s2. by apply He3.
Qed.

Lemma sessions_kept_replace l1 a a' l2 :
  session_kept a a' → sessions_kept (l1 ++ a :: l2) (l1 ++ a' :: l2).
Proof.
  intros Ha i s Hi. destruct (decide (i = length l1)) as [->|Hne].
  - rewrite lookup_app_r, Nat.sub_diag in Hi by lia. injection Hi as <-.
    exists a'. split; [|done]. by rewrite lookup_app_r, Nat.sub_diag by lia.
  - exists s. split; [|apply session_kept_refl].
    rewrite <- Hi, <- (insert_first_match l1 l2 a a').
    by rewrite list_lookup_insert_ne.
Qed.

Lemma sessions_kept_app l extra : sessions_kept l (l ++ extra).
Proof.
  intros i s Hi. exists s. split; [|apply session_kept_refl].
  by apply lookup_app_l_Some.
Qed.

Lemma update_walk_session_kept now w camera path_name has_dog st :
  sessions_kept (walk_sessions st)
    (walk_sessions (_update_walk_session now w camera path_name has_dog st)).
Proof.
  destruct (update_walk_session_cases now w camera path_name has_dog st)
    as [[_ ->]|(l1 & active & l2 & Hl & _ & [_ Hend] & _ & ->)].
  - apply sessions_kept_app.
  - rewrite Hl. apply sessions_kept_replace.
    split; [done|]. split; [done|]. split; [done|]. split.
    + cbn. intros ->. done.
    + by rewrite Hend.
Qed.

Lemma close_session_kept now w st :
  sessions_kept (walk_sessions st) (walk_sessions (close_session now w st)).
Proof.
  destruct (close_session_cases now w st)
    as [[_ ->]|(l1 & session & l2 & Hl & _ & [_ Hend] & ->)];
    [apply sessions_kept_refl|].
  cbn [walk_sessions set_walk_sessions]. rewrite Hl.
  apply sessions_kept_replace.
  split; [done|]. split; [done|]. split; [done|]. split; [done|].
  by rewrite Hend.
Qed.

(** The ways a call moves a tracker. *)
Lemma tracker_step_cases cfg st st' :
  tracker_step cfg st st' →
  (∃ now camera zone path_name has_dog pc dc w ws,
     resolved cfg now camera zone has_dog st w ws ∧
     st' = finish_detection cfg now camera zone path_name has_dog pc dc w
             (set_walkers ws st)) ∨
  st' = st ∨
  (∃ now w, st' = close_session now w st) ∨
  (∃ now w camera zone path_name,
     st' = record_exit now w camera zone path_name st) ∨
  (∃ now w image_path image_type camera quality_score,
     st' = save_walker_image cfg now w image_path image_type camera
             quality_score st).
Proof.
  intros [now camera zone path_name [] has_dog pc dc r st1 H1|now w
         |now w camera zone path_name|now w p t c q].
  - left. apply process_detection_Ok_inv in H1 as (w & ws & _ & Hres & ->).
    by eexists now, camera, zone, path_name, has_dog, pc, dc, w, ws.
  - right. left. cbn in H1. by injection H1 as _ <-.
  - right. right. left. by eexists _, _.
  - right. right. right. left. by eexists _, _, _, _, _.
  - right. right. right. right. by eexists _, _, _, _, _, _.
Qed.

Lemma tracker_step_sessions_kept cfg st st' :
  tracker_step cfg st st' →
  sessions_kept (walk_sessions st) (walk_sessions st').
Proof.
  intros [(now & camera & zone & path_name & has_dog & pc & dc & w & ws & _ & ->)
         |[->|[(now & w & ->)|[(now & w & camera & zone & path_name & ->)
         |(now & w & p & t & c & q & ->)]]]]%tracker_step_cases.
  - rewrite finish_detection_walk_sessions.
    apply (update_walk_session_kept now w camera path_name has_dog
             (set_walkers ws st)).
  - apply sessions_kept_refl.
  - apply close_session_kept.
  - apply sessions_kept_refl.
  - rewrite save_walker_image_walk_sessions. apply sessions_kept_refl.
Qed.

(** X3 (sessions are never taken back).  Along any calls of the writing
    methods, a session row stays at its place with its id, walker and start
    time; its dog flag, once true, stays true; and once it has an end time
    the row is never written again. *)
Theorem sessions_never_rewritten cfg st st' i s :
  rtc (tracker_step cfg) st st' →
  walk_sessions st !! i = Some s →
  ∃ s', walk_sessions st' !! i = Some s' ∧
        WalkSession.id s' = WalkSession.id s ∧
        WalkSession.walker_id s' = WalkSession.walker_id s ∧
        WalkSession.start_time s' = WalkSession.start_time s ∧
        (WalkSession.has_dog s = true → WalkSession.has_dog s' = true) ∧
        (WalkSession.end_time s ≠ None → s' = s).
Proof.
  intros Hrtc. revert i s.
  change (sessions_kept (walk_sessions st) (walk_sessions st')).
  induction Hrtc as [|st0 st1 st2 Hstep _ IH]; [apply sessions_kept_refl|].
  eapply sessions_kept_trans; [|exact IH].
  by eapply tracker_step_sessions_kept.
Qed.

Lemma closed_front_to_back :
  rtc (tracker_step (two_cameras 30)) closed_front back_after_close.
Proof.
  apply rtc_once.
  apply (step_process_detection (two_cameras 30) closed_front (seconds 12)
           "back" "alley" "south" true false (1 # 2) 0 (Some 1)
           back_after_close).
  vm_compute. reflexivity.
Defined.

Lemma sessions_never_rewritten_witness :
  ∃ s', walk_sessions back_after_close !! 0%nat = Some s' ∧
        WalkSession.id s' = 1 ∧
        WalkSession.walker_id s' = 1 ∧
        WalkSession.start_time s' = 0 ∧
        (false = true → WalkSession.has_dog s' = true) ∧
        (Some (seconds 9) ≠ None →
         s' = WalkSession.mk 1 1 0 (Some (seconds 9)) "front" "north" false).
Proof.
  apply (sessions_never_rewritten (two_cameras 30) closed_front back_after_close
           0 (WalkSession.mk 1 1 0 (Some (seconds 9)) "front" "north" false)).
  - exact closed_front_to_back.
  - vm_compute. reflexivity.
Defined.

Lemma walker_kept_refl w : walker_kept w w.
Proof. by repeat split. Qed.

Lemma walkers_kept_refl l : walkers_kept l l.
Proof. intros i w Hi. exists w. split; [done|apply walker_kept_refl]. Qed.

Lemma walkers_kept_trans l1 l2 l3 :
  walkers_kept l1 l2 → walkers_kept l2 l3 → walkers_kept l1 l3.
Proof.
  intros H12 H23 i w Hi.
  destruct (H12 i w Hi) as (w2 & Hi2 & Hid2 & Hf2 & Ht2).
  destruct (H23 i w2 Hi2) as (w3 & Hi3 & Hid3 & Hf3 & Ht3).
  exists w3. split; [done|]. repeat split; congruence.
Qed.

Lemma resolved_walkers_kept cfg now camera zone has_dog st w ws :
  resolved cfg now camera zone has_dog st w ws → walkers_kept (walkers st) ws.
Proof.
  intros [_ _ ->|i walker _ Hi _ _ ->] j x Hj.
  - exists x. split; [by apply lookup_app_l_Some|apply walker_kept_refl].
  - destruct (decide (i = j)) as [->|Hne].
    + rewrite Hi in Hj. injection Hj as <-.
      exists (Walker.set_last_seen now walker). split; [|done].
      apply list_lookup_insert_eq. by eapply lookup_lt_Some.
    + exists x. split; [|apply walker_kept_refl].
      by rewrite list_lookup_insert_ne.
Qed.

Lemma tracker_step_tables_kept cfg st st' :
  tracker_step cfg st st' →
  walkers_kept (walkers st) (walkers st') ∧
  detections st `prefix_of` detections st'.
Proof.
  intros [(now & camera & zone & path_name & has_dog & pc & dc & w & ws & Hres & ->)
         |[->|[(now & w & ->)|[(now & w & camera & zone & path_name & ->)
         |(now & w & p & t & c & q & ->)]]]]%tracker_step_cases.
  - rewrite finish_detection_walkers, finish_detection_detections.
    split; [by eapply resolved_walkers_kept|]. by eexists.
  - split; [apply walkers_kept_refl|done].
  - destruct (close_session_frame now w st) as (-> & _ & _).
    split; [apply walkers_kept_refl|].
    unfold close_session. by destruct (list_find _ _) as [[i s]|].
  - split; [apply walkers_kept_refl|]. by eexists.
  - rewrite save_walker_image_walkers.
    rewrite (proj1 (save_walker_image_frame _ _ _ _ _ _ _ _)).
    split; [apply walkers_kept_refl|done].
Qed.

(** X4 (walkers and detections are never deleted or rewritten).  Along any
    calls of the writing methods, the detection rows of the start are the
    first detection rows of the end, unchanged, and every walker row stays
    at its place with its id, its first-seen and its walk count. *)
Theorem history_never_rewritten cfg st st' :
  rtc (tracker_step cfg) st st' →
  detections st `prefix_of` detections st' ∧
  ∀ i w, walkers st !! i = Some w →
    ∃ w', walkers st' !! i = Some w' ∧
          Walker.id w' = Walker.id w ∧
          Walker.first_seen w' = Walker.first_seen w ∧
          Walker.total_walks w' = Walker.total_walks w.
Proof.
  intros Hrtc.
  change (detections st `prefix_of` detections st' ∧
          walkers_kept (walkers st) (walkers st')).
  induction Hrtc as [|st0 st1 st2 Hstep _ [IHd IHw]].
  - split; [done|apply walkers_kept_refl].
  - destruct (tracker_step_tables_kept _ _ _ Hstep) as [Hw Hd].
    split; [by etransitivity|]. by eapply walkers_kept_trans.
Qed.

Lemma history_never_rewritten_witness :
  detections closed_front `prefix_of` detections back_after_close ∧
  ∀ i w, walkers closed_front !! i = Some w →
    ∃ w', walkers back_after_close !! i = Some w' ∧
          Walker.id w' = Walker.id w ∧
          Walker.first_seen w' = Walker.first_seen w ∧
          Walker.total_walks w' = Walker.total_walks w.
Proof.
  apply (history_never_rewritten (two_cameras 30) closed_front back_after_close).
  exact closed_front_to_back.
Defined.

(** ** Walker ids *)

Lemma foldr_max_snoc (l : list Z) x :
  foldr Z.max 0 (l ++ [x]) = Z.max (foldr Z.max 0 l) (Z.max x 0).
Proof. induction l as [|y l IH]; cbn [foldr app]; lia. Qed.

Lemma next_rowid_seqZ (n : nat) :
  next_rowid (seqZ 1 (Z.of_nat n)) = Z.of_nat n + 1.
Proof.
  unfold next_rowid. induction n as [|n IH]; [done|].
  rewrite seqZ_S, foldr_max_snoc. lia.
Qed.

Lemma tracker_step_walkers_numbered cfg st st' :
  tracker_step cfg st st' → walkers_numbered st → walkers_numbered st'.
Proof.
  intros [(now & camera & zone & path_name & has_dog & pc & dc & w & ws & Hres & ->)
         |[->|[(now & w & ->)|[(now & w & camera & zone & path_name & ->)
         |(now & w & p & t & c & q & ->)]]]]%tracker_step_cases [Hids Hone];
    unfold walkers_numbered.
  - rewrite finish_detection_walkers. cbn [walkers set_walkers].
    destruct Hres as [_ -> ->|i walker _ Hi _ _ ->].
    + rewrite fmap_app, length_app, Hids. cbn [length fmap list_fmap Walker.id].
      rewrite next_rowid_seqZ. split.
      * replace (length (walkers st) + 1)%nat with (S (length (walkers st))) by lia.
        rewrite seqZ_S. do 2 f_equal. lia.
      * apply Forall_app. split; [done|]. by repeat constructor.
    + rewrite walker_ids_touch, length_insert by done. split; [done|].
      apply Forall_insert; [done|]. cbn.
      rewrite Forall_forall in Hone. apply Hone. by eapply list_elem_of_lookup_2.
  - done.
  - by destruct (close_session_frame now w st) as (-> & _ & _).
  - done.
  - by rewrite save_walker_image_walkers.
Qed.

(** X5 (walker ids count up from 1; the walk count stays 1).  Along any
    calls of the writing methods from a tracker whose walkers are numbered
    1, 2, ... with a walk count of 1 (the empty tracker is one), the walker
    ids are 1, 2, ... in row order, hence distinct, and the [total_walks]
    column is 1 in every row. *)
Theorem walker_ids_count_up cfg st st' :
  walkers_numbered st →
  rtc (tracker_step cfg) st st' →
  Walker.id <$> walkers st' = seqZ 1 (Z.of_nat (length (walkers st'))) ∧
  NoDup (Walker.id <$> walkers st') ∧
  Forall (λ w, Walker.total_walks w = 1) (walkers st').
Proof.
  intros Hst Hrtc.
  assert (walkers_numbered st') as [Hids Hone].
  { induction Hrtc as [|st0 st1 st2 Hstep _ IH]; [done|].
    apply IH. by eapply tracker_step_walkers_numbered. }
  split; [done|]. split; [|done]. rewrite Hids. apply NoDup_seqZ.
Qed.

Lemma empty_tracker_to_back :
  rtc (tracker_step (two_cameras 30)) empty_tracker back_after_close.
Proof.
  eapply rtc_l.
  { apply (step_process_detection (two_cameras 30) empty_tracker 0 "front"
             "street" "north" true false (1 # 2) 0 (Some 1) (seen_at_front 30)).
    vm_compute. reflexivity. }
  eapply rtc_l; [apply (step_close_session _ _ (seconds 9) 1)|].
  exact closed_front_to_back.
Defined.

Lemma walker_ids_count_up_witness :
  Walker.id <$> walkers back_after_close
    = seqZ 1 (Z.of_nat (length (walkers back_after_close))) ∧
  NoDup (Walker.id <$> walkers back_after_close) ∧
  Forall (λ w, Walker.total_walks w = 1) (walkers back_after_close).
Proof.
  apply (walker_ids_count_up (two_cameras 30) empty_tracker back_after_close).
  - split; [reflexivity|constructor].
  - exact empty_tracker_to_back.
Defined.

(** ** The statistics of a walker *)

Lemma empty_tracker_consistent : consistent_history empty_tracker.
Proof.
  split; [by intros x ?%elem_of_nil|]. split; [intros w; cbn; lia|done].
Qed.

Lemma resolved_ids cfg now camera zone has_dog st w ws x :
  resolved cfg now camera zone has_dog st w ws →
  x ∈ Walker.id <$> ws → x ∈ Walker.id <$> walkers st ∨ x = w.
Proof.
  intros [_ _ ->|i walker _ Hi _ _ ->].
  - rewrite fmap_app, elem_of_app. intros [?|Hx]; [by left|right].
    by apply list_elem_of_singleton in Hx.
  - rewrite walker_ids_touch by done. by left.
Qed.

(** The sessions of each walker before and after [_update_walk_session]:
    one more for the walker of the call or the same number, the dog flag of
    the call added. *)
Lemma update_walk_session_of now w camera path_name has_dog st w' :
  let upd := _update_walk_session now w camera path_name has_dog st in
  (length (sessions_of w' st) ≤ length (sessions_of w' upd))%nat ∧
  (length (sessions_of w' upd)
   ≤ length (sessions_of w' st) + (if decide (w' = w) then 1 else 0))%nat ∧
  (w' = w → sessions_of w' upd ≠ []) ∧
  existsb WalkSession.has_dog (sessions_of w' upd)
  = existsb WalkSession.has_dog (sessions_of w' st)
    || (bool_decide (w' = w) && has_dog).
Proof.
  intros upd. subst upd. unfold sessions_of.
  assert (∀ (l : list WalkSession.t) x, l ++ [x] ≠ []) as Hsnoc
    by (by intros [|??] ?).
  destruct (update_walk_session_cases now w camera path_name has_dog st)
    as [[_ ->]|(l1 & active & l2 & Hl & _ & [Hw _] & _ & ->)].
  - rewrite filter_app, filter_cons, filter_nil, length_app, existsb_app.
    cbn [WalkSession.walker_id].
    destruct (decide (w = w')) as [->|Hne].
    + rewrite decide_True, bool_decide_true by done.
      cbn [length existsb WalkSession.has_dog andb].
      split; [lia|]. split; [lia|]. split; [intros _; apply Hsnoc|].
      by rewrite orb_false_r.
    + rewrite decide_False, bool_decide_false by done.
      cbn [length existsb andb]. rewrite Nat.add_0_r, orb_false_r.
      split; [lia|]. split; [lia|]. split; [intros Heq; by destruct Hne|]. done.
  - rewrite Hl, !filter_app, !filter_cons, !length_app, !existsb_app.
    cbn [updated_session WalkSession.walker_id]. rewrite Hw.
    destruct (decide (w = w')) as [->|Hne].
    + rewrite decide_True, bool_decide_true by done.
      cbn [length existsb WalkSession.has_dog andb].
      split; [lia|]. split; [lia|]. split.
      * intros _ Hnil. apply (f_equal length) in Hnil.
        rewrite length_app in Hnil. cbn in Hnil. lia.
      * change (WalkSession.has_dog
                  (updated_session camera path_name has_dog active))
          with (WalkSession.has_dog active || has_dog).
        destruct (existsb _ (filter _ l1)), (WalkSession.has_dog active),
          has_dog, (existsb _ (filter _ l2)); done.
    + rewrite decide_False, bool_decide_false by done.
      cbn [andb]. rewrite orb_false_r. split; [lia|]. split; [lia|].
      split; [intros Heq; by destruct Hne|]. done.
Qed.

Lemma close_session_of now w st w' :
  length (sessions_of w' (close_session now w st)) = length (sessions_of w' st) ∧
  existsb WalkSession.has_dog (sessions_of w' (close_session now w st))
  = existsb WalkSession.has_dog (sessions_of w' st).
Proof.
  unfold sessions_of.
  destruct (close_session_cases now w st)
    as [[_ ->]|(l1 & session & l2 & Hl & _ & _ & ->)]; [done|].
  cbn [walk_sessions set_walk_sessions].
  rewrite Hl, !filter_app, !filter_cons, !length_app, !existsb_app.
  cbn [WalkSession.set_end_time WalkSession.walker_id].
  by case_decide.
Qed.

Lemma tracker_step_consistent cfg st st' :
  tracker_step cfg st st' → consistent_history st → consistent_history st'.
Proof.
  intros [(now & camera & zone & path_name & has_dog & pc & dc & w & ws & Hres & ->)
         |[->|[(now & w & ->)|[(now & w & camera & zone & path_name & ->)
         |(now & w & p & t & c & q & ->)]]]]%tracker_step_cases (H1 & H2 & H3).
  - set (st0 := set_walkers ws st).
    assert (∀ w', sessions_of w' (finish_detection cfg now camera zone path_name
                                    has_dog pc dc w st0)
                  = sessions_of w' (_update_walk_session now w camera path_name
                                      has_dog st)) as Hs.
    { intros w'. unfold sessions_of. rewrite finish_detection_walk_sessions.
      unfold _update_walk_session. cbn [st0 walk_sessions set_walkers].
      by destruct (list_find _ _) as [[j s]|]. }
    assert (∀ w', detections_of w' (finish_detection cfg now camera zone path_name
                                      has_dog pc dc w st0)
                  = detections_of w' st ++
                    (if decide (w = w') then
                       [Detection.mk (next_rowid (Detection.id <$> detections st))
                          w camera zone path_name now "enter" has_dog (Some pc)
                          (if has_dog then Some dc else None)]
                     else [])) as Hd.
    { intros w'. unfold detections_of. rewrite finish_detection_detections.
      cbn [st0 detections set_walkers].
      by rewrite filter_app, filter_cons, filter_nil. }
    split; [|split].
    + intros x Hx. rewrite Hs. rewrite finish_detection_walkers in Hx.
      destruct (update_walk_session_of now w camera path_name has_dog st x)
        as (Hle & _ & Hw & _).
      destruct (resolved_ids _ _ _ _ _ _ _ _ x Hres Hx) as [Hold|Heq];
        [|by apply Hw].
      apply H1 in Hold. intros Hnil. rewrite Hnil in Hle.
      destruct (sessions_of x st); [done|cbn in Hle; lia].
    + intros w'. rewrite Hs, Hd, length_app.
      destruct (update_walk_session_of now w camera path_name has_dog st w')
        as (_ & Hle & _ & _).
      specialize (H2 w').
      destruct (decide (w = w')) as [->|Hne]; cbn [length].
      * rewrite decide_True in Hle by done. lia.
      * rewrite decide_False in Hle by done. lia.
    + intros w'. rewrite Hs, Hd, existsb_app.
      destruct (update_walk_session_of now w camera path_name has_dog st w')
        as (_ & _ & _ & ->).
      rewrite H3. f_equal.
      destruct (decide (w = w')) as [->|Hne].
      * rewrite bool_decide_true by done. cbn. by rewrite orb_false_r.
      * by rewrite bool_decide_false.
  - done.
  - destruct (close_session_frame now w st) as (Hw & _ & _).
    assert (∀ w', detections_of w' (close_session now w st) = detections_of w' st)
      as Hd.
    { intros w'. unfold detections_of, close_session.
      by destruct (list_find _ _) as [[i s]|]. }
    split; [|split].
    + intros x Hx. rewrite Hw in Hx. apply H1 in Hx. intros Hnil.
      destruct (close_session_of now w st x) as [Hlen _].
      rewrite Hnil in Hlen. by destruct (sessions_of x st).
    + intros w'. destruct (close_session_of now w st w') as [-> _].
      rewrite Hd. apply H2.
    + intros w'. destruct (close_session_of now w st w') as [_ ->].
      rewrite Hd. apply H3.
  - assert (∀ w', sessions_of w'
                     (record_exit now w camera zone path_name st)
                   = sessions_of w' st) as Hs by done.
    assert (∀ w', detections_of w'
                     (record_exit now w camera zone path_name st)
                   = detections_of w' st ++
                     filter (λ d, Detection.walker_id d = w')
                       [Detection.mk (next_rowid (Detection.id <$> detections st))
                          w camera zone path_name now "leave" false None None])
      as Hd.
    { intros w'. unfold detections_of, record_exit.
      cbn [detections set_detections]. by rewrite filter_app. }
    split; [|split].
    + intros x Hx. rewrite Hs. by apply H1.
    + intros w'. rewrite Hs, Hd, length_app. specialize (H2 w'). lia.
    + intros w'. rewrite Hs, Hd, existsb_app, <- H3.
      rewrite filter_cons, filter_nil.
      case_decide; cbn [existsb Detection.has_dog]; by rewrite orb_false_r.
  - unfold consistent_history, sessions_of, detections_of.
    rewrite save_walker_image_walkers, save_walker_image_walk_sessions.
    by rewrite (proj1 (save_walker_image_frame _ _ _ _ _ _ _ _)).
Qed.

(** X6 (what the statistics of a walker say).  Along any calls of the
    writing methods from a tracker with a consistent history (the empty
    tracker is one), [get_all_walkers] gives, for every walker row and at its
    place, statistics that are not the empty dict, carry the id of the row,
    count at least one walk and no more walks than detections, and report a
    dog exactly when a session of the walker has the dog flag. *)
Theorem walker_stats_consistent cfg st st' i row :
  consistent_history st →
  rtc (tracker_step cfg) st st' →
  walkers st' !! i = Some row →
  ∃ stats,
    get_all_walkers st' !! i = Some (Some stats) ∧
    WalkerStats.walker_id stats = Walker.id row ∧
    1 ≤ WalkerStats.total_walks stats ≤ WalkerStats.total_detections stats ∧
    (WalkerStats.has_dog stats = true ↔
     ∃ s, s ∈ walk_sessions st' ∧ WalkSession.walker_id s = Walker.id row ∧
          WalkSession.has_dog s = true).
Proof.
  intros Hst Hrtc Hi.
  assert (consistent_history st') as (H1 & H2 & H3).
  { clear Hi. induction Hrtc as [|st0 st1 st2 Hstep _ IH]; [done|].
    apply IH. by eapply tracker_step_consistent. }
  unfold get_all_walkers. rewrite list_lookup_fmap, Hi. cbn [fmap option_fmap option_map].
  unfold get_walker_stats.
  destruct (list_find_elem_of (λ w, Walker.id w = Walker.id row) (walkers st') row)
    as [[j walker] ->]; [by eapply list_elem_of_lookup_2|done|].
  eexists. split; [done|].
  cbn [WalkerStats.walker_id WalkerStats.total_walks WalkerStats.total_detections
       WalkerStats.has_dog].
  split; [done|].
  fold (sessions_of (Walker.id row) st') (detections_of (Walker.id row) st').
  split.
  - specialize (H2 (Walker.id row)).
    assert (sessions_of (Walker.id row) st' ≠ []) as Hne.
    { apply H1. apply list_elem_of_fmap_2. by eapply list_elem_of_lookup_2. }
    destruct (sessions_of (Walker.id row) st'); [done|]. cbn [length] in *. lia.
  - rewrite H3, existsb_exists. unfold sessions_of. split.
    + intros (s & Hs%list_elem_of_In%list_elem_of_filter & Hdog).
      exists s. tauto.
    + intros (s & Hs & Hw & Hdog). exists s. split; [|done].
      apply list_elem_of_In, list_elem_of_filter. by split.
Qed.

Lemma walker_stats_consistent_witness :
  ∃ stats,
    get_all_walkers back_after_close !! 0%nat = Some (Some stats) ∧
    WalkerStats.walker_id stats = 1 ∧
    1 ≤ WalkerStats.total_walks stats ≤ WalkerStats.total_detections stats ∧
    (WalkerStats.has_dog stats = true ↔
     ∃ s, s ∈ walk_sessions back_after_close ∧ WalkSession.walker_id s = 1 ∧
          WalkSession.has_dog s = true).
Proof.
  apply (walker_stats_consistent (two_cameras 30) empty_tracker back_after_close
           0 (Walker.mk 1 0 (seconds 12) 1)).
  - exact empty_tracker_consistent.
  - exact empty_tracker_to_back.
  - vm_compute. reflexivity.
Defined.

(** ** More on the retention of images *)

Lemma with_image_ids_unique now w p t c q st :
  image_ids_unique st → image_ids_unique (with_image now w p t c q st).
Proof.
  unfold image_ids_unique, with_image. cbn [walker_images set_walker_images].
  intros Hnd. rewrite fmap_app. apply NoDup_app. split; [done|].
  split; [|apply NoDup_singleton].
  intros x Hx ->%list_elem_of_singleton. by apply next_rowid_fresh in Hx.
Qed.

Lemma with_image_images_of now w p t c q st :
  images_of w (with_image now w p t c q st) =
  images_of w st ++
    [WalkerImage.mk (next_rowid (WalkerImage.id <$> walker_images st))
       w p t now c q].
Proof.
  unfold images_of, with_image. cbn [walker_images set_walker_images].
  by rewrite filter_app, filter_cons, decide_True.
Qed.

Lemma cleanup_old_images_evicted w max_images st :
  _cleanup_old_images w max_images st =
  foldl evict st (evicted_by w max_images st).
Proof. unfold _cleanup_old_images, evicted_by. cbn zeta. by case_decide. Qed.

Lemma evicted_by_in_table w max_images st e :
  e ∈ evicted_by w max_images st →
  e ∈ walker_images st ∧ WalkerImage.walker_id e = w.
Proof.
  unfold evicted_by, slice_from. cbn zeta. intros He.
  apply (ranked_in_table w st).
  repeat case_decide; try (by apply elem_of_nil in He);
    by eapply subseteq_drop.
Qed.

(** What is left of the walker's images when the tail of the ranking after
    its first [m] images is evicted. *)
Lemma evict_tail_images_of w (m : nat) st :
  image_ids_unique st →
  let ranked := merge_sort ranks_before (images_of w st) in
  images_of w (foldl evict st (drop m ranked)) ≡ₚ take m ranked.
Proof.
  intros Hnd ranked. unfold images_of at 1.
  rewrite evict_all_images, list_filter_filter.
  rewrite (list_filter_iff _
             (λ r, (WalkerImage.id r ∉ WalkerImage.id <$> drop m ranked) ∧
                   WalkerImage.walker_id r = w)) by (intros r; tauto).
  rewrite <- list_filter_filter.
  change (filter (λ r, WalkerImage.walker_id r = w) (walker_images st))
    with (images_of w st).
  transitivity
    (filter (λ r, WalkerImage.id r ∉ WalkerImage.id <$> drop m ranked) ranked).
  { f_equiv. symmetry. apply merge_sort_Permutation. }
  rewrite <- (take_drop m ranked) at 1.
  rewrite filter_app, filter_all, filter_none, app_nil_r; [done| |].
  - apply Forall_forall. intros e He Hn. apply Hn. by apply list_elem_of_fmap_2.
  - apply Forall_forall. intros k Hk.
    pose proof (ranked_ids_unique w st Hnd) as Hu. fold ranked in Hu.
    rewrite <- (take_drop m ranked), fmap_app in Hu.
    apply NoDup_app in Hu as (_ & Hdisj & _). apply Hdisj.
    by apply list_elem_of_fmap_2.
Qed.

(** X7 (the clean-up settles).  With a limit that is not negative and
    distinct image ids, running [_cleanup_old_images] again for the same
    walker and limit changes nothing. *)
Theorem cleanup_old_images_idempotent w max_images st :
  0 ≤ max_images →
  image_ids_unique st →
  _cleanup_old_images w max_images (_cleanup_old_images w max_images st)
  = _cleanup_old_images w max_images st.
Proof.
  intros Hmax Hnd.
  pose proof (cleaned_images_of_walker w max_images st Hmax Hnd) as Hkept.
  unfold _cleanup_old_images at 1. cbn zeta.
  rewrite decide_False; [done|].
  rewrite merge_sort_Permutation, Hkept, length_take. lia.
Qed.

Lemma cleanup_old_images_idempotent_witness :
  _cleanup_old_images 7 1 (_cleanup_old_images 7 1 two_images)
  = _cleanup_old_images 7 1 two_images.
Proof.
  apply (cleanup_old_images_idempotent 7 1 two_images).
  - discriminate.
  - apply (bool_decide_unpack _). by vm_compute.
Defined.

(** X8 (a negative limit).  With a limit [-k] below zero and distinct image
    ids, [save_walker_image] leaves the walker the first [n - k] images of
    the ranking, where [n] counts the walker's images with the new one, and
    none when [n <= k]: the slice [images[max_images:]] counts from the
    end. *)
Theorem save_walker_image_negative_limit cfg now w image_path image_type camera
    quality_score st :
  max_images_per_walker cfg < 0 →
  image_ids_unique st →
  let walker_image :=
    WalkerImage.mk (next_rowid (WalkerImage.id <$> walker_images st))
      w image_path image_type now camera quality_score in
  let st' :=
    save_walker_image cfg now w image_path image_type camera quality_score st in
  let ranked := merge_sort ranks_before (images_of w st ++ [walker_image]) in
  let n := Z.of_nat (length (images_of w st)) + 1 in
  images_of w st' ≡ₚ take (Z.to_nat (n + max_images_per_walker cfg)) ranked ∧
  Z.of_nat (length (images_of w st')) = Z.max 0 (n + max_images_per_walker cfg).
Proof.
  intros Hneg Hnd walker_image st' ranked n.
  set (st_ins := with_image now w image_path image_type camera quality_score st).
  assert (Z.of_nat (length ranked) = n) as Hlen.
  { unfold ranked, n. rewrite merge_sort_Permutation, length_app. cbn. lia. }
  assert (merge_sort ranks_before (images_of w st_ins) = ranked) as Hr.
  { unfold st_ins. by rewrite with_image_images_of. }
  pose proof (evict_tail_images_of w (Z.to_nat (n + max_images_per_walker cfg))
                st_ins (with_image_ids_unique _ _ _ _ _ _ _ Hnd)) as Hperm.
  cbn zeta in Hperm. rewrite Hr in Hperm.
  assert (st' = foldl evict st_ins
                  (drop (Z.to_nat (n + max_images_per_walker cfg)) ranked)) as ->.
  { change st' with (_cleanup_old_images w (max_images_per_walker cfg) st_ins).
    unfold _cleanup_old_images. cbn zeta. rewrite Hr.
    rewrite decide_True by lia. unfold slice_from.
    rewrite decide_False by lia. by rewrite Hlen. }
  split; [done|]. rewrite Hperm, length_take. lia.
Qed.

Lemma save_walker_image_negative_limit_witness :
  let cfg := {| cameras := ∅; cross_camera_window := 30;
                min_person_confidence := 1 # 2; max_images_per_walker := -1;
                storage_path := "images" |} in
  let walker_image := WalkerImage.mk 3 7 "c.jpg" "person" 3 "back" (7 # 10) in
  let st' := save_walker_image cfg 3 7 "c.jpg" "person" "back" (7 # 10) two_images in
  let ranked :=
    merge_sort ranks_before (images_of 7 two_images ++ [walker_image]) in
  let n := Z.of_nat (length (images_of 7 two_images)) + 1 in
  images_of 7 st' ≡ₚ take (Z.to_nat (n + -1)) ranked ∧
  Z.of_nat (length (images_of 7 st')) = Z.max 0 (n + -1).
Proof.
  intros cfg.
  apply (save_walker_image_negative_limit cfg 3 7 "c.jpg" "person" "back"
           (7 # 10) two_images).
  - reflexivity.
  - apply (bool_decide_unpack _). by vm_compute.
Defined.

(** X9 (the best image stays).  With a limit of at least 1 and distinct
    image ids, an image that no stored image of the walker ranks before (a
    higher quality score, or the same score and a later timestamp, than each
    of them) is among the walker's images after [save_walker_image]. *)
Theorem best_image_kept cfg now w image_path image_type camera quality_score st :
  1 ≤ max_images_per_walker cfg →
  image_ids_unique st →
  let walker_image :=
    WalkerImage.mk (next_rowid (WalkerImage.id <$> walker_images st))
      w image_path image_type now camera quality_score in
  (∀ r, r ∈ images_of w st → ¬ ranks_before r walker_image) →
  walker_image ∈
    images_of w
      (save_walker_image cfg now w image_path image_type camera quality_score st).
Proof.
  intros Hmax Hnd walker_image Hbest.
  set (st_ins := with_image now w image_path image_type camera quality_score st).
  change (save_walker_image cfg now w image_path image_type camera
            quality_score st)
    with (_cleanup_old_images w (max_images_per_walker cfg) st_ins).
  rewrite (cleaned_images_of_walker w _ st_ins)
    by (lia || apply with_image_ids_unique, Hnd).
  unfold st_ins. rewrite with_image_images_of. fold walker_image.
  pose proof (StronglySorted_merge_sort ranks_before
                (images_of w st ++ [walker_image])) as Hs.
  pose proof (merge_sort_Permutation ranks_before
                (images_of w st ++ [walker_image])) as Hp.
  destruct (merge_sort ranks_before (images_of w st ++ [walker_image]))
    as [|h tl].
  { apply Permutation_nil_l in Hp. by destruct (images_of w st). }
  assert (h = walker_image) as ->.
  { assert (h ∈ images_of w st ++ [walker_image]) as Hh
      by (rewrite <- Hp; by left).
    apply elem_of_app in Hh as [Hh|Hh]; [|by apply list_elem_of_singleton in Hh].
    destruct (Hbest h Hh).
    assert (walker_image ∈ h :: tl) as [Heq|Hin]%elem_of_cons
      by (rewrite Hp; apply elem_of_app; right; by left).
    - rewrite <- Heq.
      destruct (total ranks_before walker_image walker_image); done.
    - apply StronglySorted_cons in Hs as [Hall _].
      rewrite Forall_forall in Hall. by apply Hall. }
  destruct (Z.to_nat (max_images_per_walker cfg)) eqn:Hm; [lia|]. by left.
Qed.

Lemma best_image_kept_witness :
  WalkerImage.mk 3 7 "c.jpg" "person" 3 "back" (9 # 10) ∈
    images_of 7
      (save_walker_image (two_cameras 30) 3 7 "c.jpg" "person" "back" (9 # 10)
         two_images).
Proof.
  apply (best_image_kept (two_cameras 30) 3 7 "c.jpg" "person" "back" (9 # 10)
           two_images).
  - vm_compute. discriminate.
  - apply (bool_decide_unpack _). by vm_compute.
  - intros r Hr. vm_compute in Hr.
    apply elem_of_cons in Hr as [->|Hr]; [by vm_compute|].
    apply list_elem_of_singleton in Hr as ->. by vm_compute.
Defined.

(** X10 (kept images keep their files).  When the image paths of the table,
    the new one included, are distinct, every image row left by
    [save_walker_image] whose file existed before the call still has its
    file; and the call creates no file. *)
Theorem kept_images_keep_files cfg now w image_path image_type camera
    quality_score st :
  NoDup (WalkerImage.image_path <$>
           walker_images
             (with_image now w image_path image_type camera quality_score st)) →
  let st' :=
    save_walker_image cfg now w image_path image_type camera quality_score st in
  (∀ r, r ∈ walker_images st' →
        WalkerImage.image_path r ∈ files st →
        WalkerImage.image_path r ∈ files st') ∧
  files st' ⊆ files st.
Proof.
  intros Hnd st'.
  set (st_ins := with_image now w image_path image_type camera quality_score st)
    in *.
  change st' with (_cleanup_old_images w (max_images_per_walker cfg) st_ins).
  rewrite cleanup_old_images_evicted. split.
  - intros r Hr Hfile. apply evict_all_files. split; [done|].
    rewrite evict_all_images in Hr.
    apply list_elem_of_filter in Hr as [Hid Hr].
    intros (e & Hpath & He)%list_elem_of_fmap. apply Hid.
    pose proof (evicted_by_in_table _ _ _ _ He) as [He' _].
    assert (r = e) as -> by (by eapply (NoDup_fmap_eq WalkerImage.image_path)).
    by apply list_elem_of_fmap_2.
  - intros p [Hp _]%evict_all_files. done.
Qed.

Lemma kept_images_keep_files_witness :
  let st' :=
    save_walker_image (two_cameras 30) 3 7 "c.jpg" "person" "back" (7 # 10)
      two_images in
  (∀ r, r ∈ walker_images st' →
        WalkerImage.image_path r ∈ files two_images →
        WalkerImage.image_path r ∈ files st') ∧
  files st' ⊆ files two_images.
Proof.
  apply (kept_images_keep_files (two_cameras 30) 3 7 "c.jpg" "person" "back"
           (7 # 10) two_images).
  apply (bool_decide_unpack _). by vm_compute.
Defined.

(** ** What the feed can change *)

Lemma process_event_database cfg world payload st st' :
  _process_event cfg world payload st = Ok st' →
  same_database st st' ∧ files st ⊆ files st'.
Proof.
  unfold _process_event. destruct payload as [| |e|]; try done.
  repeat case_decide; try (intros [= <-]; by repeat split);
    (destruct (_ && _); [|intros [= <-]; by repeat split]);
    unfold _capture_event_snapshot, download; cbn zeta;
    (destruct (download_ok world); intros [= <-]; cbn; [|by repeat split]);
    (split; [by repeat split|]; apply union_subseteq_r).
Qed.

(** X11 (what reaches the tracker).  Unless the topic is
    [frigate/<camera>/person] for a configured camera with a count above
    zero, [_handle_frigate_event] leaves the four tables and the evidence
    window as they are and deletes no file; off the topic
    [frigate/events] it leaves the whole tracker as it is. *)
Theorem handle_frigate_event_drops cfg now world topic payload st :
  (∀ camera, split "/" topic = ["frigate"; camera; "person"] →
             cameras cfg !! camera = None ∨ count_of payload ≤ 0) →
  let st' := _handle_frigate_event cfg now world topic payload st in
  same_database st st' ∧ files st ⊆ files st' ∧
  (topic ≠ "frigate/events" → st' = st).
Proof.
  intros Hdrop st'. subst st'. unfold _handle_frigate_event. cbn zeta.
  case_decide as Htopic.
  - destruct (_process_event cfg world payload st) as [st'|] eqn:He.
    + apply process_event_database in He as [Hdb Hf]. by split.
    + by repeat split.
  - assert (match
              match split "/" topic with
              | [p0; camera; object_type] =>
                  if decide (p0 = "frigate") then
                    _process_detection cfg now world camera object_type payload st
                  else Ok st
              | _ => Ok st
              end
            with Ok st' => st' | Raise _ => st end = st) as ->;
      [|by repeat split].
    destruct (split "/" topic) as [|p0 [|camera [|object_type [|? ?]]]]; try done.
    case_decide as Hp0; [subst p0|done].
    unfold _process_detection.
    destruct (cameras cfg !! camera) as [cc|] eqn:Hcam; [|done].
    cbn zeta. case_decide as Hgo; [|done].
    destruct Hgo as [-> Hcount].
    destruct (Hdrop camera eq_refl) as [Hnone|Hle]; [congruence|lia].
Qed.

Lemma handle_frigate_event_drops_witness :
  let st' :=
    _handle_frigate_event (two_cameras 30) (seconds 3)
      (Build_World "20260101_120000" true) "frigate/garage/person" (PInt 2)
      (seen_at_front 30) in
  same_database (seen_at_front 30) st' ∧ files (seen_at_front 30) ⊆ files st' ∧
  ("frigate/garage/person" ≠ "frigate/events" → st' = seen_at_front 30).
Proof.
  apply (handle_frigate_event_drops (two_cameras 30) (seconds 3)
           (Build_World "20260101_120000" true) "frigate/garage/person" (PInt 2)
           (seen_at_front 30)).
  intros camera Hsplit. vm_compute in Hsplit. injection Hsplit as <-.
  left. by vm_compute.
Defined.

Lemma split_topic (camera object_type : string) :
  free_of "/" camera → free_of "/" object_type →
  split "/" ("frigate/" +:+ camera +:+ "/" +:+ object_type)
  = ["frigate"; camera; object_type].
Proof.
  intros Hc Ho.
  apply (split_concat "/" ["frigate"; camera; object_type]); [done|].
  repeat constructor; [|done..].
  unfold free_of. apply (bool_decide_unpack _). by vm_compute.
Qed.

(** X12 (dog counts are not used).  A message on [frigate/<camera>/dog],
    the topic the client subscribes to for dog counts, leaves the tracker as
    it is, whatever the camera and the payload. *)
Theorem dog_counts_ignored cfg now world camera payload st :
  free_of "/" camera →
  _handle_frigate_event cfg now world ("frigate/" +:+ camera +:+ "/dog")
    payload st = st.
Proof.
  intros Hc. unfold _handle_frigate_event. cbn zeta.
  assert (split "/" ("frigate/" +:+ camera +:+ "/dog") = ["frigate"; camera; "dog"])
    as Hsplit.
  { apply (split_topic camera "dog"); [done|].
    unfold free_of. apply (bool_decide_unpack _). by vm_compute. }
  rewrite decide_False.
  - rewrite Hsplit. rewrite decide_True by done.
    unfold _process_detection. destruct (cameras cfg !! camera); [|done].
    cbn zeta. by rewrite decide_False by (by intros [[=] _]).
  - intros Heq. rewrite Heq in Hsplit. by vm_compute in Hsplit.
Qed.

Lemma dog_counts_ignored_witness :
  _handle_frigate_event (two_cameras 30) (seconds 3)
    (Build_World "20260101_120000" true) ("frigate/" +:+ "front" +:+ "/dog")
    (PInt 1) (seen_at_front 30) = seen_at_front 30.
Proof.
  apply (dog_counts_ignored (two_cameras 30) (seconds 3)
           (Build_World "20260101_120000" true) "front" (PInt 1)
           (seen_at_front 30)).
  unfold free_of. apply (bool_decide_unpack _). by vm_compute.
Defined.

(** ** Sessions on the live path *)

Lemma empty_tracker_never_closed : never_closed empty_tracker.
Proof.
  split; [apply empty_tracker_consistent|].
  split; [intros w; cbn; lia|constructor].
Qed.

Lemma never_closed_same_history st st' :
  walkers st' = walkers st → detections st' = detections st →
  walk_sessions st' = walk_sessions st →
  never_closed st → never_closed st'.
Proof.
  unfold never_closed, consistent_history, one_open, sessions_of, detections_of,
    open_sessions.
  by intros -> -> ->.
Qed.

Lemma update_walk_session_all_open now w camera path_name has_dog st :
  Forall (λ s, WalkSession.end_time s = None) (walk_sessions st) →
  Forall (λ s, WalkSession.end_time s = None)
    (walk_sessions (_update_walk_session now w camera path_name has_dog st)).
Proof.
  intros Hall.
  destruct (update_walk_session_cases now w camera path_name has_dog st)
    as [[_ ->]|(l1 & active & l2 & Hl & _ & [_ Hend] & _ & ->)].
  - apply Forall_app. split; [done|]. by repeat constructor.
  - rewrite Hl in Hall. apply Forall_app in Hall as [Hl1 Hl2].
    apply Forall_cons in Hl2 as [_ Hl2].
    apply Forall_app. split; [done|]. by constructor.
Qed.

Lemma process_detection_never_closed cfg now camera zone path_name has_dog pc dc
    st r st' :
  process_detection cfg now camera zone path_name true has_dog pc dc st
    = Ok (r, st') →
  never_closed st → never_closed st'.
Proof.
  intros Hrun (Hc & Hone & Hall).
  pose proof (step_process_detection cfg st now camera zone path_name true
                has_dog pc dc r st' Hrun) as Hstep.
  split; [by eapply tracker_step_consistent|].
  split; [by eapply tracker_step_one_open|].
  apply process_detection_Ok_inv in Hrun as (w & ws & _ & _ & ->).
  rewrite finish_detection_walk_sessions.
  by apply (update_walk_session_all_open now w camera path_name has_dog
              (set_walkers ws st)).
Qed.

Lemma capture_latest_frame_history cfg now world w camera type st :
  let st' := _capture_latest_frame cfg now world w camera type st in
  walkers st' = walkers st ∧ detections st' = detections st ∧
  walk_sessions st' = walk_sessions st.
Proof.
  unfold _capture_latest_frame, download. cbn zeta.
  destruct (download_ok world); [|done].
  rewrite save_walker_image_walkers, save_walker_image_walk_sessions.
  by rewrite (proj1 (save_walker_image_frame _ _ _ _ _ _ _ _)).
Qed.

Lemma handle_frigate_event_never_closed cfg now world topic payload st :
  never_closed st →
  never_closed (_handle_frigate_event cfg now world topic payload st).
Proof.
  intros Hst. unfold _handle_frigate_event. cbn zeta. case_decide.
  - destruct (_process_event cfg world payload st) as [st'|] eqn:He; [|done].
    apply process_event_database in He as [(Hw & Hd & Hs & _) _].
    by eapply never_closed_same_history.
  - destruct (split "/" topic) as [|p0 [|camera [|object_type [|? ?]]]]; try done.
    case_decide; [|done]. unfold _process_detection.
    destruct (cameras cfg !! camera) as [cc|]; [|done].
    cbn zeta. case_decide; [|done].
    destruct (process_detection _ _ _ _ _ _ _ _ _ _) as [[r st1]|] eqn:Hrun;
      [|done].
    pose proof (process_detection_never_closed _ _ _ _ _ _ _ _ _ _ _ Hrun Hst)
      as Hst1.
    destruct r as [w|]; [|done]. case_decide; [|done].
    destruct (capture_latest_frame_history cfg now world w camera "person" st1)
      as (Hw & Hd & Hs).
    by eapply never_closed_same_history.
Qed.

(** X13 (the feed never closes a session).  From a tracker with a consistent
    history in which no session is closed (the empty tracker is one),
    whatever events the feed delivers, no session has an end time, and the
    statistics of every walker count exactly one walk. *)
Theorem feed_never_closes_a_session cfg events st :
  never_closed st →
  let st' := handle_all cfg events st in
  Forall (λ s, WalkSession.end_time s = None) (walk_sessions st') ∧
  ∀ i row, walkers st' !! i = Some row →
    ∃ stats, get_all_walkers st' !! i = Some (Some stats) ∧
             WalkerStats.walker_id stats = Walker.id row ∧
             WalkerStats.total_walks stats = 1.
Proof.
  intros Hst st'.
  assert (never_closed st') as ((H1 & _ & _) & Hone & Hall).
  { subst st'. unfold handle_all. revert st Hst.
    induction events as [|[[[now world] topic] payload] events IH];
      intros st Hst; [done|].
    cbn [foldl]. by apply IH, handle_frigate_event_never_closed. }
  split; [done|]. intros i row Hi.
  unfold get_all_walkers. rewrite list_lookup_fmap, Hi.
  cbn [fmap option_fmap option_map]. unfold get_walker_stats.
  destruct (list_find_elem_of (λ w, Walker.id w = Walker.id row) (walkers st') row)
    as [[j walker] ->]; [by eapply list_elem_of_lookup_2|done|].
  eexists. split; [done|]. split; [done|].
  cbn [WalkerStats.total_walks].
  fold (sessions_of (Walker.id row) st').
  assert (sessions_of (Walker.id row) st' = open_sessions (Walker.id row) st')
    as Heq.
  { unfold sessions_of, open_sessions. apply filter_iff_in. intros s Hs.
    rewrite Forall_forall in Hall. unfold is_active. specialize (Hall s Hs).
    tauto. }
  pose proof (Hone (Walker.id row)) as Hle. rewrite <- Heq in Hle.
  assert (sessions_of (Walker.id row) st' ≠ []) as Hne.
  { apply H1. apply list_elem_of_fmap_2. by eapply list_elem_of_lookup_2. }
  destruct (sessions_of (Walker.id row) st') as [|s [|??]]; [done|done|].
  cbn in Hle. lia.
Qed.

Lemma feed_never_closes_a_session_witness :
  let st' := handle_all (two_cameras 120) two_front_counts empty_tracker in
  Forall (λ s, WalkSession.end_time s = None) (walk_sessions st') ∧
  ∀ i row, walkers st' !! i = Some row →
    ∃ stats, get_all_walkers st' !! i = Some (Some stats) ∧
             WalkerStats.walker_id stats = Walker.id row ∧
             WalkerStats.total_walks stats = 1.
Proof.
  apply (feed_never_closes_a_session (two_cameras 120) two_front_counts
           empty_tracker).
  exact empty_tracker_never_closed.
Defined.

(** ** Sorting by a key, largest first *)

Section sorted_desc.
Context {A : Type} (key : A → Z).

Lemma insert_desc_Permutation x l : insert_desc key x l ≡ₚ x :: l.
Proof.
  induction l as [|y l IH]; [done|]. cbn [insert_desc]. case_decide; [|done].
  rewrite IH. apply Permutation_swap.
Qed.

Lemma sorted_desc_Permutation l : sorted_desc key l ≡ₚ l.
Proof.
  induction l as [|x l IH]; [done|]. cbn [sorted_desc foldr].
  rewrite insert_desc_Permutation. by constructor.
Qed.

Lemma elem_of_sorted_desc x l : x ∈ sorted_desc key l ↔ x ∈ l.
Proof. by rewrite sorted_desc_Permutation. Qed.

Lemma insert_desc_sorted x l :
  StronglySorted (λ a b, key b ≤ key a) l →
  StronglySorted (λ a b, key b ≤ key a) (insert_desc key x l).
Proof.
  induction l as [|y l IH]; intros Hl; cbn [insert_desc].
  - repeat constructor.
  - apply StronglySorted_inv in Hl as [Hl Hy]. case_decide as Hxy.
    + constructor; [by apply IH|].
      rewrite insert_desc_Permutation. constructor; [lia|done].
    + constructor; [by constructor|]. constructor; [lia|].
      eapply Forall_impl; [exact Hy|]. cbn. intros z Hz. lia.
Qed.

Lemma sorted_desc_sorted l :
  StronglySorted (λ a b, key b ≤ key a) (sorted_desc key l).
Proof.
  induction l as [|x l IH]; [constructor|]. by apply insert_desc_sorted.
Qed.

(** Elements of equal key keep their order. *)
Lemma insert_desc_stable k x l :
  filter (λ y, key y = k) (insert_desc key x l) = filter (λ y, key y = k) (x :: l).
Proof.
  induction l as [|y l IH]; [done|]. cbn [insert_desc]. case_decide as Hxy; [|done].
  rewrite filter_cons, IH, !filter_cons.
  destruct (decide (key y = k)), (decide (key x = k)); try done. lia.
Qed.

Lemma sorted_desc_stable k l :
  filter (λ y, key y = k) (sorted_desc key l) = filter (λ y, key y = k) l.
Proof.
  induction l as [|x l IH]; [done|]. cbn [sorted_desc foldr].
  rewrite insert_desc_stable, !filter_cons. fold (sorted_desc key l).
  by rewrite IH.
Qed.

End sorted_desc.

(** ** Regular walkers *)

Lemma remove_dups_length `{EqDecision A} (l : list A) :
  (length (remove_dups l) ≤ length l)%nat.
Proof.
  induction l as [|x l IH]; [done|]. cbn [remove_dups].
  destruct (decide_rel _ _ _); cbn [length]; lia.
Qed.

Lemma remove_dups_not_nil `{EqDecision A} (l : list A) :
  l ≠ [] → remove_dups l ≠ [].
Proof.
  destruct l as [|x l]; [done|]. intros _ Heq.
  assert (x ∈ remove_dups (x :: l)) as Hx by (apply elem_of_remove_dups; by left).
  rewrite Heq in Hx. by apply elem_of_nil in Hx.
Qed.

Lemma omap_ids_sublist {A B} (f : A → option B) (g : A → Z) (h : B → Z)
    (l : list A) :
  (∀ x y, f x = Some y → h y = g x) →
  h <$> omap f l `sublist_of` g <$> l.
Proof.
  intros Hf. induction l as [|x l IH]; [done|]. cbn [omap list_omap fmap list_fmap].
  destruct (f x) as [y|] eqn:Hy.
  - cbn [fmap list_fmap]. rewrite (Hf x y Hy). by constructor.
  - by constructor.
Qed.

Lemma elem_of_regular_walkers acfg now days_arg st r :
  let cutoff_date :=
    now - WalkerAnalytics.days (default (regular_walker_days acfg) days_arg) in
  r ∈ WalkerAnalytics.get_regular_walkers acfg now days_arg st ↔
  ∃ walker,
    let sessions :=
      WalkerAnalytics.sessions_since cutoff_date (Walker.id walker) st in
    walker ∈ walkers st ∧ cutoff_date ≤ Walker.first_seen walker ∧
    3 ≤ Z.of_nat (length sessions) ∧
    r = RegularWalker.mk (Walker.id walker) (Z.of_nat (length sessions))
          (Z.of_nat (length (remove_dups
             ((λ s, WalkerAnalytics.date (WalkSession.start_time s)) <$> sessions))))
          (Walker.first_seen walker) (Walker.last_seen walker)
          (existsb WalkSession.has_dog sessions).
Proof.
  intros cutoff_date. unfold WalkerAnalytics.get_regular_walkers. cbn zeta.
  fold cutoff_date. rewrite elem_of_sorted_desc, list_elem_of_omap. split.
  - intros (walker & [Hfirst Hin]%list_elem_of_filter & Hr). exists walker.
    case_decide; [|done]. injection Hr as <-. by repeat split.
  - intros (walker & Hin & Hfirst & Hlen & ->). exists walker.
    split; [by apply list_elem_of_filter|]. by rewrite decide_True.
Qed.

Lemma walk_step now camera zone path_name has_dog st :
  (∃ r, process_detection (two_cameras 30) now camera zone path_name true has_dog
          (1 # 2) (1 # 2) st = Ok r) →
  tracker_step (two_cameras 30) st (walk now camera zone path_name has_dog st).
Proof.
  intros [[r st'] Hrun]. unfold walk. rewrite Hrun. cbn [tracker_of].
  by eapply step_process_detection.
Qed.

Lemma three_walks_reachable has_dog :
  rtc (tracker_step (two_cameras 30)) empty_tracker (three_walks has_dog).
Proof.
  unfold three_walks.
  set (st1 := walk 0 "front" "street" "north" has_dog empty_tracker).
  set (st2 := walk (seconds 12) "back" "alley" "south" has_dog
                (close_session (seconds 9) 1 st1)).
  apply (rtc_l _ _ st1).
  { apply walk_step. destruct has_dog; eexists; by vm_compute. }
  apply (rtc_l _ _ (close_session (seconds 9) 1 st1)); [apply step_close_session|].
  apply (rtc_l _ _ st2).
  { apply walk_step. destruct has_dog; eexists; by vm_compute. }
  apply (rtc_l _ _ (close_session (seconds 20) 1 st2)); [apply step_close_session|].
  apply rtc_once, walk_step. destruct has_dog; eexists; by vm_compute.
Qed.

Lemma reachable_consistent cfg st :
  rtc (tracker_step cfg) empty_tracker st → consistent_history st.
Proof.
  pose proof empty_tracker_consistent as H0. revert H0. generalize empty_tracker.
  induction 2 as [|st0 st1 st2 Hstep _ IH]; [done|].
  apply IH. by eapply tracker_step_consistent.
Qed.

Lemma regular_min_sessions acfg now days_arg st r :
  r ∈ WalkerAnalytics.get_regular_walkers acfg now days_arg st →
  3 ≤ RegularWalker.sessions_count r.
Proof. by intros (walker & _ & _ & Hlen & ->)%elem_of_regular_walkers. Qed.

(** X14 (regular walkers).  With distinct walker ids, the list
    [get_regular_walkers] returns is ordered by the number of sessions,
    largest first, and names no walker twice.  An entry counts the sessions
    of its walker that start in the period, at least three of them, on at
    least one and at most that many days.  A walker is listed exactly when
    it was first seen in the period and has three sessions or more that
    start in it, on however many days. *)
Theorem regular_walkers_spec acfg now days_arg st :
  NoDup (Walker.id <$> walkers st) →
  let cutoff_date :=
    now - WalkerAnalytics.days (default (regular_walker_days acfg) days_arg) in
  let regular := WalkerAnalytics.get_regular_walkers acfg now days_arg st in
  StronglySorted
    (λ a b, RegularWalker.sessions_count b ≤ RegularWalker.sessions_count a)
    regular ∧
  NoDup (RegularWalker.walker_id <$> regular) ∧
  (∀ r, r ∈ regular →
     RegularWalker.sessions_count r =
       Z.of_nat (length (WalkerAnalytics.sessions_since cutoff_date
                           (RegularWalker.walker_id r) st)) ∧
     3 ≤ RegularWalker.sessions_count r ∧
     1 ≤ RegularWalker.unique_days r ≤ RegularWalker.sessions_count r) ∧
  (∀ walker, walker ∈ walkers st →
     (∃ r, r ∈ regular ∧ RegularWalker.walker_id r = Walker.id walker) ↔
     cutoff_date ≤ Walker.first_seen walker ∧
     3 ≤ Z.of_nat (length (WalkerAnalytics.sessions_since cutoff_date
                             (Walker.id walker) st))).
Proof.
  intros Hnd cutoff_date regular. split; [apply sorted_desc_sorted|].
  split; [|split].
  - unfold regular, WalkerAnalytics.get_regular_walkers. cbn zeta.
    rewrite sorted_desc_Permutation.
    eapply sublist_NoDup; [|apply (omap_ids_sublist _ Walker.id)].
    + eapply sublist_NoDup; [exact Hnd|]. apply fmap_sublist, sublist_filter.
    + intros walker r. case_decide; [|done]. by intros [= <-].
  - intros r (walker & Hin & Hfirst & Hlen & ->)%elem_of_regular_walkers.
    cbn [RegularWalker.sessions_count RegularWalker.walker_id
         RegularWalker.unique_days].
    fold cutoff_date in Hlen |- *.
    set (sessions := WalkerAnalytics.sessions_since cutoff_date (Walker.id walker) st)
      in *.
    split; [done|]. split; [done|].
    set (dates := (λ s, WalkerAnalytics.date (WalkSession.start_time s)) <$> sessions).
    pose proof (remove_dups_length dates) as Hle.
    assert (remove_dups dates ≠ []) as Hne.
    { apply remove_dups_not_nil. unfold dates. destruct sessions; [cbn in Hlen; lia|done]. }
    unfold dates in Hle at 2. rewrite length_fmap in Hle.
    destruct (remove_dups dates); [done|]. cbn [length] in Hle |- *. lia.
  - intros walker Hin. split.
    + intros (r & (walker' & Hin' & Hfirst & Hlen & ->)%elem_of_regular_walkers & Hid).
      cbn [RegularWalker.walker_id] in Hid.
      assert (walker' = walker) as ->.
      { apply list_elem_of_lookup in Hin as [i Hi].
        apply list_elem_of_lookup in Hin' as [j Hj].
        assert (i = j) as ->; [|congruence].
        eapply NoDup_lookup; [exact Hnd| |];
          rewrite list_lookup_fmap; [by rewrite Hi|]. rewrite Hj. cbn. by f_equal. }
      done.
    + intros [Hfirst Hlen]. eexists. split; [|shelve].
      apply elem_of_regular_walkers. exists walker. by repeat split.
      Unshelve. done.
Qed.

Lemma regular_walkers_spec_witness :
  let regular :=
    WalkerAnalytics.get_regular_walkers (Build_AnalyticsConfig 7 3) (seconds 100)
      None (three_walks false) in
  RegularWalker.sessions_count <$> regular = [3] ∧
  RegularWalker.unique_days <$> regular = [1] ∧
  NoDup (RegularWalker.walker_id <$> regular).
Proof.
  pose proof (regular_walkers_spec (Build_AnalyticsConfig 7 3) (seconds 100) None
                (three_walks false)) as H.
  cbn zeta in H. destruct H as (_ & Hnd & _).
  { apply (bool_decide_unpack _). by vm_compute. }
  split; [by vm_compute|]. split; [by vm_compute|exact Hnd].
Defined.

(** ** Suspicious walkers *)

Lemma omap_sorted_desc {A B} (f : A → option B) (g : A → Z) (h : B → Z)
    (l : list A) :
  (∀ x y, f x = Some y → h y = g x) →
  StronglySorted (λ a b, g b ≤ g a) l →
  StronglySorted (λ a b, h b ≤ h a) (omap f l).
Proof.
  intros Hf. induction 1 as [|x l Hl IH Hx]; [constructor|].
  cbn [omap list_omap]. destruct (f x) as [y|] eqn:Hy; [|done].
  constructor; [done|]. apply Forall_forall. intros z (x' & Hin & Hz)%list_elem_of_omap.
  rewrite Forall_forall in Hx. rewrite (Hf _ _ Hy), (Hf _ _ Hz). by apply Hx.
Qed.

Lemma elem_of_walkers_with_dogs st w :
  w ∈ WalkerAnalytics.get_walkers_with_dogs st ↔
  w ∈ Walker.id <$> walkers st ∧
  existsb Detection.has_dog (detections_of w st) = true.
Proof.
  unfold WalkerAnalytics.get_walkers_with_dogs, detections_of.
  rewrite list_elem_of_omap, list_elem_of_fmap. cbn zeta. split.
  - intros (walker & Hin & Hw).
    destruct (existsb _ _) eqn:Hdog; [|done]. injection Hw as <-.
    split; [by exists walker|done].
  - intros [(walker & -> & Hin) Hdog]. exists walker. split; [done|].
    by rewrite Hdog.
Qed.

(** X15 (suspicious walkers).  In a tracker with a consistent history, the
    list [get_suspicious_walkers] returns is ordered by total walks, largest
    first.  Each entry repeats an entry of [get_regular_walkers] for the
    configured period: its total walks are the sessions of that period, at
    least three and at least the threshold.  Its walker is one of
    [get_walkers_with_dogs], and its dog walks, counted over all sessions
    whatever the period, are at least one. *)
Theorem suspicious_walkers_spec acfg now threshold_arg st :
  consistent_history st →
  let threshold := default (suspicious_threshold acfg) threshold_arg in
  let suspicious :=
    WalkerAnalytics.get_suspicious_walkers acfg now threshold_arg st in
  StronglySorted
    (λ a b, SuspiciousWalker.total_walks b ≤ SuspiciousWalker.total_walks a)
    suspicious ∧
  ∀ s, s ∈ suspicious →
    (∃ r, r ∈ WalkerAnalytics.get_regular_walkers acfg now None st ∧
          RegularWalker.walker_id r = SuspiciousWalker.walker_id s ∧
          RegularWalker.sessions_count r = SuspiciousWalker.total_walks s ∧
          RegularWalker.first_seen r = SuspiciousWalker.first_seen s ∧
          RegularWalker.last_seen r = SuspiciousWalker.last_seen s) ∧
    SuspiciousWalker.walker_id s ∈ WalkerAnalytics.get_walkers_with_dogs st ∧
    3 ≤ SuspiciousWalker.total_walks s ∧
    threshold ≤ SuspiciousWalker.total_walks s ∧
    1 ≤ SuspiciousWalker.dog_walks s ∧
    SuspiciousWalker.dog_walks s =
      Z.of_nat (length (filter (λ x, WalkSession.has_dog x = true)
                          (sessions_of (SuspiciousWalker.walker_id s) st))).
Proof.
  intros (_ & _ & Hdog) threshold suspicious. split.
  - unfold suspicious, WalkerAnalytics.get_suspicious_walkers. cbn zeta.
    apply (omap_sorted_desc _ RegularWalker.sessions_count).
    + intros r s. case_decide; [|done]. by intros [= <-].
    + apply sorted_desc_sorted.
  - intros s. unfold suspicious, WalkerAnalytics.get_suspicious_walkers. cbn zeta.
    intros (r & Hr & Hs)%list_elem_of_omap.
    case_decide as Hcond; [|done]. destruct Hcond as [Hwith Hth].
    injection Hs as <-.
    cbn [SuspiciousWalker.walker_id SuspiciousWalker.total_walks
         SuspiciousWalker.dog_walks SuspiciousWalker.first_seen
         SuspiciousWalker.last_seen].
    assert (filter (λ x, WalkSession.walker_id x = RegularWalker.walker_id r ∧
                         WalkSession.has_dog x = true) (walk_sessions st)
            = filter (λ x, WalkSession.has_dog x = true)
                (sessions_of (RegularWalker.walker_id r) st)) as Heq.
    { unfold sessions_of. rewrite list_filter_filter. apply filter_iff_in.
      intros x _. tauto. }
    rewrite Heq.
    split; [by exists r|]. split; [done|].
    pose proof (regular_min_sessions acfg now None st r Hr) as H3.
    split; [done|]. split; [done|]. split; [|done].
    apply elem_of_walkers_with_dogs in Hwith as [_ Hd]. rewrite Hdog in Hd.
    apply existsb_exists in Hd as (x & Hx & Hxd).
    assert (x ∈ filter (λ x, WalkSession.has_dog x = true)
                  (sessions_of (RegularWalker.walker_id r) st)) as Hin.
    { apply list_elem_of_filter. split; [done|]. by apply list_elem_of_In. }
    apply list_elem_of_lookup in Hin as [i Hi]. apply lookup_lt_Some in Hi. lia.
Qed.

Lemma suspicious_walkers_spec_witness :
  let suspicious :=
    WalkerAnalytics.get_suspicious_walkers (Build_AnalyticsConfig 7 3)
      (seconds 100) None (three_walks true) in
  SuspiciousWalker.walker_id <$> suspicious = [1] ∧
  ∀ s, s ∈ suspicious →
    3 ≤ SuspiciousWalker.total_walks s ∧ 1 ≤ SuspiciousWalker.dog_walks s.
Proof.
  split; [by vm_compute|]. intros s Hs.
  pose proof (suspicious_walkers_spec (Build_AnalyticsConfig 7 3) (seconds 100) None
                (three_walks true)
                (reachable_consistent _ _ (three_walks_reachable true))) as [_ H].
  destruct (H s Hs) as (_ & _ & H3 & _ & H1 & _). by split.
Defined.

(** ** The analytics of a tracker fed by the MQTT feed *)

Lemma length_filter_impl {A} (P Q : A → Prop)
    `{∀ x, Decision (P x), ∀ x, Decision (Q x)} (l : list A) :
  (∀ x, x ∈ l → P x → Q x) → (length (filter P l) ≤ length (filter Q l))%nat.
Proof.
  induction l as [|x l IH]; intros HPQ; [done|]. rewrite !filter_cons.
  assert (length (filter P l) ≤ length (filter Q l))%nat
    by (apply IH; intros y Hy; apply HPQ; by right).
  destruct (decide (P x)) as [HP|], (decide (Q x)) as [|HQ]; cbn [length];
    try lia. destruct HQ. apply HPQ; [by left|done].
Qed.

Lemma handle_all_never_closed cfg events st :
  never_closed st → never_closed (handle_all cfg events st).
Proof.
  unfold handle_all. revert st.
  induction events as [|[[[now world] topic] payload] events IH]; intros st Hst;
    [done|].
  cbn [foldl]. by apply IH, handle_frigate_event_never_closed.
Qed.

Lemma never_closed_one_session st w :
  never_closed st → (length (sessions_of w st) ≤ 1)%nat.
Proof.
  intros (_ & Hone & Hall). etransitivity; [|apply (Hone w)].
  unfold sessions_of, open_sessions. apply length_filter_impl.
  intros s Hin Hs. unfold is_active. split; [done|].
  rewrite Forall_forall in Hall. by apply Hall.
Qed.

Lemma no_dog_detections_of st w :
  no_dog st → existsb Detection.has_dog (detections_of w st) = false.
Proof.
  intros [Hd _]. apply not_true_is_false.
  intros (d & Hin & Hdog)%existsb_exists.
  apply list_elem_of_In, list_elem_of_filter in Hin as [_ Hin].
  rewrite Forall_forall in Hd. specialize (Hd d Hin). congruence.
Qed.

(** X16 (the analytics of the feed).  From a tracker with a consistent
    history in which no session is closed and no detection carries a dog
    (the empty tracker is one), whatever events the feed delivers, every
    walker has exactly one session: so [get_regular_walkers] is empty for
    every period, [get_walkers_with_dogs] and [get_suspicious_walkers] are
    empty, and [get_stats] counts no walker with a dog. *)
Theorem feed_has_no_regular_walker cfg acfg events now days_arg threshold_arg st :
  never_closed st → no_dog st →
  let st' := handle_all cfg events st in
  (∀ walker, walker ∈ walkers st' →
     length (sessions_of (Walker.id walker) st') = 1%nat) ∧
  WalkerAnalytics.get_regular_walkers acfg now days_arg st' = [] ∧
  WalkerAnalytics.get_walkers_with_dogs st' = [] ∧
  WalkerAnalytics.get_suspicious_walkers acfg now threshold_arg st' = [] ∧
  Stats.walkers_with_dogs (get_stats st') = 0 ∧
  Stats.walkers_without_dogs (get_stats st') = Stats.total_walkers (get_stats st').
Proof.
  intros Hst Hno st'.
  assert (never_closed st') as Hst' by by apply handle_all_never_closed.
  assert (no_dog st') as Hno' by by apply handle_all_keeps_no_dog.
  assert (∀ days_arg, WalkerAnalytics.get_regular_walkers acfg now days_arg st' = [])
    as Hreg.
  { intros d. apply elem_of_nil_inv.
    intros r (walker & _ & _ & Hlen & _)%elem_of_regular_walkers.
    pose proof (never_closed_one_session st' (Walker.id walker) Hst') as Hle.
    assert (length (WalkerAnalytics.sessions_since
                      (now - WalkerAnalytics.days
                               (default (regular_walker_days acfg) d))
                      (Walker.id walker) st')
            ≤ length (sessions_of (Walker.id walker) st'))%nat as Hle'.
    { apply length_filter_impl. by intros s _ [? _]. }
    lia. }
  assert (WalkerAnalytics.get_walkers_with_dogs st' = []) as Hwith.
  { apply elem_of_nil_inv. intros w [_ Hw]%elem_of_walkers_with_dogs.
    by rewrite no_dog_detections_of in Hw. }
  split; [|split; [done|]; split; [done|]; split; [|split]].
  - intros walker Hin.
    pose proof (never_closed_one_session st' (Walker.id walker) Hst') as Hle.
    destruct Hst' as ((Hsome & _) & _).
    specialize (Hsome (Walker.id walker) (list_elem_of_fmap_2 _ _ _ Hin)).
    destruct (sessions_of (Walker.id walker) st'); [done|]. cbn [length] in *. lia.
  - unfold WalkerAnalytics.get_suspicious_walkers. cbn zeta. by rewrite Hreg.
  - unfold get_stats. cbn [Stats.walkers_with_dogs].
    rewrite filter_none; [done|].
    apply Forall_forall. intros w _. fold (detections_of (Walker.id w) st').
    by rewrite no_dog_detections_of.
  - unfold get_stats. cbn [Stats.walkers_with_dogs Stats.walkers_without_dogs
                           Stats.total_walkers].
    rewrite filter_none; [cbn [length]; lia|].
    apply Forall_forall. intros w _. fold (detections_of (Walker.id w) st').
    by rewrite no_dog_detections_of.
Qed.

Lemma feed_has_no_regular_walker_witness :
  let st' := handle_all (two_cameras 120) two_front_counts empty_tracker in
  length (detections st') = 2%nat ∧
  WalkerAnalytics.get_regular_walkers (Build_AnalyticsConfig 7 3) (seconds 100)
    None st' = [] ∧
  Stats.walkers_without_dogs (get_stats st') = 1.
Proof.
  pose proof (feed_has_no_regular_walker (two_cameras 120)
                (Build_AnalyticsConfig 7 3) two_front_counts (seconds 100) None None
                empty_tracker empty_tracker_never_closed) as H.
  cbn zeta in H. destruct H as (_ & Hreg & _ & _ & _ & Hstats).
  { split; constructor. }
  split; [by vm_compute|]. split; [exact Hreg|].
  rewrite Hstats. by vm_compute.
Defined.

(** ** Path patterns *)

Lemma count_path_keys path paths :
  (WalkerAnalytics.count_path path paths).*1 =
  if decide (path ∈ paths.*1) then paths.*1 else paths.*1 ++ [path].
Proof.
  induction paths as [|[k n] paths IH]; [done|]. cbn [WalkerAnalytics.count_path].
  destruct (decide (k = path)) as [->|Hk].
  - by rewrite decide_True by (by left).
  - cbn [fmap list_fmap fst]. rewrite IH. cbn [fmap list_fmap fst] in *.
    destruct (decide (path ∈ paths.*1)) as [Hin|Hin].
    + by rewrite decide_True by (by right).
    + rewrite decide_False; [done|].
      intros [?|?]%elem_of_cons; [by apply Hk|done].
Qed.

Lemma count_path_NoDup path paths :
  NoDup paths.*1 → NoDup (WalkerAnalytics.count_path path paths).*1.
Proof.
  intros Hnd. rewrite count_path_keys. case_decide as Hin; [done|].
  apply NoDup_app. split; [done|]. split; [|apply NoDup_singleton].
  by intros x Hx ->%list_elem_of_singleton.
Qed.

Lemma count_path_total path paths :
  total_count (WalkerAnalytics.count_path path paths) = total_count paths + 1.
Proof.
  induction paths as [|[k n] paths IH]; [done|]. cbn [WalkerAnalytics.count_path].
  unfold total_count in *. case_decide; cbn [foldr snd] in *; lia.
Qed.

Lemma elem_of_count_path path paths p n :
  NoDup paths.*1 →
  (p, n) ∈ WalkerAnalytics.count_path path paths ↔
  (p ≠ path ∧ (p, n) ∈ paths) ∨
  (p = path ∧ ((path, n - 1) ∈ paths ∨ (n = 1 ∧ path ∉ paths.*1))).
Proof.
  induction paths as [|[k m] paths IH]; intros Hnd.
  - cbn [WalkerAnalytics.count_path]. rewrite list_elem_of_singleton. split.
    + intros [= -> ->]. right. split; [done|]. right. split; [done|].
      apply not_elem_of_nil.
    + intros [[_ []%elem_of_nil]|[-> [[]%elem_of_nil|[-> _]]]]. done.
  - cbn [fmap list_fmap fst] in Hnd. apply NoDup_cons in Hnd as [Hk Hnd].
    assert (∀ x, (k, x) ∉ paths) as Hk'.
    { intros x Hx. apply Hk. apply list_elem_of_fmap. by exists (k, x). }
    cbn [WalkerAnalytics.count_path]. destruct (decide (k = path)) as [->|Hkp].
    + rewrite !elem_of_cons. split.
      * intros [[= -> ->]|Hin].
        -- right. split; [done|]. left. left. f_equal. lia.
        -- destruct (decide (p = path)) as [->|]; [by destruct (Hk' n)|].
           left. split; [done|]. by right.
      * intros [[Hne [[= ??]|Hin]]|[-> [[[= <-]|Hin]|[_ Hnot]]]];
          [done|by right|left; f_equal; lia|by destruct (Hk' (n - 1))|].
        destruct Hnot. cbn [fmap list_fmap fst]. by left.
    + rewrite !elem_of_cons, (IH Hnd). cbn [fmap list_fmap fst].
      rewrite !elem_of_cons. split.
      * intros [[= -> ->]|[[Hne Hin]|[-> [Hin|[-> Hnot]]]]].
        -- left. split; [done|]. by left.
        -- left. split; [done|]. by right.
        -- right. split; [done|]. left. by right.
        -- right. split; [done|]. right. split; [done|].
           intros [?|?]; [by apply Hkp|done].
      * intros [[Hne [[= -> ->]|Hin]]|[-> [[[= ??]|Hin]|[-> Hnot]]]].
        -- by left.
        -- right. left. by split.
        -- by destruct Hkp.
        -- right. right. split; [done|]. by left.
        -- right. right. split; [done|]. right. split; [done|].
           intros ?. apply Hnot. by right.
Qed.

Lemma total_insert_desc x (l : list (string * Z)) :
  total_count (insert_desc snd x l) = x.2 + total_count l.
Proof.
  induction l as [|y l IH]; [done|]. cbn [insert_desc].
  unfold total_count in *. case_decide; cbn [foldr] in *; lia.
Qed.

Lemma total_sorted_desc (l : list (string * Z)) :
  total_count (sorted_desc snd l) = total_count l.
Proof.
  induction l as [|x l IH]; [done|].
  change (sorted_desc snd (x :: l)) with (insert_desc snd x (sorted_desc snd l)).
  rewrite total_insert_desc, IH. done.
Qed.

(** The table the loop of [get_path_patterns] builds. *)
Lemma counted_paths (l : list Detection.t) :
  let paths :=
    foldl (λ paths detection, WalkerAnalytics.count_path (Detection.path_name detection) paths)
      [] l in
  NoDup paths.*1 ∧ total_count paths = Z.of_nat (length l) ∧
  ∀ p n, (p, n) ∈ paths ↔
    0 < n ∧ n = Z.of_nat (length (filter (λ d, Detection.path_name d = p) l)).
Proof.
  induction l as [|d l IH] using rev_ind.
  - cbn. split; [constructor|]. split; [done|]. intros p n. split.
    + by intros ?%elem_of_nil.
    + intros [? ->]. lia.
  - cbn zeta in *. rewrite foldl_app. cbn [foldl].
    destruct IH as (Hnd & Htot & Hin).
    set (paths := foldl _ [] l) in *.
    split; [by apply count_path_NoDup|]. split.
    { rewrite count_path_total, length_app. cbn [length]. lia. }
    intros p n. rewrite elem_of_count_path by done.
    rewrite filter_app, length_app, filter_cons, filter_nil.
    assert (Detection.path_name d ∉ paths.*1 ↔
            length (filter (λ x, Detection.path_name x = Detection.path_name d) l)
              = 0%nat) as Hnot.
    { split.
      - intros Hnot. destruct (length (filter _ l)) as [|k] eqn:Hk; [done|].
        destruct Hnot. apply list_elem_of_fmap.
        exists (Detection.path_name d, Z.of_nat (S k)). split; [done|].
        apply Hin. rewrite Hk. lia.
      - intros H0 ((p' & m) & Hp & [Hm ->]%Hin)%list_elem_of_fmap.
        cbn [fst] in Hp. subst p'. lia. }
    rewrite !Hin. case_decide as Hp; cbn [length].
    + subst p. split.
      * intros [[[] _]|[_ [[? ?]|[-> ->%Hnot]]]]; [done|lia|lia].
      * intros [Hn ->]. right. split; [done|].
        destruct (length (filter _ l)) as [|k] eqn:Hk.
        -- right. split; [lia|]. by apply Hnot.
        -- left. lia.
    + split.
      * intros [[_ [? ->]]|[-> _]]; [lia|done].
      * intros [? ->]. left. split; [done|lia].
Qed.

Lemma path_patterns_total walker_id st :
  total_count (WalkerAnalytics.get_path_patterns walker_id st)
  = Z.of_nat (length (detections_of walker_id st)).
Proof.
  unfold WalkerAnalytics.get_path_patterns. cbn zeta.
  fold (detections_of walker_id st). rewrite total_sorted_desc.
  apply (counted_paths (detections_of walker_id st)).
Qed.

(** X17 (path patterns).  The table [get_path_patterns] returns names each
    path once, ordered by count, largest first.  A path is in the table
    exactly when a detection of the walker took it, with the number of these
    detections as its count, and the counts add up to the number of
    detections of the walker. *)
Theorem path_patterns_spec walker_id st :
  let patterns := WalkerAnalytics.get_path_patterns walker_id st in
  NoDup patterns.*1 ∧
  StronglySorted (λ a b, b.2 ≤ a.2) patterns ∧
  total_count patterns = Z.of_nat (length (detections_of walker_id st)) ∧
  ∀ path n, (path, n) ∈ patterns ↔
    0 < n ∧
    n = Z.of_nat (length (filter (λ d, Detection.path_name d = path)
                            (detections_of walker_id st))).
Proof.
  unfold WalkerAnalytics.get_path_patterns. cbn zeta.
  fold (detections_of walker_id st).
  destruct (counted_paths (detections_of walker_id st)) as (Hnd & Htot & Hin).
  split; [by rewrite sorted_desc_Permutation|].
  split; [apply sorted_desc_sorted|].
  split; [by rewrite total_sorted_desc|].
  intros path n. by rewrite elem_of_sorted_desc.
Qed.

(** ** The statistics of the dashboard *)

(** Rows that refer to distinct keys are counted once each. *)
Lemma length_by_key {A B K} `{EqDecision K} (g : A → K) (h : B → K)
    (ws : list A) (ds : list B) :
  NoDup (g <$> ws) →
  Forall (λ d, h d ∈ g <$> ws) ds →
  sumZ ((λ w, Z.of_nat (length (filter (λ d, h d = g w) ds))) <$> ws)
  = Z.of_nat (length ds).
Proof.
  revert ds. induction ws as [|w ws IH]; intros ds Hnd Hds.
  - destruct ds as [|d ds]; [done|].
    apply Forall_cons in Hds as [[]%elem_of_nil _].
  - cbn [fmap list_fmap] in Hnd. apply NoDup_cons in Hnd as [Hw Hnd].
    cbn [fmap list_fmap sumZ foldr]. fold (sumZ).
    set (rest := filter (λ d, h d ≠ g w) ds).
    assert ((λ w', Z.of_nat (length (filter (λ d, h d = g w') ds))) <$> ws
            = (λ w', Z.of_nat (length (filter (λ d, h d = g w') rest))) <$> ws)
      as Heq.
    { apply list_fmap_ext. intros i w' Hw'.
      unfold rest. rewrite list_filter_filter. do 2 f_equal.
      apply filter_iff_in. intros d _. split; [|tauto].
      intros Hd. split; [done|]. intros Heq. apply Hw. rewrite <- Heq, Hd.
      apply list_elem_of_fmap_2. by eapply list_elem_of_lookup_2. }
    change (Z.of_nat (length (filter (λ d, h d = g w) ds))
            + sumZ ((λ w', Z.of_nat (length (filter (λ d, h d = g w') ds))) <$> ws)
            = Z.of_nat (length ds)).
    rewrite Heq, (IH rest Hnd).
    + unfold rest. clear. induction ds as [|d ds IHd]; [done|].
      rewrite !filter_cons.
      destruct (decide (h d = g w)), (decide (h d ≠ g w)); cbn [length]; try lia;
        tauto.
    + apply Forall_forall. intros d [Hne Hd]%list_elem_of_filter.
      rewrite Forall_forall in Hds. specialize (Hds d Hd).
      cbn [fmap list_fmap] in Hds. by apply elem_of_cons in Hds as [?|?].
Qed.

Lemma length_filter_omap {A B} (b : A → bool) (g : A → B) (l : list A) :
  length (filter (λ x, b x = true) l)
  = length (omap (λ x, if b x then Some (g x) else None) l).
Proof.
  induction l as [|x l IH]; [done|]. rewrite filter_cons. cbn [omap list_omap].
  destruct (b x).
  - rewrite decide_True by done. cbn [length]. by rewrite IH.
  - by rewrite decide_False by done.
Qed.

Lemma get_all_walkers_eq st :
  get_all_walkers st =
  (λ w, Some (WalkerStats.mk (Walker.id w)
                (from_option (λ r, Walker.first_seen r.2) 0
                   (list_find (λ r, Walker.id r = Walker.id w) (walkers st)))
                (from_option (λ r, Walker.last_seen r.2) 0
                   (list_find (λ r, Walker.id r = Walker.id w) (walkers st)))
                (Z.of_nat (length (sessions_of (Walker.id w) st)))
                (Z.of_nat (length (detections_of (Walker.id w) st)))
                (remove_dups (Detection.camera <$> detections_of (Walker.id w) st))
                (remove_dups (Detection.path_name <$> detections_of (Walker.id w) st))
                (existsb Detection.has_dog (detections_of (Walker.id w) st))))
    <$> walkers st.
Proof.
  unfold get_all_walkers. apply list_fmap_ext. intros i w Hw.
  unfold get_walker_stats.
  destruct (list_find_elem_of (λ r, Walker.id r = Walker.id w) (walkers st) w)
    as [[j walker] ->]; [by eapply list_elem_of_lookup_2|done|done].
Qed.

Lemma stats_sums st :
  NoDup (Walker.id <$> walkers st) → refs_known st →
  sum_stats WalkerStats.total_detections (get_all_walkers st)
    = Stats.total_detections (get_stats st) ∧
  sum_stats WalkerStats.total_walks (get_all_walkers st)
    = Stats.total_sessions (get_stats st).
Proof.
  intros Hnd [Hd Hs]. split.
  - unfold sum_stats. rewrite get_all_walkers_eq, <- list_fmap_compose.
    unfold compose. cbn [from_option WalkerStats.total_detections].
    unfold detections_of, get_stats. cbn [Stats.total_detections].
    by apply (length_by_key Walker.id Detection.walker_id).
  - unfold sum_stats. rewrite get_all_walkers_eq, <- list_fmap_compose.
    unfold compose. cbn [from_option WalkerStats.total_walks].
    unfold sessions_of, get_stats. cbn [Stats.total_sessions].
    by apply (length_by_key Walker.id WalkSession.walker_id).
Qed.

(** X18 (the statistics add up).  [get_stats] counts as walkers with dogs
    the walkers [get_walkers_with_dogs] lists, and they are the walkers
    whose [get_walker_stats] say so.  When walker ids are distinct and every
    detection and session refers to a stored walker, the detections and the
    sessions of [get_all_walkers] add up to the totals of [get_stats]. *)
Theorem statistics_add_up st :
  NoDup (Walker.id <$> walkers st) →
  Forall (λ d, Detection.walker_id d ∈ Walker.id <$> walkers st) (detections st) →
  Forall (λ s, WalkSession.walker_id s ∈ Walker.id <$> walkers st)
    (walk_sessions st) →
  let stats := get_stats st in
  Stats.walkers_with_dogs stats
    = Z.of_nat (length (WalkerAnalytics.get_walkers_with_dogs st)) ∧
  0 ≤ Stats.walkers_without_dogs stats ∧
  (∀ w ws, get_walker_stats w st = Some ws →
     (WalkerStats.has_dog ws = true ↔
      w ∈ WalkerAnalytics.get_walkers_with_dogs st)) ∧
  sum_stats WalkerStats.total_detections (get_all_walkers st)
    = Stats.total_detections stats ∧
  sum_stats WalkerStats.total_walks (get_all_walkers st)
    = Stats.total_sessions stats.
Proof.
  intros Hnd Hd Hs stats.
  assert (Stats.walkers_with_dogs stats
          = Z.of_nat (length (WalkerAnalytics.get_walkers_with_dogs st))) as Hwith.
  { unfold stats, get_stats, WalkerAnalytics.get_walkers_with_dogs.
    cbn [Stats.walkers_with_dogs]. f_equal. apply length_filter_omap. }
  split; [done|]. split; [|split; [|split]].
  - unfold stats, get_stats.
    cbn [Stats.walkers_with_dogs Stats.walkers_without_dogs].
    pose proof (length_filter
                  (λ w, existsb Detection.has_dog
                          (filter (λ d, Detection.walker_id d = Walker.id w)
                             (detections st)) = true) (walkers st)).
    lia.
  - intros w ws. unfold get_walker_stats.
    destruct (list_find _ _) as [[i walker]|] eqn:Hfind; [|done].
    intros [= <-]. cbn [WalkerStats.has_dog].
    fold (detections_of w st). rewrite elem_of_walkers_with_dogs.
    apply list_find_Some in Hfind as (Hi & <- & _).
    split; [|tauto]. intros Hdog. split; [|done].
    apply list_elem_of_fmap_2. by eapply list_elem_of_lookup_2.
  - apply (stats_sums st Hnd (conj Hd Hs)).
  - apply (stats_sums st Hnd (conj Hd Hs)).
Qed.

Lemma statistics_add_up_witness :
  let st := three_walks true in
  sum_stats WalkerStats.total_detections (get_all_walkers st) = 3 ∧
  Stats.total_sessions (get_stats st) = 3 ∧
  Stats.walkers_with_dogs (get_stats st) = 1.
Proof.
  pose proof (statistics_add_up (three_walks true)) as H.
  cbn zeta in H. destruct H as (_ & _ & _ & Hdet & _).
  - apply (bool_decide_unpack _). by vm_compute.
  - apply (bool_decide_unpack _). by vm_compute.
  - apply (bool_decide_unpack _). by vm_compute.
  - cbn zeta. rewrite Hdet. split; [by vm_compute|]. split; by vm_compute.
Defined.

(** ** The report of a walker *)

Lemma strftime_A_key t :
  WalkerAnalytics.strftime_A t ∈ WalkerAnalytics.day_names.
Proof.
  unfold WalkerAnalytics.strftime_A.
  assert (0 ≤ WalkerAnalytics.weekday t < 7) as Hday
    by (apply Z.mod_pos_bound; lia).
  assert (Z.to_nat (WalkerAnalytics.weekday t) < 7)%nat as Hlt by lia.
  clear Hday.
  destruct (Z.to_nat (WalkerAnalytics.weekday t)) as [|[|[|[|[|[|[|n]]]]]]];
    [apply (bool_decide_unpack _); by vm_compute..|lia].
Qed.

(** The table a loop of appends builds from empty lists. *)
Lemma appended_by_key {A} (key : A → string) (f : A → string)
    (names : list string) (l : list A) :
  foldl (λ (schedule : list (string * list string)) x,
           (λ kv, if decide (kv.1 = key x) then (kv.1, kv.2 ++ [f x]) else kv)
             <$> schedule)
    ((λ day, (day, [])) <$> names) l
  = (λ day, (day, f <$> filter (λ x, key x = day) l)) <$> names.
Proof.
  induction l as [|x l IH] using rev_ind; [done|].
  rewrite foldl_app. cbn [foldl]. rewrite IH, <- list_fmap_compose.
  apply list_fmap_ext. intros i day _. unfold compose. cbn [fst snd].
  rewrite filter_app, filter_cons, filter_nil, fmap_app.
  destruct (decide (day = key x)) as [->|Hne].
  - by rewrite decide_True by done.
  - rewrite decide_False by done. by rewrite fmap_nil, app_nil_r.
Qed.

Lemma length_concat_fmap {A B} (g : A → list B) (ws : list A) :
  Z.of_nat (length (concat (g <$> ws)))
  = sumZ ((λ w, Z.of_nat (length (g w))) <$> ws).
Proof.
  induction ws as [|w ws IH]; [done|].
  cbn [fmap list_fmap concat sumZ foldr]. rewrite length_app.
  unfold sumZ in IH. cbn [fmap list_fmap] in IH. lia.
Qed.

Lemma walker_schedule_eq walker_id st :
  WalkerAnalytics.get_walker_schedule walker_id st
  = (λ day, (day, (λ s, WalkerAnalytics.strftime_HM (WalkSession.start_time s))
                    <$> filter (λ s, WalkerAnalytics.strftime_A
                                       (WalkSession.start_time s) = day)
                          (sessions_of walker_id st)))
      <$> WalkerAnalytics.day_names.
Proof.
  unfold WalkerAnalytics.get_walker_schedule. cbn zeta.
  apply (appended_by_key
           (λ s, WalkerAnalytics.strftime_A (WalkSession.start_time s))
           (λ s, WalkerAnalytics.strftime_HM (WalkSession.start_time s))).
Qed.

(** X19 (report and statistics agree).  In a tracker with a consistent
    history, [generate_report] is empty exactly when [get_walker_stats] has
    no walker; otherwise the two agree on first and last seen, on the number
    of sessions and of detections, on the cameras, and on the dog, which one
    reads off the sessions and the other off the detections.  The counts of
    the path patterns add up to the detections, and the schedule has the
    seven days as keys and holds one time for each session. *)
Theorem report_agrees_with_stats walker_id st :
  consistent_history st →
  (WalkerAnalytics.generate_report walker_id st = None ↔
   get_walker_stats walker_id st = None) ∧
  ∀ report, WalkerAnalytics.generate_report walker_id st = Some report →
    ∃ stats,
      get_walker_stats walker_id st = Some stats ∧
      Report.first_seen report = WalkerStats.first_seen stats ∧
      Report.last_seen report = WalkerStats.last_seen stats ∧
      Report.total_sessions report = WalkerStats.total_walks stats ∧
      Report.total_detections report = WalkerStats.total_detections stats ∧
      Report.cameras_used report = WalkerStats.cameras stats ∧
      Report.has_dog report = WalkerStats.has_dog stats ∧
      total_count (Report.path_patterns report) = Report.total_detections report ∧
      (Report.schedule report).*1 = WalkerAnalytics.day_names ∧
      Z.of_nat (length (concat (Report.schedule report).*2))
        = Report.total_sessions report.
Proof.
  intros (_ & _ & Hdog).
  unfold WalkerAnalytics.generate_report, get_walker_stats.
  destruct (list_find _ _) as [[i walker]|]; [|done].
  split; [done|]. intros report [= <-]. eexists. split; [done|].
  cbn [Report.first_seen Report.last_seen Report.total_sessions
       Report.total_detections Report.cameras_used Report.has_dog
       Report.path_patterns Report.schedule WalkerStats.first_seen
       WalkerStats.last_seen WalkerStats.total_walks WalkerStats.total_detections
       WalkerStats.cameras WalkerStats.has_dog].
  do 5 (split; [done|]).
  split; [symmetry; apply Hdog|].
  split; [apply path_patterns_total|].
  rewrite walker_schedule_eq, <- !list_fmap_compose. unfold compose. cbn [fst snd].
  split; [apply list_fmap_id|].
  rewrite length_concat_fmap. fold (sessions_of walker_id st).
  rewrite <- (length_by_key (K := string) id
                (λ s, WalkerAnalytics.strftime_A (WalkSession.start_time s))
                WalkerAnalytics.day_names (sessions_of walker_id st)).
  - f_equal. apply list_fmap_ext. intros j day _. by rewrite length_fmap.
  - rewrite list_fmap_id. apply (bool_decide_unpack _). by vm_compute.
  - apply Forall_forall. intros s _. rewrite list_fmap_id. apply strftime_A_key.
Qed.

Lemma report_agrees_with_stats_witness :
  ∃ report,
    WalkerAnalytics.generate_report 1 (three_walks true) = Some report ∧
    Report.schedule report !! 3%nat
      = Some ("Thursday", ["00:00"; "00:00"; "00:00"]) ∧
    Report.has_dog report = true ∧
    Z.of_nat (length (concat (Report.schedule report).*2))
      = Report.total_sessions report.
Proof.
  destruct (report_agrees_with_stats 1 (three_walks true)
              (reachable_consistent _ _ (three_walks_reachable true)))
    as [_ H].
  destruct (WalkerAnalytics.generate_report 1 (three_walks true))
    as [report|] eqn:Hreport; [|by vm_compute in Hreport].
  exists report. split; [done|].
  destruct (H report eq_refl) as (stats & _ & _ & _ & _ & _ & _ & _ & _ & _ & Hlen).
  vm_compute in Hreport. injection Hreport as <-.
  split; [by vm_compute|]. split; [done|exact Hlen].
Defined.

(** ** The statistics of a tracker fed by the MQTT feed *)

Lemma process_detection_refs_known cfg now camera zone path_name has_dog pc dc
    st r st' :
  process_detection cfg now camera zone path_name true has_dog pc dc st
    = Ok (r, st') →
  refs_known st → refs_known st'.
Proof.
  intros (w & ws & _ & Hres & ->)%process_detection_Ok_inv [Hd Hs].
  pose proof (resolved_id_known _ _ _ _ _ _ _ _ Hres) as Hw.
  assert (∀ x, x ∈ Walker.id <$> walkers st → x ∈ Walker.id <$> ws) as Hmono
    by (intros x; by eapply resolved_ids_mono).
  unfold refs_known.
  rewrite finish_detection_walkers, finish_detection_detections,
    finish_detection_walk_sessions.
  split.
  - cbn [walkers detections set_walkers].
    apply Forall_app. split; [|by apply Forall_singleton].
    eapply Forall_impl; [exact Hd|]. intros d. apply Hmono.
  - assert (Forall (λ s, WalkSession.walker_id s ∈ Walker.id <$> ws)
              (walk_sessions st)) as Hs'
      by (eapply Forall_impl; [exact Hs|]; intros s; apply Hmono).
    destruct (update_walk_session_cases now w camera path_name has_dog
                (set_walkers ws st))
      as [[_ Heq]|(l1 & active & l2 & Hl & _ & _ & Heq & _)];
      rewrite Heq; cbn [walkers walk_sessions set_walkers] in *.
    + apply Forall_app. split; [done|]. by apply Forall_singleton.
    + apply Forall_insert; [done|]. cbn [updated_session WalkSession.walker_id].
      rewrite Forall_forall in Hs'. apply Hs'. rewrite Hl.
      apply elem_of_app. right. by left.
Qed.

(** What an event of the feed does to the three tables of the history:
    nothing, or what one call of [process_detection] does. *)
Lemma handle_frigate_event_history cfg now world topic payload st :
  let st' := _handle_frigate_event cfg now world topic payload st in
  (walkers st' = walkers st ∧ detections st' = detections st ∧
   walk_sessions st' = walk_sessions st) ∨
  (∃ camera zone path_name pc r st1,
     process_detection cfg now camera zone path_name true false pc 0 st
       = Ok (r, st1) ∧
     walkers st' = walkers st1 ∧ detections st' = detections st1 ∧
     walk_sessions st' = walk_sessions st1).
Proof.
  unfold _handle_frigate_event. cbn zeta. case_decide.
  - left. destruct (_process_event cfg world payload st) as [st'|] eqn:He;
      [|done].
    by apply process_event_database in He as [(Hw & Hd & Hs & _) _].
  - destruct (split "/" topic) as [|p0 [|camera [|object_type [|? ?]]]];
      try by left.
    case_decide; [|by left]. unfold _process_detection.
    destruct (cameras cfg !! camera) as [cc|]; [|by left].
    cbn zeta. case_decide; [|by left].
    destruct (process_detection _ _ _ _ _ _ _ _ _ _) as [[r st1]|] eqn:Hrun;
      [|by left].
    right. exists camera, (CameraConfig.zone cc), (CameraConfig.path_name cc),
      (min_person_confidence cfg), r, st1. split; [done|].
    destruct r as [w|]; [|done]. case_decide; [|done].
    apply capture_latest_frame_history.
Qed.

(** X20 (the statistics of the feed add up).  From a tracker whose walker
    ids count up from 1 and whose detections and sessions refer to stored
    walkers (the empty tracker is one), whatever events the feed delivers,
    this stays so, and the detections and the sessions of [get_all_walkers]
    add up to the totals of [get_stats]. *)
Theorem feed_statistics_add_up cfg events st :
  walkers_numbered st → refs_known st →
  let st' := handle_all cfg events st in
  NoDup (Walker.id <$> walkers st') ∧ refs_known st' ∧
  sum_stats WalkerStats.total_detections (get_all_walkers st')
    = Stats.total_detections (get_stats st') ∧
  sum_stats WalkerStats.total_walks (get_all_walkers st')
    = Stats.total_sessions (get_stats st').
Proof.
  intros Hnum Hrefs st'.
  assert (walkers_numbered st' ∧ refs_known st') as [[Hids _] Hrefs'].
  { subst st'. unfold handle_all. revert st Hnum Hrefs.
    induction events as [|[[[now world] topic] payload] events IH];
      intros st Hnum Hrefs; [done|].
    cbn [foldl].
    destruct (handle_frigate_event_history cfg now world topic payload st)
      as [(Hw & Hd & Hs)|(camera & zone & path_name & pc & r & st1 & Hrun
                          & Hw & Hd & Hs)].
    - apply IH; unfold walkers_numbered, refs_known in *;
        by rewrite ?Hw, ?Hd, ?Hs.
    - pose proof (step_process_detection cfg st now camera zone path_name true
                    false pc 0 r st1 Hrun) as Hstep.
      pose proof (tracker_step_walkers_numbered _ _ _ Hstep Hnum) as Hnum1.
      pose proof (process_detection_refs_known _ _ _ _ _ _ _ _ _ _ _ Hrun Hrefs)
        as Hrefs1.
      apply IH; unfold walkers_numbered, refs_known in *;
        by rewrite ?Hw, ?Hd, ?Hs. }
  assert (NoDup (Walker.id <$> walkers st')) as Hnd
    by (rewrite Hids; apply NoDup_seqZ).
  split; [done|]. split; [done|]. by apply stats_sums.
Qed.

Lemma feed_statistics_add_up_witness :
  let st' := handle_all (two_cameras 120) two_front_counts empty_tracker in
  Stats.total_detections (get_stats st') = 2 ∧
  sum_stats WalkerStats.total_detections (get_all_walkers st')
    = Stats.total_detections (get_stats st').
Proof.
  split; [by vm_compute|].
  apply (feed_statistics_add_up (two_cameras 120) two_front_counts empty_tracker).
  - split; [reflexivity|constructor].
  - split; constructor.
Defined.
